(** * Pixel-processing core of the adifi photo editor

    Shallow embedding of the four service modules that carry the
    numeric algorithms of the editor:
    - [src/src/services/imageAnalysis.ts]   (histogram analyzer)
    - [src/unnamed/part_004]                 (sharpening and sharpness score)
    - [src/src/services/colorAnalysis.ts]   (palette sampling and gate)
    - [src/src/services/autoCrop.ts]        (mask-driven cropper)

    Conventions of the model.
    - An [ImageData] is its width, its height and the flat RGBA byte array
      [data] (a [Uint8ClampedArray]), as a [list Z].
    - JavaScript numbers that stay rational (averages, thresholds, crop
      geometry) are exact rationals [Q]; the sharpening and sharpness
      code, which takes square roots, computes in [R].
    - [Math.round x] is [floor (x + 1/2)].
    - Reading a typed array out of range gives [undefined]; writing out of
      range is ignored (stdpp's list [insert] does nothing there). *)

From Stdlib Require Import ZArith QArith Qround Qminmax Qabs Lia Lqa Sorted.
From Stdlib Require Import Reals Lra.
From stdpp Require Import base list.
From Stdlib Require String Ascii.

Open Scope Z_scope.

(* ------------------------------------------------------------------ *)
(** ** Shared helpers: loops, typed arrays, JavaScript arithmetic       *)
(* ------------------------------------------------------------------ *)

(** [for (let i = lo; i < hi; i++) s = f i s] *)
Definition for_range {S : Type} (lo hi : Z) (f : Z -> S -> S) (s : S) : S :=
  fold_left (fun acc k => f (lo + Z.of_nat k) acc) (seq 0 (Z.to_nat (hi - lo))) s.

(** [arr[i]] on a typed array: [None] is [undefined]. *)
Definition read (d : list Z) (i : Z) : option Z :=
  if i <? 0 then None else d !! Z.to_nat i.

(** [arr[i]] used as a number; every read of the sharpening code is in
    range for an [ImageData] ([data.length = 4 * width * height]). *)
Definition rd (d : list Z) (i : Z) : Z := default 0 (read d i).

(** [arr[i] = v] on a typed array: out-of-range writes are dropped. *)
Definition write (d : list Z) (i : Z) (v : Z) : list Z :=
  if i <? 0 then d else <[Z.to_nat i := v]> d.

(** [Math.round] on a rational. *)
Definition js_round (q : Q) : Z := Qfloor (q + (1 # 2))%Q.

Record ImageData := mkImageData {
  width : Z;
  height : Z;
  data : list Z
}.

(** Flat index of channel [c] of pixel [(x, y)]: [(y * width + x) * 4 + c]. *)
Definition pix_idx (w x y c : Z) : Z := (y * w + x) * 4 + c.

(* ------------------------------------------------------------------ *)
(** ** Convolution sharpener ([src/unnamed/part_004])                   *)
(* ------------------------------------------------------------------ *)

Module Sharpen.

(** Storing a number into a [Uint8ClampedArray] (ToUint8Clamp): clamp to
    [0, 255], then round half to even. *)
Definition to_uint8_clamp (v : R) : Z :=
  if Rle_dec v 0 then 0
  else if Rle_dec 255 v then 255
  else
    let f := Int_part v in
    if Rlt_dec (IZR f + / 2) v then f + 1
    else if Rlt_dec v (IZR f + / 2) then f
    else if Z.even f then f else f + 1.

(** [Math.max(0, Math.min(255, v))] *)
Definition clamp255 (v : R) : R := Rmax 0 (Rmin 255 v).

Definition gaussianKernel : list Z := [1; 2; 1; 2; 4; 2; 1; 2; 1].
Definition laplacianKernel : list Z := [0; -1; 0; -1; 5; -1; 0; -1; 0].
Definition sobelX : list Z := [-1; 0; 1; -2; 0; 2; -1; 0; 1].
Definition sobelY : list Z := [-1; -2; -1; 0; 0; 0; 1; 2; 1].

(** The 3x3 accumulation loop
    [for ky in -1..1, for kx in -1..1: sum += original[idx] * kernel[ki++]]
    on channel [c] around pixel [(x, y)]; [ki] is [(ky+1)*3 + (kx+1)].
    Bytes times small integers: the sum is an exact integer. *)
Definition conv3 (original : list Z) (w x y c : Z) (kernel : list Z) : Z :=
  for_range (-1) 2 (fun ky acc =>
    for_range (-1) 2 (fun kx acc =>
      acc + rd original (pix_idx w (x + kx) (y + ky) c)
            * nth (Z.to_nat ((ky + 1) * 3 + (kx + 1))) kernel 0) acc) 0.

(** The interior loop shared by the three methods:
    [for y in 1..height-2, for x in 1..width-2]: write the three colour
    channels with [value x y c], then copy the alpha byte of [original]. *)
Definition interior_pass (original : list Z) (w h : Z)
    (value : Z -> Z -> Z -> Z) (result : list Z) : list Z :=
  for_range 1 (h - 1) (fun y r =>
    for_range 1 (w - 1) (fun x r =>
      let r := for_range 0 3 (fun c r => write r (pix_idx w x y c) (value x y c)) r in
      write r (pix_idx w x y 3) (rd original (pix_idx w x y 3))) r) result.

(** [applyUnsharpMask]: Gaussian blur into a fresh array, then
    [original + intensity * (original - blurred)], clamped. *)
Definition applyUnsharpMask (original result : list Z) (w h : Z) (intensity : R)
    : list Z :=
  let blurred :=
    for_range 1 (h - 1) (fun y b =>
      for_range 1 (w - 1) (fun x b =>
        for_range 0 3 (fun c b =>
          write b (pix_idx w x y c)
            (to_uint8_clamp (IZR (conv3 original w x y c gaussianKernel) / 16)%R)) b) b)
      (repeat 0 (length original)) in
  interior_pass original w h (fun x y c =>
    let originalValue := rd original (pix_idx w x y c) in
    let blurredValue := rd blurred (pix_idx w x y c) in
    let difference := originalValue - blurredValue in
    let sharpened := (IZR originalValue + IZR difference * intensity)%R in
    to_uint8_clamp (clamp255 sharpened)) result.

(** [applyLaplacianSharpening] *)
Definition applyLaplacianSharpening (original result : list Z) (w h : Z)
    (intensity : R) : list Z :=
  interior_pass original w h (fun x y c =>
    let sum := conv3 original w x y c laplacianKernel in
    let o := rd original (pix_idx w x y c) in
    let enhanced := (IZR o + IZR (sum - o) * intensity * (3 / 10))%R in
    to_uint8_clamp (clamp255 enhanced)) result.

(** [applyEdgeEnhancement] *)
Definition applyEdgeEnhancement (original result : list Z) (w h : Z)
    (intensity : R) : list Z :=
  interior_pass original w h (fun x y c =>
    let gradientX := conv3 original w x y c sobelX in
    let gradientY := conv3 original w x y c sobelY in
    let edge := sqrt (IZR (gradientX * gradientX + gradientY * gradientY)) in
    let o := rd original (pix_idx w x y c) in
    let enhanced := (IZR o + edge * intensity * (2 / 10))%R in
    to_uint8_clamp (clamp255 enhanced)) result.

Inductive SharpenMethod := Unsharp | Laplacian | EdgeEnhance.

(** [sharpenImage]: allocate [new ImageData(width, height)], copy
    [data] into it byte by byte, then run the chosen method on the copy.
    (The timing and log lines are not modelled.) *)
Definition sharpenImage (img : ImageData) (intensity : R) (method : SharpenMethod)
    : ImageData :=
  let w := width img in
  let h := height img in
  let d := data img in
  let newData :=
    for_range 0 (Z.of_nat (length d)) (fun i nd => write nd i (rd d i))
      (repeat 0 (Z.to_nat (w * h * 4))) in
  let result :=
    match method with
    | Unsharp => applyUnsharpMask d newData w h intensity
    | Laplacian => applyLaplacianSharpening d newData w h intensity
    | EdgeEnhance => applyEdgeEnhancement d newData w h intensity
    end in
  mkImageData w h result.

End Sharpen.

(* ------------------------------------------------------------------ *)
(** ** Sharpness score ([analyzeImageSharpness], [src/unnamed/part_004]) *)
(* ------------------------------------------------------------------ *)

Module Sharpness.

(** [analyzeImageSharpness]. The accumulator is [(edgeStrength, pixelCount)].
    The Sobel sums read [data[(row * width + col) * 4]], the red byte of
    each neighbour; [gray] is computed and not used afterwards.
    Both gradients are exact integers. *)
Definition analyzeImageSharpness (img : ImageData) : R :=
  let d := data img in
  let w := width img in
  let h := height img in
  let red col row := rd d ((row * w + col) * 4) in
  let '(edgeStrength, pixelCount) :=
    for_range 1 (h - 1) (fun y st =>
      for_range 1 (w - 1) (fun x st =>
        let idx := (y * w + x) * 4 in
        if rd d (idx + 3) <? 128 then st
        else
          let _gray := (299 / 1000 * IZR (rd d idx) + 587 / 1000 * IZR (rd d (idx + 1))
                        + 114 / 1000 * IZR (rd d (idx + 2)))%R in
          let gx := -1 * red (x - 1) (y - 1) + 1 * red (x + 1) (y - 1)
                    - 2 * red (x - 1) y + 2 * red (x + 1) y
                    - 1 * red (x - 1) (y + 1) + 1 * red (x + 1) (y + 1) in
          let gy := -1 * red (x - 1) (y - 1) - 2 * red x (y - 1) - 1 * red (x + 1) (y - 1)
                    + 1 * red (x - 1) (y + 1) + 2 * red x (y + 1) + 1 * red (x + 1) (y + 1) in
          let '(es, pc) := st in
          ((es + sqrt (IZR (gx * gx + gy * gy)))%R, pc + 1)) st) (0%R, 0) in
  let avgEdgeStrength := (edgeStrength / IZR pixelCount)%R in
  Rmin 100 (Rmax 0 (avgEdgeStrength / 3)).

(** The score as the spec describes it: the same Sobel average, but over
    the grayscale values [0.299 R + 0.587 G + 0.114 B] of the neighbours. *)
Definition sharpness_from_spec (img : ImageData) : R :=
  let d := data img in
  let w := width img in
  let h := height img in
  let gray col row :=
    let i := (row * w + col) * 4 in
    (299 / 1000 * IZR (rd d i) + 587 / 1000 * IZR (rd d (i + 1))
     + 114 / 1000 * IZR (rd d (i + 2)))%R in
  let '(edgeStrength, pixelCount) :=
    for_range 1 (h - 1) (fun y st =>
      for_range 1 (w - 1) (fun x st =>
        let idx := (y * w + x) * 4 in
        if rd d (idx + 3) <? 128 then st
        else
          let gx := (- gray (x - 1)%Z (y - 1)%Z + gray (x + 1)%Z (y - 1)%Z
                     - 2 * gray (x - 1)%Z y + 2 * gray (x + 1)%Z y
                     - gray (x - 1)%Z (y + 1)%Z + gray (x + 1)%Z (y + 1)%Z)%R in
          let gy := (- gray (x - 1)%Z (y - 1)%Z - 2 * gray x (y - 1)%Z - gray (x + 1)%Z (y - 1)%Z
                     + gray (x - 1)%Z (y + 1)%Z + 2 * gray x (y + 1)%Z + gray (x + 1)%Z (y + 1)%Z)%R in
          let '(es, pc) := st in
          ((es + sqrt (gx * gx + gy * gy))%R, pc + 1)) st) (0%R, 0) in
  Rmin 100 (Rmax 0 (edgeStrength / IZR pixelCount / 3)).

End Sharpness.

(* ------------------------------------------------------------------ *)
(** ** Histogram analyzer ([src/src/services/imageAnalysis.ts])         *)
(* ------------------------------------------------------------------ *)

Module Histogram.

Open Scope Q_scope.

(** [for (let i = 0; i < data.length; i += 4)] reads [data[i..i+3]];
    an [ImageData] array has a multiple of 4 bytes. *)
Fixpoint pixels_of (d : list Z) : list (Z * Z * Z * Z) :=
  match d with
  | r :: g :: b :: a :: t => (r, g, b, a) :: pixels_of t
  | _ => []
  end.

Definition qlt (a b : Q) : bool := negb (Qle_bool b a).

(** [Math.round(0.299 * r + 0.587 * g + 0.114 * b)] *)
Definition luminance (r g b : Z) : Z :=
  js_round ((299 # 1000) * inject_Z r + (587 # 1000) * inject_Z g
            + (114 # 1000) * inject_Z b).

(** [max === 0 ? 0 : (max - min) / max] *)
Definition saturation (r g b : Z) : Q :=
  let mx := Z.max r (Z.max g b) in
  let mn := Z.min r (Z.min g b) in
  if (mx =? 0)%Z then 0 else inject_Z (mx - mn) / inject_Z mx.

Record HistState := mkHistState {
  lumHist : list Z;        (** [histogram.luminance] *)
  totalLuminance : Z;
  totalSaturation : Q
}.

(** One iteration of the pixel loop. The red, green and blue histograms
    of the source are filled but never read; they are left out. *)
Definition hist_step (st : HistState) (px : Z * Z * Z * Z) : HistState :=
  let '(r, g, b, alpha) := px in
  if (alpha =? 0)%Z then st
  else
    let l := luminance r g b in
    mkHistState (alter (Z.add 1) (Z.to_nat l) (lumHist st))
                (totalLuminance st + l)%Z
                (totalSaturation st + saturation r g b).

Definition build_histogram (d : list Z) : HistState :=
  fold_left hist_step (pixels_of d) (mkHistState (repeat 0%Z 256) 0 0).

(** [for (let i = 0; i < 256; i++) { cumulative += h[i]; if (cumulative > threshold) ... break }] *)
Fixpoint scan_up (hist : list Z) (threshold : Q) (fuel : nat) (i cumulative : Z)
    : option Z :=
  match fuel with
  | O => None
  | S f =>
      let c := (cumulative + nth (Z.to_nat i) hist 0)%Z in
      if qlt threshold (inject_Z c) then Some i else scan_up hist threshold f (i + 1) c
  end.

(** [for (let i = 255; i >= 0; i--) ...] *)
Fixpoint scan_down (hist : list Z) (threshold : Q) (fuel : nat) (i cumulative : Z)
    : option Z :=
  match fuel with
  | O => None
  | S f =>
      let c := (cumulative + nth (Z.to_nat i) hist 0)%Z in
      if qlt threshold (inject_Z c) then Some i else scan_down hist threshold f (i - 1) c
  end.

Definition calculateContrastLevel (luminanceHistogram : list Z) : Q :=
  let totalPixels := fold_left Z.add luminanceHistogram 0%Z in
  let threshold := inject_Z totalPixels * (1 # 100) in
  let minSignificant := default 0%Z (scan_up luminanceHistogram threshold 256 0 0) in
  let maxSignificant := default 255%Z (scan_down luminanceHistogram threshold 256 255 0) in
  inject_Z (maxSignificant - minSignificant) / 255.

Definition calculateBrightnessAdjustment (averageLuminance : Q) : Q :=
  let difference := 128 - averageLuminance in
  Qmax (-80) (Qmin 80 (difference / 128 * 60)).

Definition calculateContrastAdjustment (contrastLevel : Q) : Q :=
  let difference := (8 # 10) - contrastLevel in
  if qlt 0 difference then Qmin 50 (difference * 100)
  else Qmax (-20) (difference * 50).

Definition calculateSaturationAdjustment (averageSaturation : Q) : Q :=
  let difference := (4 # 10) - averageSaturation in
  if qlt 0 difference then Qmin 40 (difference * 150)
  else if qlt (6 # 10) averageSaturation then Qmax (-20) (difference * 100)
  else 0.

Record ImageAnalysisResult := mkImageAnalysisResult {
  averageLuminance : Q;
  contrastLevel : Q;
  saturationLevel : Q;
  recommendedBrightness : Q;
  recommendedContrast : Q;
  recommendedSaturation : Q
}.

(** [analyzeImageHistogram]. [pixelCount] is [width * height]; the model
    is meant for non-empty images (JavaScript gives [NaN] for [0 / 0]). *)
Definition analyzeImageHistogram (img : ImageData) : ImageAnalysisResult :=
  let pixelCount := (width img * height img)%Z in
  let st := build_histogram (data img) in
  let averageLuminance := inject_Z (totalLuminance st) / inject_Z pixelCount in
  let averageSaturation := totalSaturation st / inject_Z pixelCount in
  let contrastLevel := calculateContrastLevel (lumHist st) in
  mkImageAnalysisResult averageLuminance contrastLevel averageSaturation
    (calculateBrightnessAdjustment averageLuminance)
    (calculateContrastAdjustment contrastLevel)
    (calculateSaturationAdjustment averageSaturation).

(** The statistics as the spec states them: means over the pixels with
    [alpha <> 0] only. *)
Definition opaque_pixels (d : list Z) : list (Z * Z * Z * Z) :=
  filter (fun '(_, _, _, a) => negb (a =? 0)%Z) (pixels_of d).

Definition spec_averageLuminance (img : ImageData) : Q :=
  let ps := opaque_pixels (data img) in
  inject_Z (fold_left (fun acc '(r, g, b, _) => acc + luminance r g b)%Z ps 0%Z)
  / inject_Z (Z.of_nat (length ps)).

Definition spec_saturationLevel (img : ImageData) : Q :=
  let ps := opaque_pixels (data img) in
  fold_left (fun acc '(r, g, b, _) => acc + saturation r g b) ps 0
  / inject_Z (Z.of_nat (length ps)).

End Histogram.

(* ------------------------------------------------------------------ *)
(** ** Mask-driven cropper ([src/src/services/autoCrop.ts])             *)
(* ------------------------------------------------------------------ *)

Module AutoCrop.

Open Scope Q_scope.

(** [CropBounds { x, y, width, height }] *)
Record CropBounds := mkCropBounds {
  cb_x : Q;
  cb_y : Q;
  cb_width : Q;
  cb_height : Q
}.

(** The options read by [findOptimalCropBounds]; [None] is [undefined]. *)
Record AutoCropOptions := mkAutoCropOptions {
  paddingPercentage : option Q;
  minCropSize : option Q
}.

Definition qlt (a b : Q) : bool := negb (Qle_bool b a).

(** Accumulator of the scan in [findSubjectBounds]. *)
Record SubjectScan := mkSubjectScan {
  minX : Z; maxX : Z; minY : Z; maxY : Z; subjectPixelCount : Z
}.

Definition scan_step (seg : list Z) (w x y : Z) (s : SubjectScan) : SubjectScan :=
  let index := (y * w + x)%Z in
  if bool_decide (read seg index = Some 1%Z) then
    mkSubjectScan (Z.min (minX s) x) (Z.max (maxX s) x)
                  (Z.min (minY s) y) (Z.max (maxY s) y) (subjectPixelCount s + 1)
  else s.

Definition subject_scan (seg : list Z) (w h : Z) : SubjectScan :=
  for_range 0 h (fun y s => for_range 0 w (fun x s => scan_step seg w x y s) s)
    (mkSubjectScan w 0 h 0 0).

(** [findSubjectBounds]: bounding box of the mask entries equal to 1. *)
Definition findSubjectBounds (seg : list Z) (w h : Z) : option CropBounds :=
  let s := subject_scan seg w h in
  if (subjectPixelCount s =? 0)%Z then None
  else Some (mkCropBounds (inject_Z (minX s)) (inject_Z (minY s))
               (inject_Z (maxX s - minX s + 1)) (inject_Z (maxY s - minY s + 1))).

(** [applyCropPadding] *)
Definition applyCropPadding (bounds : CropBounds) (imageWidth imageHeight : Z)
    (pp : Q) : CropBounds :=
  let paddingX := inject_Z (js_round (cb_width bounds * pp)) in
  let paddingY := inject_Z (js_round (cb_height bounds * pp)) in
  let px := Qmax 0 (cb_x bounds - paddingX) in
  let py := Qmax 0 (cb_y bounds - paddingY) in
  let pw := cb_width bounds + 2 * paddingX in
  let ph := cb_height bounds + 2 * paddingY in
  let pw := if qlt (inject_Z imageWidth) (px + pw) then inject_Z imageWidth - px else pw in
  let ph := if qlt (inject_Z imageHeight) (py + ph) then inject_Z imageHeight - py else ph in
  mkCropBounds px py pw ph.

(** [aspectRatio > 3 || aspectRatio < 0.33] with [aspectRatio = w / h]
    under JavaScript division: [w / 0] is an infinity (extreme) when
    [w <> 0], and [0 / 0] is [NaN] (no comparison holds). *)
Definition aspect_extreme (w h : Q) : bool :=
  if Qeq_bool h 0 then negb (Qeq_bool w 0)
  else qlt 3 (w / h) || qlt (w / h) (33 # 100).

(** The center-square fallback of [findOptimalCropBounds]. *)
Definition center_fallback (w h : Z) : CropBounds :=
  let cropSize := Qmin (inject_Z w) (inject_Z h) * (8 # 10) in
  mkCropBounds (inject_Z (js_round ((inject_Z w - cropSize) / 2)))
               (inject_Z (js_round ((inject_Z h - cropSize) / 2)))
               cropSize cropSize.

(** The minimum-size step of [findOptimalCropBounds]. *)
Definition ensure_min_size (bounds : CropBounds) (mcs : Q) : CropBounds :=
  if qlt (cb_width bounds) mcs || qlt (cb_height bounds) mcs then
    let scale := Qmax (mcs / cb_width bounds) (mcs / cb_height bounds) in
    let newWidth := inject_Z (js_round (cb_width bounds * scale)) in
    let newHeight := inject_Z (js_round (cb_height bounds * scale)) in
    mkCropBounds
      (Qmax 0 (cb_x bounds - inject_Z (js_round ((newWidth - cb_width bounds) / 2))))
      (Qmax 0 (cb_y bounds - inject_Z (js_round ((newHeight - cb_height bounds) / 2))))
      newWidth newHeight
  else bounds.

(** The aspect-ratio step of [findOptimalCropBounds]. *)
Definition normalize_aspect (bounds : CropBounds) : CropBounds :=
  if aspect_extreme (cb_width bounds) (cb_height bounds) then
    let targetSize := Qmin (cb_width bounds) (cb_height bounds) in
    let centerX := cb_x bounds + cb_width bounds / 2 in
    let centerY := cb_y bounds + cb_height bounds / 2 in
    mkCropBounds (Qmax 0 (inject_Z (js_round (centerX - targetSize / 2))))
                 (Qmax 0 (inject_Z (js_round (centerY - targetSize / 2))))
                 targetSize targetSize
  else bounds.

(** [findOptimalCropBounds]; the source never returns [null]. *)
Definition findOptimalCropBounds (seg : list Z) (w h : Z) (options : AutoCropOptions)
    : option CropBounds :=
  let pp := default (15 # 100) (paddingPercentage options) in
  let mcs := default 100 (minCropSize options) in
  let bounds :=
    match findSubjectBounds seg w h with
    | Some b => b
    | None => center_fallback w h
    end in
  let bounds := ensure_min_size bounds mcs in
  let bounds := applyCropPadding bounds w h pp in
  Some (normalize_aspect bounds).

(** The platform constructor [new ImageData(data, sw, sh)] (HTML
    standard): [sw] and [sh] are [[EnforceRange]] unsigned longs (a
    negative value raises); the array length must be a non-zero multiple
    of 4; [sw] must be non-zero and divide [length / 4], and [sh] must be
    the quotient. [None] is a raised exception. *)
Definition imageData_new (d : list Z) (sw sh : Z) : option ImageData :=
  let len := Z.of_nat (length d) in
  if (sw <? 0)%Z || (sh <? 0)%Z then None
  else if (len =? 0)%Z || negb (len mod 4 =? 0)%Z then None
  else if (sw =? 0)%Z || negb ((len / 4) mod sw =? 0)%Z then None
  else if negb (sh =? len / 4 / sw)%Z then None
  else Some (mkImageData sw sh d).

(** An integer-valued [CropBounds], as passed to [cropImageData]. *)
Record CropRect := mkCropRect { rx : Z; ry : Z; rwidth : Z; rheight : Z }.

(** [cropImageData]. [new Uint8ClampedArray(n)] raises for a negative
    [n]; a read outside the source array is [undefined], which a
    [Uint8ClampedArray] stores as 0. No bounds check is made. *)
Definition cropImageData (originalImageData : ImageData) (cropBounds : CropRect)
    : option ImageData :=
  let '(mkCropRect x y w h) := cropBounds in
  let originalData := data originalImageData in
  let originalWidth := width originalImageData in
  let byte i := default 0%Z (read originalData i) in
  if (w * h * 4 <? 0)%Z then None
  else
    let croppedData :=
      for_range 0 h (fun cropY d =>
        for_range 0 w (fun cropX d =>
          let originalPixelIndex := (((y + cropY) * originalWidth + (x + cropX)) * 4)%Z in
          let croppedPixelIndex := ((cropY * w + cropX) * 4)%Z in
          let d := write d croppedPixelIndex (byte originalPixelIndex) in
          let d := write d (croppedPixelIndex + 1)%Z (byte (originalPixelIndex + 1)%Z) in
          let d := write d (croppedPixelIndex + 2)%Z (byte (originalPixelIndex + 2)%Z) in
          write d (croppedPixelIndex + 3)%Z (byte (originalPixelIndex + 3)%Z)) d)
        (repeat 0%Z (Z.to_nat (w * h * 4))) in
    imageData_new croppedData w h.

(** The same [cropImageData] on the [CropBounds] that
    [findOptimalCropBounds] returns, whose fields are JavaScript numbers
    and need not be integers. *)

(** Truncation toward zero (the [IntegerPart] of WebIDL and of
    [ToIntegerOrInfinity]). *)
Definition qtrunc (q : Q) : Z := Z.quot (Qnum q) (Zpos (Qden q)).

(** [ToIndex], as [new Uint8ClampedArray(length)] applies it to its
    argument: truncation, then a [RangeError] outside [0, 2^53 - 1]. *)
Definition to_index (q : Q) : option Z :=
  let n := qtrunc q in
  if (n <? 0)%Z || (9007199254740991 <? n)%Z then None else Some n.

(** The WebIDL conversion to [[EnforceRange]] [unsigned long] of the
    [ImageData] constructor: truncation, then a [TypeError] outside
    [0, 2^32 - 1]. *)
Definition enforce_range_ulong (q : Q) : option Z :=
  let n := qtrunc q in
  if (n <? 0)%Z || (4294967295 <? n)%Z then None else Some n.

(** A number used as a typed-array index is an element index only when it
    is an integer. *)
Definition q_index (i : Q) : option Z :=
  let i := Qred i in
  if (Zpos (Qden i) =? 1)%Z then Some (Qnum i) else None.

(** [arr[i]] stored into a [Uint8ClampedArray]: [undefined] (a
    non-integer or out-of-range index) is stored as 0. *)
Definition read_q (d : list Z) (i : Q) : Z :=
  match q_index i with
  | Some n => default 0%Z (read d n)
  | None => 0%Z
  end.

(** [arr[i] = v] on a typed array: dropped at a non-integer or
    out-of-range index. *)
Definition write_q (d : list Z) (i : Q) (v : Z) : list Z :=
  match q_index i with
  | Some n => write d n v
  | None => d
  end.

(** [cropImageData(originalImageData, cropBounds)] with number fields.
    [cropY < height] holds for the integers [0 .. ceil(height) - 1], and
    likewise for [cropX]. *)
Definition cropImageData_js (originalImageData : ImageData) (cropBounds : CropBounds)
    : option ImageData :=
  let '(mkCropBounds x y w h) := cropBounds in
  let originalData := data originalImageData in
  let originalWidth := inject_Z (width originalImageData) in
  match to_index (w * h * 4) with
  | None => None
  | Some n =>
      let croppedData :=
        for_range 0 (Qceiling h) (fun cropY d =>
          for_range 0 (Qceiling w) (fun cropX d =>
            let cy := inject_Z cropY in
            let cx := inject_Z cropX in
            let originalPixelIndex := ((y + cy) * originalWidth + (x + cx)) * 4 in
            let croppedPixelIndex := (cy * w + cx) * 4 in
            let d := write_q d croppedPixelIndex (read_q originalData originalPixelIndex) in
            let d := write_q d (croppedPixelIndex + 1) (read_q originalData (originalPixelIndex + 1)) in
            let d := write_q d (croppedPixelIndex + 2) (read_q originalData (originalPixelIndex + 2)) in
            write_q d (croppedPixelIndex + 3) (read_q originalData (originalPixelIndex + 3))) d)
          (repeat 0%Z (Z.to_nat n)) in
      match enforce_range_ulong w, enforce_range_ulong h with
      | Some sw, Some sh => imageData_new croppedData sw sh
      | _, _ => None
      end
  end.

End AutoCrop.

(* ------------------------------------------------------------------ *)
(** ** Palette sampling and its gate ([src/src/services/colorAnalysis.ts]) *)
(* ------------------------------------------------------------------ *)

Module Palette.

Open Scope Q_scope.

Record ColorRGB := mkColorRGB { r : Z; g : Z; b : Z }.

Definition qlt (a b : Q) : bool := negb (Qle_bool b a).

(** [rgbToHsl]: [[h * 360, s * 100, l * 100]]. *)
Definition rgbToHsl (r0 g0 b0 : Z) : Q * Q * Q :=
  let r := inject_Z r0 / 255 in
  let g := inject_Z g0 / 255 in
  let b := inject_Z b0 / 255 in
  let mx := Qmax r (Qmax g b) in
  let mn := Qmin r (Qmin g b) in
  let l := (mx + mn) / 2 in
  let '(h, s) :=
    if Qeq_bool mx mn then (0, 0)
    else
      let d := mx - mn in
      let s := if qlt (1 # 2) l then d / (2 - mx - mn) else d / (mx + mn) in
      let h :=
        if Qeq_bool mx r then (g - b) / d + (if qlt g b then 6 else 0)
        else if Qeq_bool mx g then (b - r) / d + 2
        else (r - g) / d + 4 in
      (h / 6, s) in
  (h * 360, s * 100, l * 100).

Definition lightness (r0 g0 b0 : Z) : Q := snd (rgbToHsl r0 g0 b0).

(** [Math.max(1, Math.floor(totalPixels / maxSamples))]; [None] when the
    value is not finite ([x / 0] is an infinity, [0 / 0] is [NaN]): the
    loop index then leaves the array after the first iteration. *)
Definition samplingInterval (totalPixels maxSamples : Z) : option Z :=
  if (maxSamples =? 0)%Z then
    if (totalPixels <? 0)%Z then Some 1%Z else None
  else Some (Z.max 1 (totalPixels / maxSamples)).

(** Body and continuation of
    [for (let i = 0; i < data.length; i += samplingInterval * 4)];
    [fuel] bounds the number of iterations. The reads [data[i .. i+3]] are
    in range when [data.length] is a multiple of 4, as for an [ImageData]. *)
Fixpoint sample_loop (d : list Z) (interval : option Z) (fuel : nat) (i : Z)
    : list ColorRGB :=
  match fuel with
  | O => []
  | S f =>
      if (i <? Z.of_nat (length d))%Z then
        let rest :=
          match interval with
          | Some s => sample_loop d interval f (i + s * 4)
          | None => []
          end in
        let alpha := rd d (i + 3) in
        if (alpha <? 128)%Z then rest
        else
          let r := rd d i in
          let g := rd d (i + 1) in
          let b := rd d (i + 2) in
          let l := lightness r g b in
          if qlt l 5 || qlt 95 l then rest
          else mkColorRGB r g b :: rest
      else []
  end.

(** [samplePixels]; the loop runs at most [data.length + 1] times. *)
Definition samplePixels (img : ImageData) (maxSamples : Z) : list ColorRGB :=
  let totalPixels := (width img * height img)%Z in
  sample_loop (data img) (samplingInterval totalPixels maxSamples)
    (S (length (data img))) 0.

Inductive PaletteOutcome :=
  | Palette (colors : list ColorRGB) (totalPixelsAnalyzed : Z)
  | InsufficientSamples (found k : Z)   (** [throw new Error('Not enough valid pixels ...')] *)
  | OtherError.                         (** any other exception *)

Section Extract.

(** The clustering after the gate (K-means++ seeding, iterations, sorting
    by vibrancy) draws on [Math.random]; it is a parameter here, returning
    the final colours, or [None] if it raises. It contains no [throw]. *)
Variable kmeans_phase : list ColorRGB -> Z -> Z -> option (list ColorRGB).

(** [extractColorPalette]: sample, gate on [pixels.length < k], cluster. *)
Definition extractColorPalette (img : ImageData) (k maxIterations maxSamples : Z)
    : PaletteOutcome :=
  let pixels := samplePixels img maxSamples in
  let n := Z.of_nat (length pixels) in
  if (n <? k)%Z then InsufficientSamples n k
  else
    match kmeans_phase pixels k maxIterations with
    | Some colors => Palette colors n
    | None => OtherError
    end.

End Extract.

(** The working set as the spec describes it: the pixels at positions
    [0, s, 2 s, ...] for the stride [s] (only the first pixel when the
    stride is not finite), without those with [alpha < 128] or with
    lightness below 5 or above 95. *)
Definition spec_keep (p : Z * Z * Z * Z) : bool :=
  let '(r, g, b, a) := p in
  (128 <=? a)%Z && negb (qlt (lightness r g b) 5 || qlt 95 (lightness r g b)).

Definition pixel_color (p : Z * Z * Z * Z) : ColorRGB :=
  let '(r, g, b, _) := p in mkColorRGB r g b.

(** The pixel positions [j, j + s, j + 2 s, ...] below [n]. *)
Definition stride_positions (n s j : nat) : list nat :=
  map (fun t => j + t * s)%nat (seq 0 ((n - j + s - 1) / s)).

Definition working_set (img : ImageData) (maxSamples : Z) : list ColorRGB :=
  let ps := Histogram.pixels_of (data img) in
  let n := length ps in
  let positions :=
    match samplingInterval (width img * height img) maxSamples with
    | Some s => stride_positions n (Z.to_nat s) 0
    | None => firstn 1 (seq 0 n)
    end in
  map pixel_color (filter spec_keep (map (fun j => nth j ps (0, 0, 0, 0)%Z) positions)).

End Palette.

(* ------------------------------------------------------------------ *)
(** ** Palette clustering ([src/src/services/colorAnalysis.ts])         *)
(* ------------------------------------------------------------------ *)

Module KMeans.

Import Palette.
Open Scope Z_scope.

(** [Math.random] is the stream [rnd]: its [n]-th call returns [rnd n].
    The functions that call it thread the number of calls made so far.
    A raised exception is [None]; an array slot holding [undefined] is a
    [None] of [option ColorRGB]. *)

(** The radicand [dr*dr + dg*dg + db*db] of [colorDistance]. *)
Definition sq_distance (c1 c2 : ColorRGB) : Z :=
  let dr := r c1 - r c2 in
  let dg := g c1 - g c2 in
  let db := b c1 - b c2 in
  dr * dr + dg * dg + db * db.

(** [colorDistance]. The distance [Math.sqrt(n)] of two colours with
    integer channels is represented by its radicand [n]: [Math.sqrt] is
    strictly increasing on [n >= 0], so every comparison the code makes
    between distances ([<], [Math.min], [> threshold] with threshold 1) is
    the same comparison of radicands, and [minDistance * minDistance] is
    the radicand. Reading [.r] of [undefined] raises. *)
Definition colorDistance (c1 c2 : option ColorRGB) : option Z :=
  match c1, c2 with
  | Some c1, Some c2 => Some (sq_distance c1 c2)
  | _, _ => None
  end.

(** [pixels[Math.floor(u * pixels.length)]] *)
Definition random_pixel (pixels : list ColorRGB) (u : Q) : option ColorRGB :=
  let i := Qfloor (u * inject_Z (Z.of_nat (length pixels)))%Q in
  if i <? 0 then None else nth_error pixels (Z.to_nat i).

(** The squared distance from [pixel] to its nearest centroid:
    [Math.min] folded over the centroids from [Infinity]. The centroids
    are never empty there (the first one is pushed before the loop), so
    the fold is written from the first centroid [c0]. *)
Definition nearest_sq (pixel : ColorRGB) (c0 : option ColorRGB)
    (cs : list (option ColorRGB)) : option Z :=
  fold_left (fun acc c =>
      match acc, colorDistance (Some pixel) c with
      | Some m, Some d => Some (Z.min m d)
      | _, _ => None
      end) cs (colorDistance (Some pixel) c0).

(** [for (let j = 0; j < pixels.length; j++) { cumulativeDistance +=
    distances[j]; if (cumulativeDistance >= randomValue) { push(pixels[j]);
    break; } }]: the pixel pushed, or [None] if the loop ends without a
    push. *)
Fixpoint choose_weighted (pixels : list ColorRGB) (distances : list Z)
    (randomValue : Q) (cumulative : Z) : option ColorRGB :=
  match pixels, distances with
  | p :: ps, dj :: ds =>
      let cumulative := cumulative + dj in
      if Qle_bool randomValue (inject_Z cumulative) then Some p
      else choose_weighted ps ds randomValue cumulative
  | _, _ => None
  end.

(** One iteration [i] of the K-means++ loop of [initializeCentroids]; the
    centroids are [c0 :: cs], [n] counts the calls to [Math.random]. *)
Definition init_step (rnd : nat -> Q) (pixels : list ColorRGB)
    (st : option ColorRGB * list (option ColorRGB) * nat)
    : option (option ColorRGB * list (option ColorRGB) * nat) :=
  let '(c0, cs, n) := st in
  match mapM (fun p => nearest_sq p c0 cs) pixels with
  | None => None
  | Some distances =>
      let totalDistance := fold_left Z.add distances 0 in
      let randomValue := (rnd n * inject_Z totalDistance)%Q in
      match choose_weighted pixels distances randomValue 0 with
      | Some p => Some (c0, cs ++ [Some p], S n)
      | None => Some (c0, cs, S n)
      end
  end.

(** [initializeCentroids(pixels, k)], from the [n]-th call of
    [Math.random] on; returns the centroids and the next call number. *)
Definition initializeCentroids (rnd : nat -> Q) (pixels : list ColorRGB) (k : Z)
    (n : nat) : option (list (option ColorRGB) * nat) :=
  let c0 := random_pixel pixels (rnd n) in
  match for_range 1 k (fun _ st => match st with
                                   | Some st => init_step rnd pixels st
                                   | None => None
                                   end) (Some (c0, [], S n)) with
  | Some (c0, cs, n') => Some (c0 :: cs, n')
  | None => None
  end.

(** [distance < minDistance], [minDistance] being [None] for [Infinity]. *)
Definition lt_min (d : Z) (minDistance : option Z) : bool :=
  match minDistance with
  | None => true
  | Some m => d <? m
  end.

(** The [centroids.forEach] loop of [assignPixelsToClusters] for one
    pixel, from [index] on. *)
Fixpoint assign_loop (pixel : ColorRGB) (cs : list (option ColorRGB)) (index : Z)
    (minDistance : option Z) (clusterIndex : Z) : option Z :=
  match cs with
  | [] => Some clusterIndex
  | c :: cs' =>
      match colorDistance (Some pixel) c with
      | None => None
      | Some d =>
          if lt_min d minDistance
          then assign_loop pixel cs' (index + 1) (Some d) index
          else assign_loop pixel cs' (index + 1) minDistance clusterIndex
      end
  end.

(** [assignPixelsToClusters] *)
Definition assignPixelsToClusters (pixels : list ColorRGB)
    (centroids : list (option ColorRGB)) : option (list Z) :=
  mapM (fun p => assign_loop p centroids 0 None 0) pixels.

(** [pixels.filter((_, index) => assignments[index] === i)] *)
Fixpoint cluster_of (pixels : list ColorRGB) (assignments : list Z) (i : Z)
    : list ColorRGB :=
  match pixels with
  | [] => []
  | p :: ps =>
      let rest := cluster_of ps (tail assignments) i in
      match head assignments with
      | Some a => if a =? i then p :: rest else rest
      | None => rest
      end
  end.

(** [Math.round(cluster.reduce((sum, pixel) => sum + pixel.f, 0) / cluster.length)] *)
Definition channel_mean (f : ColorRGB -> Z) (cluster : list ColorRGB) : Z :=
  js_round (inject_Z (fold_left (fun s p => s + f p)%Z cluster 0%Z)
            / inject_Z (Z.of_nat (length cluster)))%Q.

(** One iteration [i] of [updateCentroids]. *)
Definition update_step (rnd : nat -> Q) (pixels : list ColorRGB) (assignments : list Z)
    (i : Z) (st : list (option ColorRGB) * nat) : list (option ColorRGB) * nat :=
  let '(newCentroids, n) := st in
  match cluster_of pixels assignments i with
  | [] => (newCentroids ++ [random_pixel pixels (rnd n)], S n)
  | clusterPixels =>
      (newCentroids ++ [Some (mkColorRGB (channel_mean r clusterPixels)
                                         (channel_mean g clusterPixels)
                                         (channel_mean b clusterPixels))], n)
  end.

(** [updateCentroids(pixels, assignments, k)] *)
Definition updateCentroids (rnd : nat -> Q) (pixels : list ColorRGB)
    (assignments : list Z) (k : Z) (n : nat) : list (option ColorRGB) * nat :=
  for_range 0 k (update_step rnd pixels assignments) ([], n).

(** [centroidsConverged(oldCentroids, newCentroids)] with the default
    threshold 1; [newCentroids[i]] past its end is [undefined]. *)
Fixpoint centroidsConverged (oldCentroids newCentroids : list (option ColorRGB))
    : option bool :=
  match oldCentroids with
  | [] => Some true
  | o :: old' =>
      match colorDistance o (default None (head newCentroids)) with
      | None => None
      | Some d => if 1 <? d then Some false else centroidsConverged old' (tail newCentroids)
      end
  end.

(** The iteration loop of [extractColorPalette], [fuel] iterations left. *)
Fixpoint kmeans_loop (rnd : nat -> Q) (pixels : list ColorRGB) (k : Z) (fuel : nat)
    (centroids : list (option ColorRGB)) (n : nat)
    : option (list (option ColorRGB) * nat) :=
  match fuel with
  | O => Some (centroids, n)
  | S f =>
      match assignPixelsToClusters pixels centroids with
      | None => None
      | Some assignments =>
          let '(newCentroids, n') := updateCentroids rnd pixels assignments k n in
          match centroidsConverged centroids newCentroids with
          | None => None
          | Some true => Some (newCentroids, n')
          | Some false => kmeans_loop rnd pixels k f newCentroids n'
          end
      end
  end.

(** The sort key of [sortColorsByVibrancy]. *)
Definition vibrancy (c : ColorRGB) : Q :=
  let '(_, sat, light) := rgbToHsl (r c) (g c) (b c) in
  (sat * (1 - Qabs (light - 50) / 50))%Q.

(** Insertion of [c] after the colours of vibrancy at least its own. *)
Fixpoint insert_by_vibrancy (c : ColorRGB) (l : list ColorRGB) : list ColorRGB :=
  match l with
  | [] => [c]
  | c' :: l' => if qlt (vibrancy c') (vibrancy c) then c :: l
                else c' :: insert_by_vibrancy c l'
  end.

Definition sort_by_vibrancy (l : list ColorRGB) : list ColorRGB :=
  fold_left (fun acc c => insert_by_vibrancy c acc) l [].

(** [colors.sort((a, b) => vibrancyB - vibrancyA)]. The comparator is
    consistent (a difference of keys), so the stable sort that
    [Array.prototype.sort] is gives the one order that is non-increasing in
    vibrancy and keeps ties in input order; [undefined] entries are not
    passed to the comparator and go last. *)
Definition sortColorsByVibrancy (colors : list (option ColorRGB)) : list (option ColorRGB) :=
  map Some (sort_by_vibrancy (omap (fun c => c) colors)) ++ filter (fun c => c = None) colors.

(** The clustering phase of [extractColorPalette] after the gate: seeding,
    at most [maxIterations] iterations, the sort, and the log line, whose
    [rgbToHex(color.r, ...)] raises on an [undefined] colour. *)
Definition kmeans_phase (rnd : nat -> Q) (pixels : list ColorRGB) (k maxIterations : Z)
    : option (list ColorRGB) :=
  match initializeCentroids rnd pixels k 0 with
  | None => None
  | Some (centroids, n) =>
      match kmeans_loop rnd pixels k (Z.to_nat maxIterations) centroids n with
      | None => None
      | Some (centroids, _) => mapM (fun c => c) (sortColorsByVibrancy centroids)
      end
  end.

End KMeans.

(* ------------------------------------------------------------------ *)
(** ** Colour names and hex codes ([src/src/services/colorAnalysis.ts]) *)
(* ------------------------------------------------------------------ *)

Module ColorNames.

Import String Ascii.
Open Scope Q_scope.

(** [getColorName] *)
Definition getColorName (r0 g0 b0 : Z) : string :=
  let '(hue, saturation, lightness) := Palette.rgbToHsl r0 g0 b0 in
  if Palette.qlt saturation 10 then
    if Palette.qlt lightness 20 then "Dark Gray"
    else if Palette.qlt lightness 40 then "Gray"
    else if Palette.qlt lightness 60 then "Light Gray"
    else if Palette.qlt lightness 80 then "Silver"
    else "White"
  else if Palette.qlt lightness 20 then "Dark"
  else if Palette.qlt 80 lightness then "Light"
  else if Palette.qlt hue 15 || negb (Palette.qlt hue 345) then "Red"
  else if Palette.qlt hue 45 then "Orange"
  else if Palette.qlt hue 75 then "Yellow"
  else if Palette.qlt hue 105 then "Yellow Green"
  else if Palette.qlt hue 135 then "Green"
  else if Palette.qlt hue 165 then "Teal"
  else if Palette.qlt hue 195 then "Cyan"
  else if Palette.qlt hue 225 then "Blue"
  else if Palette.qlt hue 255 then "Purple"
  else if Palette.qlt hue 285 then "Magenta"
  else if Palette.qlt hue 315 then "Pink"
  else "Red".

(** The lowercase hexadecimal digit of [0 <= d < 16]. *)
Definition hex_char (d : Z) : ascii :=
  ascii_of_nat (Z.to_nat (if (d <? 10)%Z then 48 + d else 87 + d)%Z).

(** The hexadecimal digits of [m >= 0], prepended to [acc]. *)
Fixpoint hex_digits (fuel : nat) (m : Z) (acc : string) : string :=
  match fuel with
  | O => acc
  | S f =>
      let acc := String (hex_char (m mod 16)) acc in
      if (m <? 16)%Z then acc else hex_digits f (m / 16) acc
  end.

(** [Number.prototype.toString(16)] on an integer; [m] has at most
    [log2 m + 1] digits. *)
Definition to_string16 (m : Z) : string :=
  let digits n := hex_digits (S (Z.to_nat (Z.log2 n))) n EmptyString in
  if (m <? 0)%Z then String "-" (digits (- m)%Z) else digits m.

(** [toHex] *)
Definition toHex (n : Q) : string :=
  let hex := to_string16 (js_round n) in
  if (String.length hex =? 1)%nat then String "0" hex else hex.

(** [rgbToHex] *)
Definition rgbToHex (r g b : Q) : string :=
  String "#" (toHex r ++ toHex g ++ toHex b).

End ColorNames.

(** Sums used to reason about the histogram scans:
    [rsum H a n = H a + H (a+1) + ... + H (a+n-1)] and
    [rsum_down H a n = H a + H (a-1) + ... + H (a-n+1)]. *)
Fixpoint rsum (H : Z -> Z) (a : Z) (n : nat) : Z :=
  match n with
  | O => 0
  | S n' => H a + rsum H (a + 1) n'
  end.

Fixpoint rsum_down (H : Z -> Z) (a : Z) (n : nat) : Z :=
  match n with
  | O => 0
  | S n' => H a + rsum_down H (a - 1) n'
  end.

(** The foreground of a mask is the rectangle [x0, x0+w0) x [y0, y0+h0). *)
Definition in_rect (x0 y0 w0 h0 x y : Z) : Prop :=
  x0 <= x < x0 + w0 /\ y0 <= y < y0 + h0.

(** Invariant of the scan of [findSubjectBounds] over such a mask, once the
    positions [D] have been visited. *)
Definition rect_scan_inv (x0 y0 w0 h0 : Z) (D : Z -> Z -> Prop)
    (s : AutoCrop.SubjectScan) : Prop :=
  x0 <= AutoCrop.minX s /\ AutoCrop.maxX s <= x0 + w0 - 1 /\
  y0 <= AutoCrop.minY s /\ AutoCrop.maxY s <= y0 + h0 - 1 /\
  0 <= AutoCrop.subjectPixelCount s /\
  forall x y, in_rect x0 y0 w0 h0 x y -> D x y ->
    AutoCrop.minX s <= x <= AutoCrop.maxX s /\ AutoCrop.minY s <= y <= AutoCrop.maxY s /\
    0 < AutoCrop.subjectPixelCount s.

(** A rational that is an integer. *)
Definition integral (q : Q) : Prop := exists n, (q == inject_Z n)%Q.

(** The Rectangle invariant of the spec: inside the image, integral origin. *)
Definition within_image (W H : Z) (b : AutoCrop.CropBounds) : Prop :=
  (0 <= AutoCrop.cb_x b /\ 0 <= AutoCrop.cb_y b /\
   AutoCrop.cb_x b + AutoCrop.cb_width b <= inject_Z W /\
   AutoCrop.cb_y b + AutoCrop.cb_height b <= inject_Z H)%Q /\
  integral (AutoCrop.cb_x b) /\ integral (AutoCrop.cb_y b).

(** Every channel of every pixel is a byte. *)
Definition byte_list (d : list Z) : Prop := Forall (fun v => 0 <= v <= 255) d.

(** Every channel of an RGBA pixel is a byte. *)
Definition byte_pixel (p : Z * Z * Z * Z) : Prop :=
  let '(r, g, b, a) := p in 0 <= r <= 255 /\ 0 <= g <= 255 /\ 0 <= b <= 255 /\ 0 <= a <= 255.

(** Position [(x, y)] of a [W x H] mask is inside the image and holds 1. *)
Definition mask_hit (seg : list Z) (W H x y : Z) : Prop :=
  0 <= x < W /\ 0 <= y < H /\ read seg (y * W + x) = Some 1.

(** Invariant of the scan of [findSubjectBounds] once the positions [D]
    have been visited: either no hit yet and the initial extrema, or a
    positive count and extrema that bound every visited hit and are
    reached by visited hits. *)
Definition bbox_scan_inv (seg : list Z) (W H : Z) (D : Z -> Z -> Prop)
    (s : AutoCrop.SubjectScan) : Prop :=
  (AutoCrop.subjectPixelCount s = 0 /\ AutoCrop.minX s = W /\ AutoCrop.maxX s = 0 /\
   AutoCrop.minY s = H /\ AutoCrop.maxY s = 0 /\
   forall x y, D x y -> ~ mask_hit seg W H x y) \/
  (0 < AutoCrop.subjectPixelCount s /\
   (forall x y, D x y -> mask_hit seg W H x y ->
      AutoCrop.minX s <= x <= AutoCrop.maxX s /\ AutoCrop.minY s <= y <= AutoCrop.maxY s) /\
   (exists y, D (AutoCrop.minX s) y /\ mask_hit seg W H (AutoCrop.minX s) y) /\
   (exists y, D (AutoCrop.maxX s) y /\ mask_hit seg W H (AutoCrop.maxX s) y) /\
   (exists x, D x (AutoCrop.minY s) /\ mask_hit seg W H x (AutoCrop.minY s)) /\
   (exists x, D x (AutoCrop.maxY s) /\ mask_hit seg W H x (AutoCrop.maxY s))).

(** A colour whose three channels are bytes. *)
Definition byte_color (c : Palette.ColorRGB) : Prop :=
  0 <= Palette.r c <= 255 /\ 0 <= Palette.g c <= 255 /\ 0 <= Palette.b c <= 255.

(** [a] is at least as vibrant as [c]. *)
Definition vib_ge (a c : Palette.ColorRGB) : Prop :=
  (KMeans.vibrancy c <= KMeans.vibrancy a)%Q.

(** [j] indexes a centroid of [cs] nearest to [p], and no centroid of
    smaller index is as near. *)
Definition nearest_index (cs : list Palette.ColorRGB) (p : Palette.ColorRGB) (j : Z) : Prop :=
  0 <= j /\ exists c, cs !! Z.to_nat j = Some c /\
    forall i c', cs !! i = Some c' ->
      KMeans.sq_distance p c <= KMeans.sq_distance p c' /\
      (Z.of_nat i < j -> KMeans.sq_distance p c < KMeans.sq_distance p c').

(* ================================================================== *)
(** * Proofs                                                            *)
(* ================================================================== *)

(** Linear arithmetic over [Q] ([lra] itself is the one over [R] here). *)
Ltac qlra := Lqa.lra.

(** ** Loops and typed arrays *)

Lemma for_range_ind {St : Type} (P : Z -> St -> Prop) (lo hi : Z) (f : Z -> St -> St) (s : St) :
  P lo s ->
  (forall i s', lo <= i < hi -> P i s' -> P (i + 1) (f i s')) ->
  P (Z.max lo hi) (for_range lo hi f s).
Proof.
  intros H0 Hstep. unfold for_range.
  assert (Hgen : forall n k s',
             (k + n = Z.to_nat (hi - lo))%nat ->
             P (lo + Z.of_nat k) s' ->
             P (lo + Z.of_nat (k + n))
               (fold_left (fun acc k0 => f (lo + Z.of_nat k0) acc) (seq k n) s')).
  { induction n as [|n IH]; intros k s' Hk Hp; simpl.
    - rewrite Nat.add_0_r. exact Hp.
    - replace (k + S n)%nat with (S k + n)%nat by lia.
      apply IH; [lia|].
      replace (lo + Z.of_nat (S k)) with (lo + Z.of_nat k + 1) by lia.
      apply Hstep; [lia | exact Hp]. }
  replace (Z.max lo hi) with (lo + Z.of_nat (0 + Z.to_nat (hi - lo))) by lia.
  apply Hgen; [lia|]. replace (lo + Z.of_nat 0) with lo by lia. exact H0.
Qed.

Lemma for_range_preserve {St : Type} (P : St -> Prop) (lo hi : Z) (f : Z -> St -> St) (s : St) :
  P s -> (forall i s', lo <= i < hi -> P s' -> P (f i s')) -> P (for_range lo hi f s).
Proof.
  intros H0 Hstep.
  apply (for_range_ind (fun _ s' => P s')); auto.
Qed.

Lemma for_range_empty {St : Type} (lo hi : Z) (f : Z -> St -> St) (s : St) :
  hi <= lo -> for_range lo hi f s = s.
Proof.
  intros H. unfold for_range. replace (Z.to_nat (hi - lo)) with 0%nat by lia. reflexivity.
Qed.

Lemma for_range_id {St : Type} (lo hi : Z) (f : Z -> St -> St) (s : St) :
  (forall i s', f i s' = s') -> for_range lo hi f s = s.
Proof.
  intros Hid. unfold for_range. generalize (seq 0 (Z.to_nat (hi - lo))) as l.
  induction l as [|k l IH]; simpl; [reflexivity|]. rewrite Hid. exact IH.
Qed.

Lemma length_write (d : list Z) (j v : Z) : length (write d j v) = length d.
Proof. unfold write. destruct (j <? 0); [reflexivity | apply length_insert]. Qed.

Lemma read_write_ne (d : list Z) (i j v : Z) : i <> j -> read (write d j v) i = read d i.
Proof.
  intros Hne. unfold read, write.
  destruct (j <? 0) eqn:Hj; [reflexivity|].
  destruct (i <? 0) eqn:Hi; [reflexivity|].
  apply Z.ltb_ge in Hi, Hj.
  apply list_lookup_insert_ne. intros Heq. apply Hne. lia.
Qed.

Lemma read_in_range (d : list Z) (i : Z) :
  0 <= i < Z.of_nat (length d) -> read d i = Some (rd d i).
Proof.
  intros Hi. unfold rd, read.
  destruct (i <? 0) eqn:Hn; [lia|].
  destruct (d !! Z.to_nat i) eqn:Hl; [reflexivity|].
  apply lookup_ge_None_1 in Hl. lia.
Qed.

Lemma read_out_of_range (d : list Z) (i : Z) :
  ~ (0 <= i < Z.of_nat (length d)) -> read d i = None.
Proof.
  intros Hi. unfold read.
  destruct (i <? 0) eqn:Hn; [reflexivity|].
  apply lookup_ge_None_2. lia.
Qed.

Lemma read_write_eq (d : list Z) (i v : Z) :
  0 <= i < Z.of_nat (length d) -> read (write d i v) i = Some v.
Proof.
  intros Hi. unfold read, write.
  destruct (i <? 0) eqn:Hn; [lia|].
  apply list_lookup_insert_eq. lia.
Qed.

(** Writing [o[j]] at [j] into an array as long as [o]: [o] is read back. *)
Lemma read_write_rd (r o : list Z) (j : Z) :
  length r = length o -> read (write r j (rd o j)) j = read o j.
Proof.
  intros Hlen.
  destruct (decide (0 <= j < Z.of_nat (length r))) as [Hin|Hout].
  - rewrite read_write_eq by exact Hin. symmetry. apply read_in_range. lia.
  - rewrite (read_out_of_range o j) by lia.
    apply read_out_of_range. rewrite length_write. exact Hout.
Qed.

(** Distinct pixels, or distinct channels, have distinct flat indices. *)
Lemma pix_idx_inj (w x y c x' y' c' : Z) :
  0 <= x < w -> 0 <= x' < w -> 0 <= c < 4 -> 0 <= c' < 4 ->
  pix_idx w x y c = pix_idx w x' y' c' -> x = x' /\ y = y' /\ c = c'.
Proof.
  unfold pix_idx. intros Hx Hx' Hc Hc' Heq.
  assert (Hrow : y * w + x = y' * w + x' /\ c = c').
  { set (A := y * w + x) in *. set (B := y' * w + x') in *. lia. }
  destruct Hrow as [Hrow ->].
  assert (y = y') by nia. subst y'. repeat split; lia.
Qed.

Lemma pix_idx_not_alpha (w x y c p : Z) : 0 <= c < 3 -> pix_idx w x y c <> p * 4 + 3.
Proof. unfold pix_idx. intros Hc. set (A := y * w + x). lia. Qed.

(** ** Sharpening: the frame of the interior pass *)

Section InteriorPass.

Variables (original : list Z) (w h : Z) (value : Z -> Z -> Z -> Z).

(** A byte that is either on the 1-pixel border or an alpha byte keeps the
    value of [original] through [interior_pass], when it had it before. *)
Lemma interior_pass_keeps (r0 : list Z) (i : Z) :
  length r0 = length original ->
  ((exists px py c, 0 <= px < w /\ 0 <= py < h /\ 0 <= c < 4 /\
      (px = 0 \/ px = w - 1 \/ py = 0 \/ py = h - 1) /\ i = pix_idx w px py c)
   \/ (exists p, i = p * 4 + 3)) ->
  read r0 i = read original i ->
  read (Sharpen.interior_pass original w h value r0) i = read original i.
Proof.
  intros Hlen Hi Hr0.
  set (P := fun r : list Z => length r = length original /\ read r i = read original i).
  enough (HP : P (Sharpen.interior_pass original w h value r0)) by apply HP.
  unfold Sharpen.interior_pass.
  apply for_range_preserve; [split; assumption|].
  intros y r Hy Hr.
  apply for_range_preserve; [exact Hr|].
  intros x r1 Hx Hr1. cbv zeta.
  assert (Hrgb : P (for_range 0 3 (fun c r2 => write r2 (pix_idx w x y c) (value x y c)) r1)).
  { apply for_range_preserve; [exact Hr1|].
    intros c r2 Hc [Hl2 Hv2]. split.
    - rewrite length_write. exact Hl2.
    - rewrite read_write_ne; [exact Hv2|].
      intros ->. destruct Hi as [(px & py & c' & Hpx & Hpy & Hc' & Hb & Heq) | (p & Heq)].
      + apply pix_idx_inj in Heq; [|lia|lia|lia|lia]. lia.
      + apply (pix_idx_not_alpha w x y c p); [lia | exact Heq]. }
  destruct Hrgb as [Hl2 Hv2]. split.
  - rewrite length_write. exact Hl2.
  - destruct (decide (i = pix_idx w x y 3)) as [->|Hne].
    + apply read_write_rd. exact Hl2.
    + rewrite read_write_ne by exact Hne. exact Hv2.
Qed.

Lemma interior_pass_length (r0 : list Z) :
  length (Sharpen.interior_pass original w h value r0) = length r0.
Proof.
  unfold Sharpen.interior_pass.
  apply (for_range_preserve (fun r => length r = length r0)); [reflexivity|].
  intros y r Hy Hr. apply for_range_preserve; [exact Hr|].
  intros x r1 Hx Hr1. cbv zeta. rewrite length_write.
  apply for_range_preserve; [exact Hr1|].
  intros c r2 Hc Hr2. rewrite length_write. exact Hr2.
Qed.

(** With fewer than 3 columns or rows the loops never run. *)
Lemma interior_pass_small (r0 : list Z) :
  w < 3 \/ h < 3 -> Sharpen.interior_pass original w h value r0 = r0.
Proof.
  intros [Hw|Hh]; unfold Sharpen.interior_pass.
  - apply for_range_id. intros y r. apply for_range_empty. lia.
  - apply for_range_empty. lia.
Qed.

End InteriorPass.

(** The byte-by-byte copy into a fresh [ImageData] of the same size is the
    source array. *)
Lemma copy_loop_eq (d : list Z) (n : nat) :
  length d = n ->
  for_range 0 (Z.of_nat (length d)) (fun i nd => write nd i (rd d i)) (repeat 0 n) = d.
Proof.
  intros Hn.
  set (P := fun (k : Z) (nd : list Z) =>
              length nd = length d /\ forall j, 0 <= j < k -> read nd j = read d j).
  assert (Hp : P (Z.max 0 (Z.of_nat (length d)))
                 (for_range 0 (Z.of_nat (length d)) (fun i nd => write nd i (rd d i))
                    (repeat 0 n))).
  { apply for_range_ind.
    - split; [rewrite repeat_length; lia | intros j Hj; lia].
    - intros i nd Hi [Hl Hv]. split; [rewrite length_write; exact Hl|].
      intros j Hj. destruct (decide (j = i)) as [->|Hne].
      + rewrite read_write_eq by lia. symmetry. apply read_in_range. lia.
      + rewrite read_write_ne by exact Hne. apply Hv. lia. }
  destruct Hp as [Hl Hv].
  apply list_eq. intros k.
  destruct (decide (k < length d)%nat) as [Hk|Hk].
  - specialize (Hv (Z.of_nat k) ltac:(lia)). unfold read in Hv.
    destruct (Z.of_nat k <? 0) eqn:E; [lia|]. rewrite Nat2Z.id in Hv. exact Hv.
  - rewrite !lookup_ge_None_2 by lia. reflexivity.
Qed.

(** [sharpenImage] starts from an exact copy of the input. *)
Lemma sharpen_copy_is_source (img : ImageData) :
  Z.of_nat (length (data img)) = width img * height img * 4 ->
  for_range 0 (Z.of_nat (length (data img))) (fun i nd => write nd i (rd (data img) i))
    (repeat 0 (Z.to_nat (width img * height img * 4))) = data img.
Proof. intros H. apply copy_loop_eq. lia. Qed.

(** Each method is an [interior_pass] over the copy. *)
Lemma sharpen_as_interior_pass (img : ImageData) (intensity : R) (m : Sharpen.SharpenMethod) :
  exists value,
    Sharpen.sharpenImage img intensity m =
    mkImageData (width img) (height img)
      (Sharpen.interior_pass (data img) (width img) (height img) value
         (for_range 0 (Z.of_nat (length (data img)))
            (fun i nd => write nd i (rd (data img) i))
            (repeat 0 (Z.to_nat (width img * height img * 4))))).
Proof.
  destruct m; unfold Sharpen.sharpenImage; cbv zeta.
  - unfold Sharpen.applyUnsharpMask. eexists. reflexivity.
  - unfold Sharpen.applyLaplacianSharpening. eexists. reflexivity.
  - unfold Sharpen.applyEdgeEnhancement. eexists. reflexivity.
Qed.

(** C5: for every intensity and each of the three methods, every byte of
    a border pixel ([x = 0], [x = width-1], [y = 0] or [y = height-1]) of
    the output equals the input byte; with width < 3 or height < 3 the
    output is the input unchanged. *)
Theorem sharpen_border_preserved (img : ImageData) (intensity : R)
    (method : Sharpen.SharpenMethod) :
  Z.of_nat (length (data img)) = width img * height img * 4 ->
  (forall px py c,
      0 <= px < width img -> 0 <= py < height img -> 0 <= c < 4 ->
      (px = 0 \/ px = width img - 1 \/ py = 0 \/ py = height img - 1) ->
      read (data (Sharpen.sharpenImage img intensity method)) (pix_idx (width img) px py c)
      = read (data img) (pix_idx (width img) px py c)) /\
  (width img < 3 \/ height img < 3 -> Sharpen.sharpenImage img intensity method = img).
Proof.
  intros Hlen.
  destruct (sharpen_as_interior_pass img intensity method) as [value ->].
  rewrite (sharpen_copy_is_source img Hlen).
  split.
  - intros px py c Hpx Hpy Hc Hb. simpl.
    apply interior_pass_keeps; [reflexivity | | reflexivity].
    left. exists px, py, c. intuition auto.
  - intros Hsmall. rewrite interior_pass_small by exact Hsmall.
    destruct img; reflexivity.
Qed.

Lemma sharpen_border_preserved_witness :
  Z.of_nat (length (data (mkImageData 3 3 (repeat 200 36)))) = 3 * 3 * 4 /\
  read (data (Sharpen.sharpenImage (mkImageData 3 3 (repeat 200 36)) (3 / 2)%R Sharpen.Laplacian))
       (pix_idx 3 0 1 2)
  = read (data (mkImageData 3 3 (repeat 200 36))) (pix_idx 3 0 1 2).
Proof.
  split; [reflexivity|].
  apply (sharpen_border_preserved (mkImageData 3 3 (repeat 200 36)) (3 / 2)%R
           Sharpen.Laplacian); simpl; [reflexivity | lia | lia | lia | lia].
Defined.

(** C9: for every intensity and each of the three methods, the alpha byte
    of every pixel of the output equals the alpha byte of the input. *)
Theorem sharpen_alpha_copied (img : ImageData) (intensity : R)
    (method : Sharpen.SharpenMethod) :
  Z.of_nat (length (data img)) = width img * height img * 4 ->
  forall p, read (data (Sharpen.sharpenImage img intensity method)) (p * 4 + 3)
            = read (data img) (p * 4 + 3).
Proof.
  intros Hlen p.
  destruct (sharpen_as_interior_pass img intensity method) as [value ->].
  rewrite (sharpen_copy_is_source img Hlen). simpl.
  apply interior_pass_keeps; [reflexivity | right; eauto | reflexivity].
Qed.

Lemma sharpen_alpha_copied_witness :
  Z.of_nat (length (data (mkImageData 3 3 (repeat 90 36)))) = 3 * 3 * 4 /\
  read (data (Sharpen.sharpenImage (mkImageData 3 3 (repeat 90 36)) 2%R Sharpen.EdgeEnhance))
       (4 * 4 + 3)
  = read (data (mkImageData 3 3 (repeat 90 36))) (4 * 4 + 3).
Proof.
  split; [reflexivity|].
  apply (sharpen_alpha_copied (mkImageData 3 3 (repeat 90 36)) 2%R Sharpen.EdgeEnhance).
  reflexivity.
Defined.

(** ** Histogram: the contrast level *)

Lemma qlt_true (a b : Q) : Histogram.qlt a b = true <-> (a < b)%Q.
Proof.
  unfold Histogram.qlt. rewrite negb_true_iff. split.
  - intros H. apply Qnot_le_lt. intros Hle. apply Qle_bool_iff in Hle. congruence.
  - intros H. destruct (Qle_bool b a) eqn:E; [|reflexivity].
    apply Qle_bool_iff in E. exfalso. apply (Qlt_not_le a b); assumption.
Qed.

Lemma qlt_false (a b : Q) : Histogram.qlt a b = false <-> (b <= a)%Q.
Proof.
  unfold Histogram.qlt. rewrite negb_false_iff. apply Qle_bool_iff.
Qed.

Lemma rsum_split (H : Z -> Z) (a : Z) (n m : nat) :
  rsum H a (n + m) = rsum H a n + rsum H (a + Z.of_nat n) m.
Proof.
  revert a. induction n as [|n IH]; intros a; simpl.
  - replace (a + Z.of_nat 0) with a by lia. reflexivity.
  - rewrite IH. replace (a + 1 + Z.of_nat n) with (a + Z.of_nat (S n)) by lia.
    lia.
Qed.

Lemma rsum_nonneg (H : Z -> Z) (a : Z) (n : nat) :
  (forall k, 0 <= H k) -> 0 <= rsum H a n.
Proof.
  intros Hnn. revert a. induction n as [|n IH]; intros a; simpl; [lia|].
  specialize (Hnn a). specialize (IH (a + 1)). lia.
Qed.

Lemma rsum_down_rsum (H : Z -> Z) (a : Z) (n : nat) :
  rsum_down H a n = rsum H (a - Z.of_nat n + 1) n.
Proof.
  revert a. induction n as [|n IH]; intros a; [reflexivity|].
  simpl rsum_down. rewrite IH.
  replace (S n) with (n + 1)%nat by lia. rewrite rsum_split. simpl.
  replace (a - Z.of_nat (n + 1) + 1) with (a - 1 - Z.of_nat n + 1) by lia.
  replace (a - 1 - Z.of_nat n + 1 + Z.of_nat n) with a by lia. lia.
Qed.

Lemma fold_add_rsum (l : list Z) (acc : Z) :
  fold_left Z.add l acc = acc + rsum (fun k => nth (Z.to_nat k) l 0) 0 (length l).
Proof.
  revert acc. induction l as [|x l IH]; intros acc; simpl; [lia|].
  rewrite IH.
  assert (Hshift : forall n a, 0 <= a ->
            rsum (fun k => nth (Z.to_nat k) (x :: l) 0) (a + 1) n
            = rsum (fun k => nth (Z.to_nat k) l 0) a n).
  { induction n as [|n IHn]; intros a Ha; simpl; [reflexivity|].
    rewrite IHn by lia. f_equal.
    replace (Z.to_nat (a + 1)) with (S (Z.to_nat a)) by lia. reflexivity. }
  rewrite Hshift by lia. simpl. lia.
Qed.

Section Scans.

Variables (hist : list Z) (thr : Q).

Let H (k : Z) : Z := nth (Z.to_nat k) hist 0.

Lemma scan_up_some (fuel : nat) (i cum j : Z) :
  (inject_Z cum <= thr)%Q ->
  Histogram.scan_up hist thr fuel i cum = Some j ->
  i <= j < i + Z.of_nat fuel /\
  (inject_Z (cum + rsum H i (Z.to_nat (j - i))) <= thr)%Q /\
  (thr < inject_Z (cum + rsum H i (Z.to_nat (j - i) + 1)))%Q.
Proof.
  revert i cum. induction fuel as [|fuel IH]; intros i cum Hcum Hs; simpl in Hs;
    [discriminate|].
  destruct (Histogram.qlt thr (inject_Z (cum + nth (Z.to_nat i) hist 0))) eqn:E.
  - injection Hs as <-. apply qlt_true in E.
    replace (Z.to_nat (i - i)) with 0%nat by lia. simpl.
    split; [lia|]. split; [rewrite Z.add_0_r; exact Hcum|].
    unfold H. rewrite Z.add_0_r. exact E.
  - apply qlt_false in E.
    destruct (IH (i + 1) _ E Hs) as (Hj & Hle & Hlt).
    replace (Z.to_nat (j - i)) with (S (Z.to_nat (j - (i + 1)))) by lia.
    simpl. fold (H i).
    split; [lia|]. split.
    + rewrite Z.add_assoc. exact Hle.
    + rewrite Z.add_assoc. exact Hlt.
Qed.

Lemma scan_down_some (fuel : nat) (i cum j : Z) :
  (inject_Z cum <= thr)%Q ->
  Histogram.scan_down hist thr fuel i cum = Some j ->
  i - Z.of_nat fuel < j <= i /\
  (inject_Z (cum + rsum_down H i (Z.to_nat (i - j))) <= thr)%Q.
Proof.
  revert i cum. induction fuel as [|fuel IH]; intros i cum Hcum Hs; simpl in Hs;
    [discriminate|].
  destruct (Histogram.qlt thr (inject_Z (cum + nth (Z.to_nat i) hist 0))) eqn:E.
  - injection Hs as <-. replace (Z.to_nat (i - i)) with 0%nat by lia. simpl.
    split; [lia|]. rewrite Z.add_0_r. exact Hcum.
  - apply qlt_false in E.
    destruct (IH (i - 1) _ E Hs) as (Hj & Hle).
    replace (Z.to_nat (i - j)) with (S (Z.to_nat (i - 1 - j))) by lia.
    simpl. fold (H i).
    split; [lia|]. rewrite Z.add_assoc. exact Hle.
Qed.

End Scans.

Lemma thr_le (A T : Z) : (inject_Z A <= inject_Z T * (1 # 100))%Q -> 100 * A <= T.
Proof. unfold Qle, Qmult, inject_Z. simpl. lia. Qed.

Lemma thr_lt (A T : Z) : (inject_Z T * (1 # 100) < inject_Z A)%Q -> T < 100 * A.
Proof. unfold Qlt, Qmult, inject_Z. simpl. lia. Qed.

Lemma nth_nonneg (l : list Z) (n : nat) : Forall (fun v => 0 <= v) l -> 0 <= nth n l 0.
Proof.
  intros Hl. destruct (decide (n < length l)%nat) as [Hn|Hn].
  - rewrite List.Forall_forall in Hl. apply Hl. apply nth_In. exact Hn.
  - rewrite nth_overflow by lia. lia.
Qed.

(** The two significant bins of [calculateContrastLevel] are ordered, for
    every histogram of 256 non-negative counts. *)
Lemma significant_bins_ordered (hist : list Z) :
  length hist = 256%nat -> Forall (fun v => 0 <= v) hist ->
  let total := fold_left Z.add hist 0 in
  let threshold := (inject_Z total * (1 # 100))%Q in
  let lo := default 0 (Histogram.scan_up hist threshold 256 0 0) in
  let hi := default 255 (Histogram.scan_down hist threshold 256 255 0) in
  0 <= lo <= hi /\ hi <= 255.
Proof.
  intros Hlen Hnn total threshold lo hi.
  set (H := fun k : Z => nth (Z.to_nat k) hist 0).
  assert (HH : forall k, 0 <= H k) by (intros k; apply nth_nonneg; exact Hnn).
  assert (HT : total = rsum H 0 256).
  { unfold total. rewrite fold_add_rsum, Hlen. reflexivity. }
  assert (Hthr0 : (inject_Z 0 <= threshold)%Q).
  { unfold threshold. assert (0 <= total) by (rewrite HT; apply rsum_nonneg; exact HH).
    unfold Qle, Qmult, inject_Z. simpl. lia. }
  unfold lo, hi.
  destruct (Histogram.scan_up hist threshold 256 0 0) as [j|] eqn:Eup;
  destruct (Histogram.scan_down hist threshold 256 255 0) as [m|] eqn:Edn; simpl.
  - apply scan_up_some in Eup; [|exact Hthr0].
    apply scan_down_some in Edn; [|exact Hthr0].
    destruct Eup as (Hj & Hle_up & Hlt_up). destruct Edn as (Hm & Hle_dn).
    fold H in Hle_up, Hlt_up, Hle_dn.
    split; [|lia]. split; [lia|].
    destruct (Z.le_gt_cases j m) as [Hjm|Hjm]; [exact Hjm|exfalso].
    rewrite rsum_down_rsum in Hle_dn.
    replace (255 - Z.of_nat (Z.to_nat (255 - m)) + 1) with (m + 1) in Hle_dn by lia.
    apply thr_le in Hle_up. apply thr_le in Hle_dn. apply thr_lt in Hlt_up.
    assert (Hsplit1 : rsum H 0 256 = rsum H 0 (Z.to_nat j) + rsum H j (Z.to_nat (256 - j))).
    { replace 256%nat with (Z.to_nat j + Z.to_nat (256 - j))%nat at 1 by lia.
      rewrite rsum_split. f_equal. f_equal. lia. }
    assert (Hsplit2 : rsum H (m + 1) (Z.to_nat (255 - m))
                      = rsum H (m + 1) (Z.to_nat (j - m - 1)) + rsum H j (Z.to_nat (256 - j))).
    { replace (Z.to_nat (255 - m)) with (Z.to_nat (j - m - 1) + Z.to_nat (256 - j))%nat by lia.
      rewrite rsum_split. f_equal. f_equal. lia. }
    assert (Hsplit3 : rsum H 0 256
                      = rsum H 0 (Z.to_nat (j - 0) + 1) + rsum H (j + 1) (Z.to_nat (255 - j))).
    { replace 256%nat with ((Z.to_nat (j - 0) + 1) + Z.to_nat (255 - j))%nat at 1 by lia.
      rewrite rsum_split. f_equal. f_equal. lia. }
    pose proof (rsum_nonneg H (m + 1) (Z.to_nat (j - m - 1)) HH).
    pose proof (rsum_nonneg H (j + 1) (Z.to_nat (255 - j)) HH).
    replace (Z.to_nat (j - 0)) with (Z.to_nat j) in * by lia.
    rewrite <- HT in Hsplit1, Hsplit3. lia.
  - apply scan_up_some in Eup; [|exact Hthr0]. lia.
  - apply scan_down_some in Edn; [|exact Hthr0]. lia.
  - lia.
Qed.

Lemma build_histogram_shape (d : list Z) :
  length (Histogram.lumHist (Histogram.build_histogram d)) = 256%nat /\
  Forall (fun v => 0 <= v) (Histogram.lumHist (Histogram.build_histogram d)).
Proof.
  unfold Histogram.build_histogram.
  generalize (Histogram.pixels_of d) as ps.
  assert (Hgen : forall ps st,
             length (Histogram.lumHist st) = 256%nat ->
             Forall (fun v => 0 <= v) (Histogram.lumHist st) ->
             length (Histogram.lumHist (fold_left Histogram.hist_step ps st)) = 256%nat /\
             Forall (fun v => 0 <= v) (Histogram.lumHist (fold_left Histogram.hist_step ps st))).
  { induction ps as [|[[[r g] b] a] ps IH]; intros st Hl Hf; simpl; [auto|].
    apply IH; unfold Histogram.hist_step; destruct (a =? 0); simpl; auto.
    - rewrite length_alter. exact Hl.
    - apply Forall_alter; [exact Hf|]. intros x _ Hx. lia. }
  intros ps. apply Hgen.
  - reflexivity.
  - apply List.Forall_forall. intros v Hv.
    change (In v (repeat 0 256)) in Hv. apply repeat_spec in Hv. lia.
Qed.

(** C10: for every input buffer, the contrast level of the histogram
    analyzer lies in [0, 1]. *)
Theorem contrastLevel_in_unit_interval (img : ImageData) :
  (0 <= Histogram.contrastLevel (Histogram.analyzeImageHistogram img) <= 1)%Q.
Proof.
  unfold Histogram.analyzeImageHistogram. simpl.
  destruct (build_histogram_shape (data img)) as [Hl Hf].
  pose proof (significant_bins_ordered _ Hl Hf) as Hord. cbv zeta in Hord.
  unfold Histogram.calculateContrastLevel.
  set (lo := default 0 _) in *. set (hi := default 255 _) in *.
  destruct Hord as [Hlo Hhi].
  unfold Qdiv, Qle, Qmult, Qinv, inject_Z. simpl. split; lia.
Qed.

(** ** Histogram: the averages *)

(** C1 (code_bug): on a 2x1 image with one opaque red pixel and one
    pixel of alpha 0, [analyzeImageHistogram] divides by [width * height]
    = 2, so the transparent pixel halves both averages: luminance 38 and
    saturation 1/2, where the means over the opaque pixels are 76 and 1. *)
Theorem histogram_averages_count_transparent_pixels :
  let img := mkImageData 2 1 [255; 0; 0; 255; 0; 0; 0; 0] in
  let res := Histogram.analyzeImageHistogram img in
  (Histogram.averageLuminance res == 38)%Q /\
  (Histogram.spec_averageLuminance img == 76)%Q /\
  (Histogram.saturationLevel res == 1 # 2)%Q /\
  (Histogram.spec_saturationLevel img == 1)%Q.
Proof. vm_compute. repeat split; reflexivity. Qed.

(** ** Sharpness score *)

(** C2 (code_bug): a 3x3 opaque image whose left column is pure green
    (0, 255, 0) and whose other pixels are black. The grayscale Sobel
    average the spec describes gives 598.74 / 3, clamped to 100; the code
    reads the red byte of every neighbour and scores 0. *)
Theorem sharpness_reads_red_channel_only :
  let px := [0; 255; 0; 255; 0; 0; 0; 255; 0; 0; 0; 255] in
  let img := mkImageData 3 3 (px ++ px ++ px) in
  Sharpness.analyzeImageSharpness img = 0%R /\
  Sharpness.sharpness_from_spec img = 100%R.
Proof.
  split.
  - cbv -[IZR sqrt Rplus Rmult Rdiv Rmin Rmax Rminus Ropp Rinv].
    rewrite sqrt_0.
    replace ((0 + 0) / 1 / 3)%R with 0%R by field.
    rewrite Rmax_left by lra. apply Rmin_right. lra.
  - cbv -[IZR sqrt Rplus Rmult Rdiv Rmin Rmax Rminus Ropp Rinv].
    match goal with
    | |- context [sqrt ?e] => replace e with (Rsqr (29937 / 50)) by (unfold Rsqr; field)
    end.
    rewrite sqrt_Rsqr by lra.
    rewrite Rmax_right by lra. apply Rmin_left. lra.
Qed.

(** ** Crop application *)

Lemma write4_spec (d : list Z) (I v0 v1 v2 v3 j : Z) :
  0 <= I -> I + 3 < Z.of_nat (length d) ->
  read (write (write (write (write d I v0) (I + 1) v1) (I + 2) v2) (I + 3) v3) j =
  if Z.eq_dec j I then Some v0
  else if Z.eq_dec j (I + 1) then Some v1
  else if Z.eq_dec j (I + 2) then Some v2
  else if Z.eq_dec j (I + 3) then Some v3
  else read d j.
Proof.
  intros HI Hlen.
  destruct (Z.eq_dec j I) as [->|H0];
  [|destruct (Z.eq_dec j (I + 1)) as [->|H1];
  [|destruct (Z.eq_dec j (I + 2)) as [->|H2];
  [|destruct (Z.eq_dec j (I + 3)) as [->|H3]]]];
  repeat first [ rewrite read_write_eq by (rewrite ?length_write; lia); reflexivity
               | rewrite read_write_ne by lia ];
  reflexivity.
Qed.

Lemma imageData_new_ok (d : list Z) (w h : Z) :
  1 <= w -> 1 <= h -> Z.of_nat (length d) = w * h * 4 ->
  AutoCrop.imageData_new d w h = Some (mkImageData w h d).
Proof.
  intros Hw Hh Hlen. unfold AutoCrop.imageData_new. rewrite Hlen.
  replace (w * h * 4 / 4) with (w * h) by (rewrite Z.div_mul; lia).
  replace (w * h * 4 mod 4) with 0 by (rewrite Z.mod_mul; lia).
  replace (w * h mod w) with 0 by (rewrite Z.mul_comm, Z.mod_mul; lia).
  replace (w * h / w) with h by (rewrite Z.mul_comm, Z.div_mul; lia).
  destruct (w <? 0) eqn:E1; [lia|]. destruct (h <? 0) eqn:E2; [lia|].
  destruct (w * h * 4 =? 0) eqn:E3; [lia|].
  destruct (w =? 0) eqn:E4; [lia|]. rewrite !Z.eqb_refl. reflexivity.
Qed.

Lemma imageData_new_empty (d : list Z) (w h : Z) :
  Z.of_nat (length d) = w * h * 4 -> (w <= 0 \/ h <= 0) ->
  AutoCrop.imageData_new d w h = None.
Proof.
  intros Hlen Hwh. unfold AutoCrop.imageData_new. rewrite Hlen.
  destruct (w <? 0) eqn:E1; [reflexivity|]. destruct (h <? 0) eqn:E2; [reflexivity|].
  simpl. destruct (w * h * 4 =? 0) eqn:E3; [reflexivity|]. nia.
Qed.

Lemma write4_at (d : list Z) (I v0 v1 v2 v3 c : Z) :
  0 <= I -> I + 3 < Z.of_nat (length d) -> 0 <= c < 4 ->
  read (write (write (write (write d I v0) (I + 1) v1) (I + 2) v2) (I + 3) v3) (I + c) =
  Some (nth (Z.to_nat c) [v0; v1; v2; v3] 0).
Proof.
  intros HI Hlen Hc. rewrite write4_spec by assumption.
  assert (c = 0 \/ c = 1 \/ c = 2 \/ c = 3) as [-> | [-> | [-> | ->]]] by lia;
  repeat (destruct Z.eq_dec; [try reflexivity; lia|]); lia.
Qed.

Lemma write4_other (d : list Z) (I v0 v1 v2 v3 j : Z) :
  0 <= I -> I + 3 < Z.of_nat (length d) -> (j < I \/ I + 3 < j) ->
  read (write (write (write (write d I v0) (I + 1) v1) (I + 2) v2) (I + 3) v3) j =
  read d j.
Proof.
  intros HI Hlen Hj. rewrite write4_spec by assumption.
  repeat (destruct Z.eq_dec; [lia|]). reflexivity.
Qed.

Lemma row_major_inj (w cx cy m k : Z) :
  0 <= cx < w -> 0 <= m < w -> cy * w + cx = k * w + m -> cx = m /\ cy = k.
Proof. intros Hcx Hm Heq. assert (cy = k) by nia. subst. lia. Qed.

(** The copy loop of [cropImageData] fills the fresh array with the bytes
    read at the row-major source positions. *)
Lemma crop_loop_spec (byte : Z -> Z) (ow x y w h : Z) :
  1 <= w -> 1 <= h ->
  let cd :=
    for_range 0 h (fun cropY d =>
      for_range 0 w (fun cropX d =>
        let originalPixelIndex := ((y + cropY) * ow + (x + cropX)) * 4 in
        let croppedPixelIndex := (cropY * w + cropX) * 4 in
        let d := write d croppedPixelIndex (byte originalPixelIndex) in
        let d := write d (croppedPixelIndex + 1) (byte (originalPixelIndex + 1)) in
        let d := write d (croppedPixelIndex + 2) (byte (originalPixelIndex + 2)) in
        write d (croppedPixelIndex + 3) (byte (originalPixelIndex + 3))) d)
      (repeat 0 (Z.to_nat (w * h * 4))) in
  Z.of_nat (length cd) = w * h * 4 /\
  forall cx cy c, 0 <= cx < w -> 0 <= cy < h -> 0 <= c < 4 ->
    read cd (pix_idx w cx cy c) = Some (byte (((y + cy) * ow + (x + cx)) * 4 + c)).
Proof.
  intros Hw Hh cd.
  set (V := fun cx cy c => byte (((y + cy) * ow + (x + cx)) * 4 + c)).
  set (P := fun (k : Z) (d : list Z) =>
    Z.of_nat (length d) = w * h * 4 /\
    forall cx cy c, 0 <= cx < w -> 0 <= cy < k -> 0 <= c < 4 ->
      read d (pix_idx w cx cy c) = Some (V cx cy c)).
  enough (HP : P (Z.max 0 h) cd).
  { destruct HP as [Hl Hv]. split; [exact Hl|].
    intros cx cy c Hcx Hcy Hc. apply Hv; lia. }
  apply for_range_ind.
  - split; [rewrite repeat_length; nia | intros; lia].
  - intros k d Hk [Hl Hv].
    set (Q := fun (m : Z) (d' : list Z) =>
      Z.of_nat (length d') = w * h * 4 /\
      forall cx cy c, 0 <= cx < w -> 0 <= cy -> (cy < k \/ (cy = k /\ cx < m)) ->
        0 <= c < 4 -> read d' (pix_idx w cx cy c) = Some (V cx cy c)).
    assert (HQ : Q (Z.max 0 w) (for_range 0 w (fun cropX d0 =>
        let originalPixelIndex := ((y + k) * ow + (x + cropX)) * 4 in
        let croppedPixelIndex := (k * w + cropX) * 4 in
        let d1 := write d0 croppedPixelIndex (byte originalPixelIndex) in
        let d2 := write d1 (croppedPixelIndex + 1) (byte (originalPixelIndex + 1)) in
        let d3 := write d2 (croppedPixelIndex + 2) (byte (originalPixelIndex + 2)) in
        write d3 (croppedPixelIndex + 3) (byte (originalPixelIndex + 3))) d)).
    { apply for_range_ind.
      - split; [exact Hl|]. intros cx cy c Hcx Hcy Hd Hc. apply Hv; lia.
      - intros m d' Hm [Hl' Hv']. cbv zeta.
        assert (HI : 0 <= (k * w + m) * 4) by nia.
        assert (HI3 : (k * w + m) * 4 + 3 < Z.of_nat (length d')) by nia.
        split; [rewrite !length_write; exact Hl'|].
        intros cx cy c Hcx Hcy Hd Hc.
        destruct (decide (cx = m /\ cy = k)) as [[-> ->]|Hne].
        + replace (pix_idx w m k c) with ((k * w + m) * 4 + c) by (unfold pix_idx; ring).
          rewrite write4_at by assumption. f_equal. unfold V.
          assert (c = 0 \/ c = 1 \/ c = 2 \/ c = 3) as [-> | [-> | [-> | ->]]] by lia;
            simpl; f_equal; ring.
        + rewrite write4_other by (try assumption; unfold pix_idx;
            assert (cy * w + cx <> k * w + m)
              by (intros Heq; apply row_major_inj in Heq; lia);
            set (p := cy * w + cx) in *; set (q := k * w + m) in *; lia).
          apply Hv'; try assumption. lia. }
    destruct HQ as [HlQ HvQ]. split; [exact HlQ|].
    intros cx cy c Hcx Hcy Hc. apply HvQ; lia.
Qed.

(** C3 (amended). [cropImageData] performs no bounds check: for every integer
    rectangle it fails (returns [None], the [ImageData] constructor throwing)
    exactly when its width or its height is not positive. Otherwise it returns
    a [width] x [height] buffer whose byte (cx, cy, c) is the source byte at
    ((y + cy) * sourceWidth + (x + cx)) * 4 + c, or 0 where that index lies
    outside the source array. *)
Theorem cropImageData_no_bounds_check (src : ImageData) (x y w h : Z) :
  (AutoCrop.cropImageData src (AutoCrop.mkCropRect x y w h) = None <-> (w <= 0 \/ h <= 0)) /\
  (forall out, AutoCrop.cropImageData src (AutoCrop.mkCropRect x y w h) = Some out ->
     width out = w /\ height out = h /\ Z.of_nat (length (data out)) = w * h * 4 /\
     forall cx cy c, 0 <= cx < w -> 0 <= cy < h -> 0 <= c < 4 ->
       read (data out) (pix_idx w cx cy c) =
       Some (default 0 (read (data src) (((y + cy) * width src + (x + cx)) * 4 + c)))).
Proof.
  destruct (decide (1 <= w /\ 1 <= h)) as [[Hw Hh]|Hwh].
  - pose proof (crop_loop_spec (fun i => default 0 (read (data src) i))
                  (width src) x y w h Hw Hh) as [Hl Hv].
    unfold AutoCrop.cropImageData.
    replace (w * h * 4 <? 0) with false by (symmetry; apply Z.ltb_ge; nia).
    erewrite imageData_new_ok by (try lia; exact Hl).
    split; [split; [discriminate | lia]|].
    intros out Hout. injection Hout as <-. simpl.
    split; [reflexivity|]. split; [reflexivity|]. split; [exact Hl|]. exact Hv.
  - assert (Hnone : AutoCrop.cropImageData src (AutoCrop.mkCropRect x y w h) = None).
    { unfold AutoCrop.cropImageData.
      destruct (w * h * 4 <? 0) eqn:Hneg; [reflexivity|].
      apply Z.ltb_ge in Hneg.
      apply imageData_new_empty; [|lia].
      destruct (decide (h <= 0)).
      + rewrite for_range_empty by lia. rewrite repeat_length. lia.
      + rewrite for_range_id.
        * rewrite repeat_length. lia.
        * intros k d. apply for_range_empty. lia. }
    rewrite Hnone. split; [split; [intros _; lia | reflexivity]|].
    intros out Hout. discriminate.
Qed.

(** Witness for C3: a rectangle lying entirely right of a 1x1 source is
    cropped without failure, and its first byte reads as 0. *)
Lemma cropImageData_no_bounds_check_witness :
  exists out,
    AutoCrop.cropImageData (mkImageData 1 1 [10; 20; 30; 255]) (AutoCrop.mkCropRect 1 0 1 1)
      = Some out /\ read (data out) (pix_idx 1 0 0 0) = Some 0.
Proof.
  destruct (cropImageData_no_bounds_check (mkImageData 1 1 [10; 20; 30; 255]) 1 0 1 1)
    as [Hnone Hout].
  destruct (AutoCrop.cropImageData (mkImageData 1 1 [10; 20; 30; 255]) (AutoCrop.mkCropRect 1 0 1 1))
    as [out|] eqn:E.
  - exists out. split; [reflexivity|].
    destruct (Hout out eq_refl) as (_ & _ & _ & Hv).
    rewrite (Hv 0 0 0) by lia. reflexivity.
  - exfalso. destruct (proj1 Hnone eq_refl) as [H|H]; lia.
Defined.

(** Counterexample to C3 as stated: a rectangle extending past the right edge
    of a 1x1 source ([x + width = 2 > 1]) is not refused; the crop succeeds
    and silently fills the missing pixel with zero bytes. *)
Lemma cropImageData_out_of_bounds_succeeds :
  1 < AutoCrop.rx (AutoCrop.mkCropRect 1 0 1 1) + AutoCrop.rwidth (AutoCrop.mkCropRect 1 0 1 1) /\
  AutoCrop.cropImageData (mkImageData 1 1 [10; 20; 30; 255]) (AutoCrop.mkCropRect 1 0 1 1)
    = Some (mkImageData 1 1 [0; 0; 0; 0]).
Proof. split; [simpl; lia | vm_compute; reflexivity]. Qed.

Lemma crop_qlt_false (a b : Q) : (b <= a)%Q -> AutoCrop.qlt a b = false.
Proof. intros H. unfold AutoCrop.qlt. rewrite negb_false_iff. apply Qle_bool_iff, H. Qed.

Lemma crop_qlt_true (a b : Q) : (a < b)%Q -> AutoCrop.qlt a b = true.
Proof.
  intros H. unfold AutoCrop.qlt. rewrite negb_true_iff.
  destruct (Qle_bool b a) eqn:E; [|reflexivity].
  apply Qle_bool_iff in E. exfalso. apply (Qlt_not_le a b); assumption.
Qed.

Lemma js_round_Qeq (p q : Q) : (p == q)%Q -> js_round p = js_round q.
Proof. intros H. unfold js_round. apply Qfloor_comp. rewrite H. reflexivity. Qed.

Lemma js_round_inject_Z (n : Z) : js_round (inject_Z n) = n.
Proof.
  unfold js_round, Qfloor. simpl.
  replace (n * 2 + 1 * 1) with (1 + n * 2) by ring.
  rewrite Z.div_add by lia. reflexivity.
Qed.

Lemma Qle_inject (a b : Z) : a <= b -> (inject_Z a <= inject_Z b)%Q.
Proof. intros H. rewrite <- Zle_Qle. exact H. Qed.

Section RectMask.

Variables (seg : list Z) (W H x0 y0 w0 h0 : Z).
Hypothesis (Hx0 : 0 <= x0) (Hy0 : 0 <= y0) (Hw0 : 1 <= w0) (Hh0 : 1 <= h0)
           (HxW : x0 + w0 <= W) (HyH : y0 + h0 <= H).
Hypothesis Hmask : forall x y, 0 <= x < W -> 0 <= y < H ->
  (read seg (y * W + x) = Some 1 <-> x0 <= x < x0 + w0 /\ y0 <= y < y0 + h0).

Lemma scan_step_inv (D : Z -> Z -> Prop) (m k : Z) (s : AutoCrop.SubjectScan) :
  0 <= m < W -> 0 <= k < H -> rect_scan_inv x0 y0 w0 h0 D s ->
  rect_scan_inv x0 y0 w0 h0 (fun x y => D x y \/ (x = m /\ y = k)) (AutoCrop.scan_step seg W m k s).
Proof.
  intros Hm Hk (H1 & H2 & H3 & H4 & H5 & H6). unfold AutoCrop.scan_step.
  case_bool_decide as Hhit.
  - apply (Hmask m k Hm Hk) in Hhit as Hr.
    unfold rect_scan_inv; simpl. split; [lia|]. split; [lia|]. split; [lia|].
    split; [lia|]. split; [lia|].
    intros x y Hxy [Hd|[-> ->]].
    + destruct (H6 x y Hxy Hd) as (? & ? & ?). lia.
    + lia.
  - unfold rect_scan_inv. do 5 (split; [assumption|]).
    intros x y Hxy [Hd|[-> ->]].
    + apply H6; assumption.
    + exfalso. apply Hhit, (Hmask m k Hm Hk), Hxy.
Qed.

Lemma subject_scan_rect :
  let s := AutoCrop.subject_scan seg W H in
  AutoCrop.minX s = x0 /\ AutoCrop.maxX s = x0 + w0 - 1 /\
  AutoCrop.minY s = y0 /\ AutoCrop.maxY s = y0 + h0 - 1 /\
  0 < AutoCrop.subjectPixelCount s.
Proof.
  intros s.
  assert (HI : rect_scan_inv x0 y0 w0 h0 (fun x y => y < Z.max 0 H) s).
  { unfold s, AutoCrop.subject_scan. apply for_range_ind.
    - unfold rect_scan_inv; simpl. do 5 (split; [lia|]).
      intros x y Hxy Hd. unfold in_rect in Hxy. lia.
    - intros k s' Hk Hs'.
      assert (HQ : rect_scan_inv x0 y0 w0 h0 (fun x y => y < k \/ (y = k /\ x < Z.max 0 W))
          (for_range 0 W (fun x s0 => AutoCrop.scan_step seg W x k s0) s')).
      { apply for_range_ind.
        - destruct Hs' as (H1 & H2 & H3 & H4 & H5 & H6).
          unfold rect_scan_inv. do 5 (split; [assumption|]).
          intros x y Hxy [Hd|Hd]; [apply H6; assumption | unfold in_rect in Hxy; lia].
        - intros m s0 Hm Hs0.
          pose proof (scan_step_inv _ m k s0 Hm ltac:(lia) Hs0)
            as (H1 & H2 & H3 & H4 & H5 & H6).
          unfold rect_scan_inv. do 5 (split; [assumption|]).
          intros x y Hxy Hd. apply H6; [assumption|].
          destruct (decide (x = m /\ y = k)); [right; assumption|left; lia]. }
      destruct HQ as (H1 & H2 & H3 & H4 & H5 & H6).
      unfold rect_scan_inv. do 5 (split; [assumption|]).
      intros x y Hxy Hd. apply H6; [assumption|].
      destruct (decide (y < k)); [left; assumption|right; unfold in_rect in Hxy; lia]. }
  destruct HI as (H1 & H2 & H3 & H4 & H5 & H6).
  destruct (H6 x0 y0) as (A1 & A2 & A3); [unfold in_rect; lia | lia |].
  destruct (H6 (x0 + w0 - 1) (y0 + h0 - 1)) as (B1 & B2 & B3); [unfold in_rect; lia | lia |].
  lia.
Qed.

End RectMask.

(** C7. If the mask's entries equal to 1 inside the [W] x [H] image are
    exactly the rectangle (x0, y0, w0, h0), with w0/h0 neither above 3 nor
    below 0.33, then [findOptimalCropBounds] with [paddingPercentage = 0] and
    [minCropSize = 1] returns exactly {x0, y0, w0, h0}. *)
Theorem findOptimalCropBounds_rect_mask (seg : list Z) (W H x0 y0 w0 h0 : Z)
  (Hx0 : 0 <= x0) (Hy0 : 0 <= y0) (Hw0 : 1 <= w0) (Hh0 : 1 <= h0)
  (HxW : x0 + w0 <= W) (HyH : y0 + h0 <= H)
  (Hmask : forall x y, 0 <= x < W -> 0 <= y < H ->
     (read seg (y * W + x) = Some 1 <-> x0 <= x < x0 + w0 /\ y0 <= y < y0 + h0))
  (Hwide : w0 <= 3 * h0) (Htall : 33 * h0 <= 100 * w0) :
  exists b,
    AutoCrop.findOptimalCropBounds seg W H (AutoCrop.mkAutoCropOptions (Some 0%Q) (Some 1%Q))
      = Some b /\
    (AutoCrop.cb_x b == inject_Z x0 /\ AutoCrop.cb_y b == inject_Z y0 /\
     AutoCrop.cb_width b == inject_Z w0 /\ AutoCrop.cb_height b == inject_Z h0)%Q.
Proof.
  destruct (subject_scan_rect seg W H x0 y0 w0 h0 Hx0 Hy0 Hw0 Hh0 HxW HyH Hmask)
    as (E1 & E2 & E3 & E4 & E5).
  unfold AutoCrop.findOptimalCropBounds, AutoCrop.findSubjectBounds. simpl default.
  rewrite E1, E2, E3, E4.
  replace (AutoCrop.subjectPixelCount (AutoCrop.subject_scan seg W H) =? 0) with false
    by (symmetry; apply Z.eqb_neq; lia).
  replace (x0 + w0 - 1 - x0 + 1) with w0 by ring.
  replace (y0 + h0 - 1 - y0 + 1) with h0 by ring.
  unfold AutoCrop.ensure_min_size; simpl AutoCrop.cb_width; simpl AutoCrop.cb_height.
  rewrite (crop_qlt_false (inject_Z w0) 1), (crop_qlt_false (inject_Z h0) 1)
    by (apply (Qle_inject 1); lia).
  simpl orb. cbv iota.
  unfold AutoCrop.applyCropPadding; simpl AutoCrop.cb_width; simpl AutoCrop.cb_height;
    simpl AutoCrop.cb_x; simpl AutoCrop.cb_y.
  rewrite (js_round_Qeq (inject_Z w0 * 0) (inject_Z 0)) by (simpl; ring).
  rewrite (js_round_Qeq (inject_Z h0 * 0) (inject_Z 0)) by (simpl; ring).
  rewrite !js_round_inject_Z. change (inject_Z 0) with 0%Q.
  assert (QX : (Qmax 0 (inject_Z x0 - inject_Z 0) == inject_Z x0)%Q).
  { rewrite Q.max_r; [ring|]. assert (0 <= inject_Z x0)%Q by (apply (Qle_inject 0); lia).
    change (inject_Z 0) with 0%Q. qlra. }
  assert (QY : (Qmax 0 (inject_Z y0 - inject_Z 0) == inject_Z y0)%Q).
  { rewrite Q.max_r; [ring|]. assert (0 <= inject_Z y0)%Q by (apply (Qle_inject 0); lia).
    change (inject_Z 0) with 0%Q. qlra. }
  pose proof (Qle_inject _ _ HxW) as QxW. pose proof (Qle_inject _ _ HyH) as QyH.
  rewrite inject_Z_plus in QxW, QyH.
  rewrite (crop_qlt_false (inject_Z W)) by (rewrite QX; qlra).
  rewrite (crop_qlt_false (inject_Z H)) by (rewrite QY; qlra).
  unfold AutoCrop.normalize_aspect, AutoCrop.aspect_extreme; simpl AutoCrop.cb_width;
    simpl AutoCrop.cb_height.
  assert (Qh0 : (1 <= inject_Z h0)%Q) by (apply (Qle_inject 1); lia).
  change (inject_Z 0) with 0%Q in QX, QY.
  assert (Hh : (inject_Z h0 + 2 * 0 == inject_Z h0)%Q) by ring.
  assert (Hw : (inject_Z w0 + 2 * 0 == inject_Z w0)%Q) by ring.
  assert (E0 : Qeq_bool (inject_Z h0 + 2 * 0) 0 = false).
  { apply not_true_iff_false. intros E. apply Qeq_bool_iff in E.
    rewrite Hh in E. qlra. }
  rewrite E0.
  rewrite (crop_qlt_false 3).
  2:{ apply Qle_shift_div_r; [rewrite Hh; qlra|].
      rewrite Hh, Hw.
      assert (Q1 : (inject_Z w0 <= 3 * inject_Z h0)%Q)
        by (change 3%Q with (inject_Z 3); rewrite <- inject_Z_mult; apply Qle_inject; lia).
      qlra. }
  rewrite (crop_qlt_false _ (33 # 100)).
  2:{ apply Qle_shift_div_l; [rewrite Hh; qlra|].
      rewrite Hh, Hw.
      assert (Q1 : (33 * inject_Z h0 <= 100 * inject_Z w0)%Q)
        by (change 33%Q with (inject_Z 33); change 100%Q with (inject_Z 100);
            rewrite <- !inject_Z_mult; apply Qle_inject; lia).
      qlra. }
  simpl. eexists; split; [reflexivity|]. simpl.
  split; [exact QX|]. split; [exact QY|]. split; [exact Hw | exact Hh].
Qed.

(** Witness for C7: a 2x2 foreground square in the middle of a 4x4 mask. *)
Lemma findOptimalCropBounds_rect_mask_witness :
  exists b,
    AutoCrop.findOptimalCropBounds [0; 0; 0; 0; 0; 1; 1; 0; 0; 1; 1; 0; 0; 0; 0; 0] 4 4
      (AutoCrop.mkAutoCropOptions (Some 0%Q) (Some 1%Q)) = Some b /\
    (AutoCrop.cb_x b == inject_Z 1 /\ AutoCrop.cb_y b == inject_Z 1 /\
     AutoCrop.cb_width b == inject_Z 2 /\ AutoCrop.cb_height b == inject_Z 2)%Q.
Proof.
  apply (findOptimalCropBounds_rect_mask _ 4 4 1 1 2 2); try lia.
  intros x y Hx Hy.
  assert (x = 0 \/ x = 1 \/ x = 2 \/ x = 3) as [-> | [-> | [-> | ->]]] by lia;
  assert (y = 0 \/ y = 1 \/ y = 2 \/ y = 3) as [-> | [-> | [-> | ->]]] by lia;
  unfold read; simpl; split; intros HH; first [reflexivity | lia | discriminate HH].
Defined.

Lemma subject_scan_empty (seg : list Z) (W H : Z) :
  (forall x y, 0 <= x < W -> 0 <= y < H -> read seg (y * W + x) <> Some 1) ->
  AutoCrop.subject_scan seg W H = AutoCrop.mkSubjectScan W 0 H 0 0.
Proof.
  intros Hnone. unfold AutoCrop.subject_scan.
  apply (for_range_preserve (fun s => s = AutoCrop.mkSubjectScan W 0 H 0 0)); [reflexivity|].
  intros k s Hk ->.
  apply (for_range_preserve (fun s => s = AutoCrop.mkSubjectScan W 0 H 0 0)); [reflexivity|].
  intros m s Hm ->. unfold AutoCrop.scan_step.
  case_bool_decide as Hhit; [exfalso; exact (Hnone m k Hm Hk Hhit) | reflexivity].
Qed.

Lemma js_round_near (q : Q) : (q - (1 # 2) < inject_Z (js_round q) <= q + (1 # 2))%Q.
Proof.
  unfold js_round. split.
  - pose proof (Qlt_floor (q + (1 # 2))) as Hf. rewrite inject_Z_plus in Hf.
    change (inject_Z 1) with 1%Q in Hf. qlra.
  - apply Qfloor_le.
Qed.

Lemma js_round_nonneg (q : Q) : (0 <= q)%Q -> 0 <= js_round q.
Proof.
  intros Hq. pose proof (js_round_near q) as [H1 _].
  destruct (Z_lt_le_dec (js_round q) 0) as [Hn|]; [|assumption].
  exfalso. assert (Hn' : (inject_Z (js_round q) <= -1)%Q).
  { change (-1)%Q with (inject_Z (-1)). apply Qle_inject. lia. }
  qlra.
Qed.

(** [round (d / 2) <= d] for [d >= 0]. *)
Lemma js_round_half_le (d : Q) : (0 <= d)%Q -> (inject_Z (js_round (d / 2)) <= d)%Q.
Proof.
  intros Hd. change (d / 2)%Q with (d * (1 # 2))%Q.
  pose proof (js_round_near (d * (1 # 2))) as [H1 H2].
  destruct (Qlt_le_dec d 1) as [Hlt|Hge].
  - assert (Hr : js_round (d * (1 # 2)) <= 0).
    { destruct (Z_le_gt_dec (js_round (d * (1 # 2))) 0) as [|Hp]; [assumption|].
      exfalso. assert (Hp' : (1 <= inject_Z (js_round (d * (1 # 2))))%Q).
      { change 1%Q with (inject_Z 1). apply Qle_inject. lia. }
      assert (d * (1 # 2) + (1 # 2) < 1)%Q by qlra. qlra. }
    assert (inject_Z (js_round (d * (1 # 2))) <= 0)%Q.
    { change 0%Q with (inject_Z 0). apply Qle_inject. exact Hr. }
    qlra.
  - assert (d * (1 # 2) + (1 # 2) <= d)%Q by qlra. qlra.
Qed.

(** C4 (amended). With no foreground pixel in the mask ([W], [H] >= 1),
    [findOptimalCropBounds] never fails and starts from the center square of
    side s = 0.8 * min(W, H) at (round((W - s)/2), round((H - s)/2)). The
    minimum-size and padding stages still run on it: with
    [paddingPercentage = 0] and [minCropSize <= s] the result is exactly that
    square, centered to within 1/2 pixel. *)
Theorem findOptimalCropBounds_empty_mask (seg : list Z) (W H : Z) (m : Q)
  (HW : 1 <= W) (HH : 1 <= H)
  (Hnone : forall x y, 0 <= x < W -> 0 <= y < H -> read seg (y * W + x) <> Some 1)
  (Hm : (m <= Qmin (inject_Z W) (inject_Z H) * (8 # 10))%Q) :
  let s := (Qmin (inject_Z W) (inject_Z H) * (8 # 10))%Q in
  exists b,
    AutoCrop.findOptimalCropBounds seg W H (AutoCrop.mkAutoCropOptions (Some 0%Q) (Some m))
      = Some b /\
    (AutoCrop.cb_x b == inject_Z (js_round ((inject_Z W - s) / 2)) /\
     AutoCrop.cb_y b == inject_Z (js_round ((inject_Z H - s) / 2)) /\
     AutoCrop.cb_width b == s /\ AutoCrop.cb_height b == s /\
     -(1 # 2) <= AutoCrop.cb_x b + AutoCrop.cb_width b * (1 # 2) - inject_Z W * (1 # 2) <= 1 # 2 /\
     -(1 # 2) <= AutoCrop.cb_y b + AutoCrop.cb_height b * (1 # 2) - inject_Z H * (1 # 2) <= 1 # 2)%Q.
Proof.
  intros s.
  assert (QW : (1 <= inject_Z W)%Q) by (apply (Qle_inject 1); lia).
  assert (QH : (1 <= inject_Z H)%Q) by (apply (Qle_inject 1); lia).
  assert (Hmin : (1 <= Qmin (inject_Z W) (inject_Z H) /\
                  Qmin (inject_Z W) (inject_Z H) <= inject_Z W /\
                  Qmin (inject_Z W) (inject_Z H) <= inject_Z H)%Q).
  { split; [apply Q.min_glb; assumption|]. split; [apply Q.le_min_l | apply Q.le_min_r]. }
  assert (Hs : (4 # 5 <= s /\ s <= inject_Z W - s * (1 # 4) /\ s <= inject_Z H - s * (1 # 4))%Q)
    by (unfold s; qlra).
  unfold AutoCrop.findOptimalCropBounds, AutoCrop.findSubjectBounds.
  rewrite (subject_scan_empty seg W H Hnone). simpl default.
  simpl AutoCrop.subjectPixelCount. rewrite Z.eqb_refl. cbv iota.
  unfold AutoCrop.center_fallback. fold s.
  set (cx := inject_Z (js_round ((inject_Z W - s) / 2))).
  set (cy := inject_Z (js_round ((inject_Z H - s) / 2))).
  assert (Hcx : (0 <= cx /\ cx <= inject_Z W - s /\
                 (inject_Z W - s) * (1 # 2) - (1 # 2) < cx <= (inject_Z W - s) * (1 # 2) + (1 # 2))%Q).
  { unfold cx. split; [|split].
    - change 0%Q with (inject_Z 0). apply Qle_inject, js_round_nonneg.
      unfold Qdiv. apply Qmult_le_0_compat; [qlra | discriminate].
    - apply js_round_half_le. qlra.
    - apply (js_round_near ((inject_Z W - s) * (1 # 2))). }
  assert (Hcy : (0 <= cy /\ cy <= inject_Z H - s /\
                 (inject_Z H - s) * (1 # 2) - (1 # 2) < cy <= (inject_Z H - s) * (1 # 2) + (1 # 2))%Q).
  { unfold cy. split; [|split].
    - change 0%Q with (inject_Z 0). apply Qle_inject, js_round_nonneg.
      unfold Qdiv. apply Qmult_le_0_compat; [qlra | discriminate].
    - apply js_round_half_le. qlra.
    - apply (js_round_near ((inject_Z H - s) * (1 # 2))). }
  clearbody cx cy.
  unfold AutoCrop.ensure_min_size; simpl AutoCrop.cb_width; simpl AutoCrop.cb_height.
  rewrite (crop_qlt_false s m Hm). simpl orb. cbv iota.
  unfold AutoCrop.applyCropPadding; simpl AutoCrop.cb_width; simpl AutoCrop.cb_height;
    simpl AutoCrop.cb_x; simpl AutoCrop.cb_y.
  rewrite (js_round_Qeq (s * 0) (inject_Z 0)) by (simpl; ring).
  rewrite !js_round_inject_Z. change (inject_Z 0) with 0%Q.
  assert (QX : (Qmax 0 (cx - 0) == cx)%Q) by (rewrite Q.max_r; [ring | qlra]).
  assert (QY : (Qmax 0 (cy - 0) == cy)%Q) by (rewrite Q.max_r; [ring | qlra]).
  assert (Hw : (s + 2 * 0 == s)%Q) by ring.
  rewrite (crop_qlt_false (inject_Z W)) by (rewrite QX; qlra).
  rewrite (crop_qlt_false (inject_Z H)) by (rewrite QY; qlra).
  unfold AutoCrop.normalize_aspect, AutoCrop.aspect_extreme; simpl AutoCrop.cb_width;
    simpl AutoCrop.cb_height.
  assert (E0 : Qeq_bool (s + 2 * 0) 0 = false).
  { apply not_true_iff_false. intros E. apply Qeq_bool_iff in E. qlra. }
  rewrite E0.
  rewrite (crop_qlt_false 3).
  2:{ apply Qle_shift_div_r; [qlra|]. qlra. }
  rewrite (crop_qlt_false _ (33 # 100)).
  2:{ apply Qle_shift_div_l; [qlra|]. qlra. }
  simpl. eexists; split; [reflexivity|]. simpl.
  split; [exact QX|]. split; [exact QY|]. split; [exact Hw|]. split; [exact Hw|].
  rewrite QX, QY, Hw. split; qlra.
Qed.


Lemma read_repeat_ne (v w : Z) (n : nat) (i : Z) : v <> w -> read (repeat v n) i <> Some w.
Proof.
  intros Hvw. unfold read. destruct (i <? 0); [discriminate|].
  intros Hl. apply list_elem_of_lookup_2, list_elem_of_In, repeat_spec in Hl. congruence.
Qed.

(** Witness for C4: a 10x10 mask with no foreground and [minCropSize = 1]. *)
Lemma findOptimalCropBounds_empty_mask_witness :
  exists b,
    AutoCrop.findOptimalCropBounds (repeat 0 100) 10 10
      (AutoCrop.mkAutoCropOptions (Some 0%Q) (Some 1%Q)) = Some b /\
    (AutoCrop.cb_x b == inject_Z (js_round ((inject_Z 10 - Qmin (inject_Z 10) (inject_Z 10) * (8 # 10)) / 2)) /\
     AutoCrop.cb_y b == inject_Z (js_round ((inject_Z 10 - Qmin (inject_Z 10) (inject_Z 10) * (8 # 10)) / 2)) /\
     AutoCrop.cb_width b == Qmin (inject_Z 10) (inject_Z 10) * (8 # 10) /\
     AutoCrop.cb_height b == Qmin (inject_Z 10) (inject_Z 10) * (8 # 10) /\
     -(1 # 2) <= AutoCrop.cb_x b + AutoCrop.cb_width b * (1 # 2) - inject_Z 10 * (1 # 2) <= 1 # 2 /\
     -(1 # 2) <= AutoCrop.cb_y b + AutoCrop.cb_height b * (1 # 2) - inject_Z 10 * (1 # 2) <= 1 # 2)%Q.
Proof.
  apply (findOptimalCropBounds_empty_mask (repeat 0 100) 10 10 1%Q); try lia.
  - intros x y _ _. apply read_repeat_ne. lia.
  - apply Qle_bool_iff. vm_compute. reflexivity.
Defined.

(** Counterexample to C4 as stated: with the default options
    ([paddingPercentage = 0.15], [minCropSize = 100]) a 10x10 image with an
    all-zero mask gets the whole 10x10 image, not a square of side
    0.8 * 10 = 8: the minimum-size stage enlarges the fallback square and the
    padding stage clamps it to the image. *)
Lemma findOptimalCropBounds_empty_mask_defaults :
  AutoCrop.findOptimalCropBounds (repeat 0 100) 10 10 (AutoCrop.mkAutoCropOptions None None)
    = Some (AutoCrop.mkCropBounds 0 0 10 10) /\
  ~ (10 == Qmin (inject_Z 10) (inject_Z 10) * (8 # 10))%Q.
Proof. split; [vm_compute; reflexivity | intros E; vm_compute in E; discriminate E]. Qed.

Lemma crop_qlt_false_inv (a b : Q) : AutoCrop.qlt a b = false -> (b <= a)%Q.
Proof. unfold AutoCrop.qlt. rewrite negb_false_iff. apply Qle_bool_iff. Qed.

Lemma integral_max0_minus (q : Q) (p : Z) :
  integral q -> integral (Qmax 0 (q - inject_Z p)).
Proof.
  intros [n Hn]. destruct (Q.max_spec 0 (q - inject_Z p)) as [[_ E]|[_ E]].
  - exists (n - p). rewrite E, Hn. unfold Z.sub. rewrite inject_Z_plus, inject_Z_opp. reflexivity.
  - exists 0. rewrite E. reflexivity.
Qed.

Lemma ensure_min_size_integral (b : AutoCrop.CropBounds) (mcs : Q) :
  integral (AutoCrop.cb_x b) -> integral (AutoCrop.cb_y b) ->
  integral (AutoCrop.cb_x (AutoCrop.ensure_min_size b mcs)) /\
  integral (AutoCrop.cb_y (AutoCrop.ensure_min_size b mcs)).
Proof.
  intros Hx Hy. unfold AutoCrop.ensure_min_size.
  destruct (_ || _); simpl; [|split; assumption].
  split; apply integral_max0_minus; assumption.
Qed.

Lemma applyCropPadding_within (b : AutoCrop.CropBounds) (W H : Z) (pp : Q) :
  integral (AutoCrop.cb_x b) -> integral (AutoCrop.cb_y b) ->
  within_image W H (AutoCrop.applyCropPadding b W H pp).
Proof.
  intros Hx Hy. unfold AutoCrop.applyCropPadding, within_image. simpl.
  split; [|split; apply integral_max0_minus; assumption].
  split; [apply Q.le_max_l|]. split; [apply Q.le_max_l|].
  split.
  - match goal with |- context [if AutoCrop.qlt ?a ?b then _ else _] =>
      destruct (AutoCrop.qlt a b) eqn:E end;
      [qlra | apply crop_qlt_false_inv in E; exact E].
  - match goal with |- context [if AutoCrop.qlt ?a ?b then _ else _] =>
      destruct (AutoCrop.qlt a b) eqn:E end;
      [qlra | apply crop_qlt_false_inv in E; exact E].
Qed.

Lemma recenter (k : Z) (a t L : Q) :
  0 <= k -> (t <= a)%Q -> (inject_Z k + a <= L)%Q ->
  let c := Qmax 0 (inject_Z (js_round (inject_Z k + a / 2 - t / 2))) in
  (0 <= c /\ c + t <= L)%Q /\ integral c.
Proof.
  intros Hk Hta HL c.
  assert (Qk : (0 <= inject_Z k)%Q) by (apply (Qle_inject 0); exact Hk).
  set (r := js_round (inject_Z k + a / 2 - t / 2)) in c.
  pose proof (js_round_near (inject_Z k + a / 2 - t / 2)) as [_ Hr]. fold r in Hr.
  unfold Qdiv in Hr. change (/ 2)%Q with (1 # 2) in Hr.
  unfold c. destruct (Q.max_spec 0 (inject_Z r)) as [[Hpos E]|[Hneg E]].
  - split; [rewrite E; split; [qlra|]|exists r; rewrite E; reflexivity].
    destruct (Qlt_le_dec (a - t) 1) as [Hlt|Hge].
    + assert (Hrk : r <= k).
      { assert (Hlt' : (inject_Z r < inject_Z (k + 1))%Q)
          by (rewrite inject_Z_plus; change (inject_Z 1) with 1%Q; qlra).
        rewrite <- Zlt_Qlt in Hlt'. lia. }
      apply Qle_inject in Hrk. qlra.
    + qlra.
  - split; [rewrite E; split; qlra|exists 0; rewrite E; reflexivity].
Qed.

Lemma normalize_aspect_within (b : AutoCrop.CropBounds) (W H : Z) :
  within_image W H b -> within_image W H (AutoCrop.normalize_aspect b).
Proof.
  intros Hb. unfold AutoCrop.normalize_aspect.
  destruct (AutoCrop.aspect_extreme _ _); [|exact Hb].
  destruct Hb as ((Hx0 & Hy0 & HxW & HyH) & [n Hn] & [k Hk]).
  set (t := Qmin (AutoCrop.cb_width b) (AutoCrop.cb_height b)).
  assert (Htw : (t <= AutoCrop.cb_width b)%Q) by apply Q.le_min_l.
  assert (Hth : (t <= AutoCrop.cb_height b)%Q) by apply Q.le_min_r.
  rewrite (js_round_Qeq (AutoCrop.cb_x b + AutoCrop.cb_width b / 2 - t / 2)
             (inject_Z n + AutoCrop.cb_width b / 2 - t / 2)) by (rewrite Hn; reflexivity).
  rewrite (js_round_Qeq (AutoCrop.cb_y b + AutoCrop.cb_height b / 2 - t / 2)
             (inject_Z k + AutoCrop.cb_height b / 2 - t / 2)) by (rewrite Hk; reflexivity).
  assert (Hn0 : 0 <= n) by (rewrite Zle_Qle; rewrite <- Hn; exact Hx0).
  assert (Hk0 : 0 <= k) by (rewrite Zle_Qle; rewrite <- Hk; exact Hy0).
  destruct (recenter n (AutoCrop.cb_width b) t (inject_Z W) Hn0 Htw ltac:(rewrite <- Hn; exact HxW))
    as ((A1 & A2) & A3).
  destruct (recenter k (AutoCrop.cb_height b) t (inject_Z H) Hk0 Hth ltac:(rewrite <- Hk; exact HyH))
    as ((B1 & B2) & B3).
  unfold within_image; simpl. auto.
Qed.

Lemma start_bounds_integral (seg : list Z) (W H : Z) :
  let b := match AutoCrop.findSubjectBounds seg W H with
           | Some b => b | None => AutoCrop.center_fallback W H end in
  integral (AutoCrop.cb_x b) /\ integral (AutoCrop.cb_y b).
Proof.
  intros b. unfold b, AutoCrop.findSubjectBounds.
  destruct (_ =? 0); simpl; split; eexists; reflexivity.
Qed.

(** For every mask and every [paddingPercentage] and [minCropSize] (given
    or defaulted), on a [W] x [H] image with W, H >= 1,
    [findOptimalCropBounds] returns a rectangle with x >= 0, y >= 0,
    x + width <= W and y + height <= H, whose x and y are integers. *)
Theorem findOptimalCropBounds_within_image (seg : list Z) (W H : Z) (options : AutoCrop.AutoCropOptions)
  (HW : 1 <= W) (HH : 1 <= H) :
  exists b,
    AutoCrop.findOptimalCropBounds seg W H options = Some b /\
    (0 <= AutoCrop.cb_x b /\ 0 <= AutoCrop.cb_y b /\
     AutoCrop.cb_x b + AutoCrop.cb_width b <= inject_Z W /\
     AutoCrop.cb_y b + AutoCrop.cb_height b <= inject_Z H)%Q /\
    (exists n, AutoCrop.cb_x b == inject_Z n)%Q /\ (exists n, AutoCrop.cb_y b == inject_Z n)%Q.
Proof.
  eexists; split; [reflexivity|].
  apply normalize_aspect_within, applyCropPadding_within;
    apply ensure_min_size_integral; apply start_bounds_integral.
Qed.

(** The 160x126 image with an all-zero mask and the default options. *)
Lemma findOptimalCropBounds_within_image_witness :
  exists b,
    AutoCrop.findOptimalCropBounds (repeat 0 (160 * 126)) 160 126
      (AutoCrop.mkAutoCropOptions None None) = Some b /\
    (0 <= AutoCrop.cb_x b /\ 0 <= AutoCrop.cb_y b /\
     AutoCrop.cb_x b + AutoCrop.cb_width b <= inject_Z 160 /\
     AutoCrop.cb_y b + AutoCrop.cb_height b <= inject_Z 126)%Q /\
    (exists n, AutoCrop.cb_x b == inject_Z n)%Q /\ (exists n, AutoCrop.cb_y b == inject_Z n)%Q.
Proof. apply findOptimalCropBounds_within_image; lia. Defined.

(** A [cropImageData] whose allocated length is not a multiple of 4 fails:
    its copy loop only writes in place, and the [ImageData] constructor
    refuses the array. *)
Lemma cropImageData_js_length_not_mult4 (img : ImageData) (b : AutoCrop.CropBounds) (n : Z) :
  AutoCrop.to_index (AutoCrop.cb_width b * AutoCrop.cb_height b * 4) = Some n ->
  0 <= n -> n mod 4 <> 0 ->
  AutoCrop.cropImageData_js img b = None.
Proof.
  intros Hn Hn0 Hmod. destruct b as [x y w h]. simpl in Hn.
  unfold AutoCrop.cropImageData_js. rewrite Hn.
  match goal with |- context [for_range 0 (Qceiling h) ?f ?s0] =>
    assert (Hl : length (for_range 0 (Qceiling h) f s0) = Z.to_nat n) end.
  { apply (for_range_preserve (fun d => length d = Z.to_nat n));
      [apply repeat_length|].
    intros cy d _ Hd.
    apply (for_range_preserve (fun d => length d = Z.to_nat n)); [exact Hd|].
    intros cx d' _ Hd'. unfold AutoCrop.write_q.
    repeat match goal with |- context [AutoCrop.q_index ?i] =>
      destruct (AutoCrop.q_index i) end;
      rewrite ?length_write; exact Hd'. }
  destruct (AutoCrop.enforce_range_ulong w) as [sw|]; [|reflexivity].
  destruct (AutoCrop.enforce_range_ulong h) as [sh|]; [|reflexivity].
  unfold AutoCrop.imageData_new. rewrite Hl, Z2Nat.id by exact Hn0.
  destruct (_ || _); [reflexivity|].
  replace (n mod 4 =? 0) with false by (symmetry; apply Z.eqb_neq; exact Hmod).
  rewrite orb_true_r. reflexivity.
Qed.

(** C6 (code_bug): with the default options, a 160x126 image with an
    all-zero mask gets the rectangle {15, 0, 130.8, 126}. Its width is not an
    integer: the fallback rounds x and y but not the 0.8 * 126 = 100.8 side,
    which keeps its fraction through the padding stage. [cropImageData], to
    which [autoCropImage] passes that rectangle, then allocates
    130.8 * 126 * 4 = 65923.2, i.e. 65923 bytes, which is not a multiple of
    4, so it fails on every source image. *)
Theorem findOptimalCropBounds_fallback_crop_fails :
  exists b,
    AutoCrop.findOptimalCropBounds (repeat 0 (160 * 126)) 160 126
      (AutoCrop.mkAutoCropOptions None None) = Some b /\
    (AutoCrop.cb_x b == 15 /\ AutoCrop.cb_y b == 0 /\
     AutoCrop.cb_width b == 654 # 5 /\ AutoCrop.cb_height b == 126)%Q /\
    ~ (exists n, AutoCrop.cb_width b == inject_Z n)%Q /\
    forall img, AutoCrop.cropImageData_js img b = None.
Proof.
  eexists. split; [vm_compute; reflexivity|].
  split; [repeat split; reflexivity|]. split.
  - intros [n Hn]. unfold Qeq in Hn. simpl in Hn. lia.
  - intros img. apply (cropImageData_js_length_not_mult4 img _ 65923);
      [vm_compute; reflexivity | lia | vm_compute; discriminate].
Qed.

Lemma rd_nth (d : list Z) (k : nat) : rd d (Z.of_nat k) = nth k d 0.
Proof.
  unfold rd, read. replace (Z.of_nat k <? 0) with false by (symmetry; apply Z.ltb_ge; lia).
  rewrite Nat2Z.id, nth_lookup. reflexivity.
Qed.

Lemma pixels_of_length (d : list Z) : length (Histogram.pixels_of d) = (length d / 4)%nat.
Proof.
  remember (length d) as len eqn:Hlen.
  revert d Hlen. induction len as [len IH] using (well_founded_induction lt_wf).
  intros d Hlen.
  destruct d as [|r [|g [|b [|a t]]]]; simpl in Hlen; subst len; try reflexivity.
  simpl Histogram.pixels_of. simpl length.
  rewrite (IH (length t)) by lia.
  replace (S (S (S (S (length t))))) with (1 * 4 + length t)%nat by lia.
  rewrite Nat.div_add_l by lia. reflexivity.
Qed.

Lemma pixels_of_nth (d : list Z) (j : nat) :
  (4 * j + 3 < length d)%nat ->
  nth j (Histogram.pixels_of d) (0, 0, 0, 0) =
  (rd d (4 * Z.of_nat j), rd d (4 * Z.of_nat j + 1), rd d (4 * Z.of_nat j + 2),
   rd d (4 * Z.of_nat j + 3)).
Proof.
  replace (4 * Z.of_nat j) with (Z.of_nat (4 * j)) by lia.
  replace (Z.of_nat (4 * j) + 1) with (Z.of_nat (4 * j + 1)) by lia.
  replace (Z.of_nat (4 * j) + 2) with (Z.of_nat (4 * j + 2)) by lia.
  replace (Z.of_nat (4 * j) + 3) with (Z.of_nat (4 * j + 3)) by lia.
  rewrite !rd_nth.
  revert d. induction j as [|j IH]; intros d Hj.
  - destruct d as [|r [|g [|b [|a t]]]]; simpl in Hj; try lia. reflexivity.
  - destruct d as [|r [|g [|b [|a t]]]]; simpl in Hj; try lia.
    replace (4 * S j + 1)%nat with (S (S (S (S (4 * j + 1)))))%nat by lia.
    replace (4 * S j + 2)%nat with (S (S (S (S (4 * j + 2)))))%nat by lia.
    replace (4 * S j + 3)%nat with (S (S (S (S (4 * j + 3)))))%nat by lia.
    replace (4 * S j)%nat with (S (S (S (S (4 * j)))))%nat by lia.
    cbn [Histogram.pixels_of nth]. apply IH. lia.
Qed.

Lemma stride_positions_nil (n s j : nat) :
  (1 <= s)%nat -> (n <= j)%nat -> Palette.stride_positions n s j = [].
Proof.
  intros Hs Hj. unfold Palette.stride_positions.
  replace (n - j + s - 1)%nat with (s - 1)%nat by lia.
  rewrite Nat.div_small by lia. reflexivity.
Qed.

Lemma stride_positions_cons (n s j : nat) :
  (1 <= s)%nat -> (j < n)%nat ->
  Palette.stride_positions n s j = j :: Palette.stride_positions n s (j + s).
Proof.
  intros Hs Hj. unfold Palette.stride_positions.
  assert (Hc : ((n - j + s - 1) / s)%nat = S ((n - (j + s) + s - 1) / s)).
  { replace (n - j + s - 1)%nat with (1 * s + (n - j - 1))%nat by lia.
    rewrite Nat.div_add_l by lia. f_equal.
    destruct (Nat.le_gt_cases s (n - j)) as [Hge|Hlt].
    - f_equal. lia.
    - rewrite !Nat.div_small by lia. reflexivity. }
  rewrite Hc. simpl seq. cbn [map]. f_equal; [lia|].
  rewrite <- seq_shift, map_map. apply map_ext. intros t. lia.
Qed.

Lemma sample_elem (r g b a : Z) (L : list (Z * Z * Z * Z)) :
  let M := map Palette.pixel_color (filter Palette.spec_keep L) in
  (if a <? 128 then M
   else if Palette.qlt (Palette.lightness r g b) 5 || Palette.qlt 95 (Palette.lightness r g b)
        then M else Palette.mkColorRGB r g b :: M) =
  map Palette.pixel_color (filter Palette.spec_keep ((r, g, b, a) :: L)).
Proof.
  intros M. rewrite filter_cons. unfold Palette.spec_keep.
  rewrite Z.ltb_antisym.
  destruct (128 <=? a); simpl; [|reflexivity].
  destruct (Palette.qlt (Palette.lightness r g b) 5 || Palette.qlt 95 (Palette.lightness r g b));
    reflexivity.
Qed.

Lemma sample_loop_stride (d : list Z) (n s : nat) (fuel j : nat) :
  length d = (4 * n)%nat -> (1 <= s)%nat -> (n - j < fuel)%nat ->
  Palette.sample_loop d (Some (Z.of_nat s)) fuel (4 * Z.of_nat j) =
  map Palette.pixel_color (filter Palette.spec_keep
    (map (fun k => nth k (Histogram.pixels_of d) (0, 0, 0, 0)) (Palette.stride_positions n s j))).
Proof.
  intros Hlen Hs. revert j. induction fuel as [|f IH]; intros j Hf; [lia|].
  cbn [Palette.sample_loop].
  destruct (Nat.lt_ge_cases j n) as [Hj|Hj].
  - replace (4 * Z.of_nat j <? Z.of_nat (length d)) with true
      by (symmetry; apply Z.ltb_lt; lia).
    replace (4 * Z.of_nat j + Z.of_nat s * 4) with (4 * Z.of_nat (j + s)%nat) by lia.
    rewrite (IH (j + s)%nat) by lia.
    rewrite (stride_positions_cons n s j Hs Hj). cbn [map].
    rewrite pixels_of_nth by lia. apply sample_elem.
  - replace (4 * Z.of_nat j <? Z.of_nat (length d)) with false
      by (symmetry; apply Z.ltb_ge; lia).
    rewrite stride_positions_nil by lia. reflexivity.
Qed.

Lemma samplingInterval_pos (tp ms s : Z) : Palette.samplingInterval tp ms = Some s -> 1 <= s.
Proof.
  unfold Palette.samplingInterval. intros E.
  destruct (ms =? 0); [destruct (tp <? 0); [injection E as <-; lia | discriminate]|].
  injection E as <-. lia.
Qed.

Lemma samplePixels_working_set (img : ImageData) (ms : Z) :
  (length (data img) mod 4 = 0)%nat ->
  Palette.samplePixels img ms = Palette.working_set img ms.
Proof.
  intros Hm. unfold Palette.samplePixels, Palette.working_set. cbv zeta.
  rewrite pixels_of_length.
  set (d := data img) in *.
  assert (Hlen : length d = (4 * (length d / 4))%nat).
  { pose proof (Nat.div_mod (length d) 4 ltac:(lia)). lia. }
  destruct (Palette.samplingInterval _ ms) as [s|] eqn:Es.
  - apply samplingInterval_pos in Es.
    transitivity (Palette.sample_loop d (Some (Z.of_nat (Z.to_nat s))) (S (length d))
                    (4 * Z.of_nat 0)).
    { f_equal; try f_equal; lia. }
    apply sample_loop_stride; lia.
  - destruct (length d / 4)%nat as [|n] eqn:En.
    + cbn. replace (length d) with 0%nat by lia. reflexivity.
    + cbn [seq firstn map Palette.sample_loop].
      replace (0 <? Z.of_nat (length d)) with true by (symmetry; apply Z.ltb_lt; lia).
      pose proof (pixels_of_nth d 0 ltac:(lia)) as E0. simpl in E0. rewrite E0.
      apply (sample_elem _ _ _ _ []).
Qed.

(** C8. For every buffer whose length is a multiple of 4 (as for every
    [ImageData]), every [k], [maxIterations] and [maxSamples] and whatever the
    clustering does: [extractColorPalette] ends in the insufficient-samples
    error exactly when the working set (pixels at stride
    max(1, floor(totalPixels / maxSamples)), without those with alpha < 128
    or lightness outside [5, 95]) has fewer than [k] members, and then the
    outcome is that error, with no palette. *)
Theorem extractColorPalette_insufficient_iff
  (kmeans_phase : list Palette.ColorRGB -> Z -> Z -> option (list Palette.ColorRGB))
  (img : ImageData) (k maxIterations maxSamples : Z)
  (Hwf : (length (data img) mod 4 = 0)%nat) :
  ((exists found k', Palette.extractColorPalette kmeans_phase img k maxIterations maxSamples
                       = Palette.InsufficientSamples found k') <->
   Z.of_nat (length (Palette.working_set img maxSamples)) < k) /\
  (Z.of_nat (length (Palette.working_set img maxSamples)) < k ->
   Palette.extractColorPalette kmeans_phase img k maxIterations maxSamples
     = Palette.InsufficientSamples (Z.of_nat (length (Palette.working_set img maxSamples))) k).
Proof.
  rewrite <- samplePixels_working_set by exact Hwf.
  unfold Palette.extractColorPalette. cbv zeta.
  destruct (Z.of_nat (length (Palette.samplePixels img maxSamples)) <? k) eqn:E.
  - apply Z.ltb_lt in E. split; [split; [intros _; exact E | intros _; eauto] | intros _; reflexivity].
  - apply Z.ltb_ge in E. split; [|intros; lia]. split; [|intros; lia].
    intros (found & k' & Hout).
    destruct (kmeans_phase _ _ _); discriminate Hout.
Qed.

(** Witness for C8: a 2x2 opaque image with one black pixel (lightness 0,
    left out) and three grey ones, asked for 5 clusters with 2 samples
    (stride 2): the working set has 1 member. *)
Lemma extractColorPalette_insufficient_iff_witness :
  let img := mkImageData 2 2 [0; 0; 0; 255; 128; 128; 128; 255;
                              128; 128; 128; 255; 128; 128; 128; 255] in
  ((exists found k', Palette.extractColorPalette (fun _ _ _ => None) img 5 50 2
                       = Palette.InsufficientSamples found k') <->
   Z.of_nat (length (Palette.working_set img 2)) < 5) /\
  (Z.of_nat (length (Palette.working_set img 2)) < 5 ->
   Palette.extractColorPalette (fun _ _ _ => None) img 5 50 2
     = Palette.InsufficientSamples (Z.of_nat (length (Palette.working_set img 2))) 5).
Proof. intros img. apply extractColorPalette_insufficient_iff. reflexivity. Defined.


(** calculateBrightnessAdjustment: the result lies in [-80, 80]; it is
    positive exactly when the average luminance is below 128 and zero
    exactly when it equals 128. *)
Lemma brightness_adjustment_range (avg : Q) :
  let a := Histogram.calculateBrightnessAdjustment avg in
  (-80 <= a <= 80)%Q /\ ((0 < a)%Q <-> (avg < 128)%Q) /\ ((a == 0)%Q <-> (avg == 128)%Q).
Proof.
  intros a. unfold a, Histogram.calculateBrightnessAdjustment.
  set (t := ((128 - avg) / 128 * 60)%Q).
  assert (Ht : (t == (128 - avg) * (15 # 32))%Q) by (unfold t; field).
  clearbody t.
  destruct (Qlt_le_dec t 80) as [Hlt|Hge].
  - rewrite (Q.min_r 80 t) by qlra.
    destruct (Qlt_le_dec t (-80)) as [Hlt2|Hge2].
    + rewrite (Q.max_l (-80) t) by qlra. repeat split; intros; qlra.
    + rewrite (Q.max_r (-80) t) by qlra. repeat split; intros; qlra.
  - rewrite (Q.min_l 80 t) by qlra. rewrite (Q.max_r (-80) 80) by qlra.
    repeat split; intros; qlra.
Qed.

(** calculateContrastAdjustment: the result lies in [-20, 50]; it is
    positive exactly when the contrast level is below 0.8 and zero exactly
    when it equals 0.8. *)
Lemma contrast_adjustment_range (c : Q) :
  let a := Histogram.calculateContrastAdjustment c in
  (-20 <= a <= 50)%Q /\ ((0 < a)%Q <-> (c < 4 # 5)%Q) /\ ((a == 0)%Q <-> (c == 4 # 5)%Q).
Proof.
  intros a. unfold a, Histogram.calculateContrastAdjustment. cbv zeta.
  destruct (Histogram.qlt 0 ((8 # 10) - c)) eqn:E.
  - apply qlt_true in E.
    destruct (Qlt_le_dec (((8 # 10) - c) * 100) 50).
    + rewrite (Q.min_r 50 _) by qlra. repeat split; intros; qlra.
    + rewrite (Q.min_l 50 _) by qlra. repeat split; intros; qlra.
  - apply qlt_false in E.
    destruct (Qlt_le_dec (((8 # 10) - c) * 50) (-20)).
    + rewrite (Q.max_l (-20) _) by qlra. repeat split; intros; qlra.
    + rewrite (Q.max_r (-20) _) by qlra. repeat split; intros; qlra.
Qed.

(** calculateSaturationAdjustment: the result lies in [-20, 40]; it is
    positive exactly below 0.4, negative exactly above 0.6 and zero exactly
    on [0.4, 0.6]. *)
Lemma saturation_adjustment_range (s : Q) :
  let a := Histogram.calculateSaturationAdjustment s in
  (-20 <= a <= 40)%Q /\ ((0 < a)%Q <-> (s < 2 # 5)%Q) /\
  ((a < 0)%Q <-> (3 # 5 < s)%Q) /\ ((a == 0)%Q <-> (2 # 5 <= s <= 3 # 5)%Q).
Proof.
  intros a. unfold a, Histogram.calculateSaturationAdjustment. cbv zeta.
  destruct (Histogram.qlt 0 ((4 # 10) - s)) eqn:E.
  - apply qlt_true in E.
    destruct (Qlt_le_dec (((4 # 10) - s) * 150) 40).
    + rewrite (Q.min_r 40 _) by qlra. repeat split; intros; qlra.
    + rewrite (Q.min_l 40 _) by qlra. repeat split; intros; qlra.
  - apply qlt_false in E.
    destruct (Histogram.qlt (6 # 10) s) eqn:E2.
    + apply qlt_true in E2.
      destruct (Qlt_le_dec (((4 # 10) - s) * 100) (-20)).
      * rewrite (Q.max_l (-20) _) by qlra. repeat split; intros; qlra.
      * rewrite (Q.max_r (-20) _) by qlra. repeat split; intros; qlra.
    + apply qlt_false in E2. repeat split; intros; qlra.
Qed.



Lemma pixels_of_bytes (d : list Z) : byte_list d -> Forall byte_pixel (Histogram.pixels_of d).
Proof.
  unfold byte_list. remember (length d) as len eqn:Hlen.
  revert d Hlen. induction len as [len IH] using (well_founded_induction lt_wf).
  intros d Hlen Hd.
  destruct d as [|r [|g [|b [|a t]]]]; simpl; try constructor.
  - inversion Hd as [|? ? Hr Hd1]; subst. inversion Hd1 as [|? ? Hg Hd2]; subst.
    inversion Hd2 as [|? ? Hb Hd3]; subst. inversion Hd3 as [|? ? Ha Hd4]; subst.
    simpl. tauto.
  - apply (IH (length t)); [simpl in Hlen; lia | reflexivity |].
    inversion Hd as [|? ? Hr Hd1]; subst. inversion Hd1 as [|? ? Hg Hd2]; subst.
    inversion Hd2 as [|? ? Hb Hd3]; subst. inversion Hd3 as [|? ? Ha Hd4]; subst. exact Hd4.
Qed.

Lemma js_round_byte (q : Q) : (0 <= q <= 255)%Q -> 0 <= js_round q <= 255.
Proof.
  intros Hq. pose proof (js_round_near q) as [H1 H2].
  assert (inject_Z (js_round q) < 256)%Q by qlra.
  assert (-1 < inject_Z (js_round q))%Q by qlra.
  change 256%Q with (inject_Z 256) in *. change (-1)%Q with (inject_Z (-1)) in *.
  rewrite <- Zlt_Qlt in *. lia.
Qed.

Lemma byte_Q (v : Z) : 0 <= v <= 255 -> (0 <= inject_Z v <= 255)%Q.
Proof.
  intros Hv. change 0%Q with (inject_Z 0). change 255%Q with (inject_Z 255).
  rewrite <- !Zle_Qle. exact Hv.
Qed.

Lemma luminance_byte (r g b : Z) :
  0 <= r <= 255 -> 0 <= g <= 255 -> 0 <= b <= 255 -> 0 <= Histogram.luminance r g b <= 255.
Proof.
  intros Hr Hg Hb. unfold Histogram.luminance. apply js_round_byte.
  apply byte_Q in Hr, Hg, Hb. qlra.
Qed.

Lemma saturation_unit (r g b : Z) :
  0 <= r <= 255 -> 0 <= g <= 255 -> 0 <= b <= 255 -> (0 <= Histogram.saturation r g b <= 1)%Q.
Proof.
  intros Hr Hg Hb. unfold Histogram.saturation.
  set (mx := Z.max r (Z.max g b)). set (mn := Z.min r (Z.min g b)).
  destruct (mx =? 0) eqn:E; [split; discriminate|].
  apply Z.eqb_neq in E.
  assert (0 <= mn <= mx) by lia.
  assert (Hmx : (0 < inject_Z mx)%Q) by (change 0%Q with (inject_Z 0); rewrite <- Zlt_Qlt; lia).
  split.
  - apply Qle_shift_div_l; [exact Hmx|]. rewrite Qmult_0_l.
    change 0%Q with (inject_Z 0). rewrite <- Zle_Qle. lia.
  - apply Qle_shift_div_r; [exact Hmx|]. rewrite Qmult_1_l. rewrite <- Zle_Qle. lia.
Qed.

Lemma fold_add_acc (l : list Z) (acc : Z) : fold_left Z.add l acc = acc + fold_left Z.add l 0.
Proof.
  revert acc. induction l as [|x l IH]; intros acc; simpl; [lia|].
  rewrite (IH (acc + x)), (IH (0 + x)). lia.
Qed.

Lemma fold_add_alter_succ (l : list Z) (i : nat) :
  (i < length l)%nat -> fold_left Z.add (alter (Z.add 1) i l) 0 = fold_left Z.add l 0 + 1.
Proof.
  revert i. induction l as [|x l IH]; intros i Hi; simpl in Hi; [lia|].
  destruct i as [|i]; simpl.
  - rewrite (fold_add_acc l (0 + (1 + x))), (fold_add_acc l (0 + x)). lia.
  - change (list_alter (Z.add 1) i l) with (alter (Z.add 1) i l).
    rewrite (fold_add_acc (alter _ i l) (0 + x)), (fold_add_acc l (0 + x)). rewrite IH by lia. lia.
Qed.

(** The state of the pixel loop after [ps], from a state [st] reached
    after [c] non-transparent pixels. *)
Lemma hist_fold_stats (ps : list (Z * Z * Z * Z)) (st : Histogram.HistState) (c : Z) :
  Forall byte_pixel ps ->
  length (Histogram.lumHist st) = 256%nat ->
  fold_left Z.add (Histogram.lumHist st) 0 = c ->
  0 <= Histogram.totalLuminance st <= 255 * c ->
  (0 <= Histogram.totalSaturation st <= inject_Z c)%Q ->
  let st' := fold_left Histogram.hist_step ps st in
  let c' := c + Z.of_nat (length (filter (fun '(_, _, _, a) => negb (a =? 0)) ps)) in
  length (Histogram.lumHist st') = 256%nat /\
  fold_left Z.add (Histogram.lumHist st') 0 = c' /\
  0 <= Histogram.totalLuminance st' <= 255 * c' /\
  (0 <= Histogram.totalSaturation st' <= inject_Z c')%Q.
Proof.
  revert st c. induction ps as [|[[[r g] b] a] ps IH]; intros st c Hps Hl Hs Hlum Hsat.
  - simpl. rewrite Z.add_0_r. auto.
  - apply Forall_cons in Hps as [Hp Hps']. destruct Hp as (Hr & Hg & Hb & Ha).
    cbv zeta. cbn [fold_left].
    destruct (Z.eqb_spec a 0) as [->|Ea].
    + rewrite filter_cons_False by (simpl; auto).
      apply (IH st c Hps' Hl Hs Hlum Hsat).
    + rewrite filter_cons_True by (simpl; apply Is_true_true; apply negb_true_iff, Z.eqb_neq; exact Ea).
      cbn [length]. rewrite Nat2Z.inj_succ.
      replace (c + Z.succ _) with ((c + 1) + Z.of_nat (length (filter (fun '(_, _, _, a) => negb (a =? 0)) ps))) by lia.
      pose proof (luminance_byte r g b Hr Hg Hb) as HL.
      pose proof (saturation_unit r g b Hr Hg Hb) as HS.
      assert (Hstep : Histogram.hist_step st (r, g, b, a) =
                Histogram.mkHistState (alter (Z.add 1) (Z.to_nat (Histogram.luminance r g b))
                                         (Histogram.lumHist st))
                  (Histogram.totalLuminance st + Histogram.luminance r g b)
                  (Histogram.totalSaturation st + Histogram.saturation r g b)).
      { unfold Histogram.hist_step. replace (a =? 0) with false by (symmetry; apply Z.eqb_neq; exact Ea).
        reflexivity. }
      rewrite Hstep.
      apply IH; simpl.
      * exact Hps'.
      * rewrite length_alter. exact Hl.
      * rewrite fold_add_alter_succ by lia. lia.
      * lia.
      * rewrite inject_Z_plus. change (inject_Z 1) with 1%Q. qlra.
Qed.

Lemma build_histogram_stats (d : list Z) :
  byte_list d ->
  let st := Histogram.build_histogram d in
  let c := Z.of_nat (length (Histogram.opaque_pixels d)) in
  fold_left Z.add (Histogram.lumHist st) 0 = c /\
  0 <= Histogram.totalLuminance st <= 255 * c /\
  (0 <= Histogram.totalSaturation st <= inject_Z c)%Q.
Proof.
  intros Hd. pose proof (pixels_of_bytes d Hd) as Hps.
  unfold Histogram.build_histogram, Histogram.opaque_pixels.
  assert (H0 : (0 <= Histogram.totalSaturation (Histogram.mkHistState (repeat 0%Z 256) 0%Z 0%Q)
                 <= inject_Z 0)%Q) by (simpl; split; unfold Qle; simpl; lia).
  destruct (hist_fold_stats (Histogram.pixels_of d) (Histogram.mkHistState (repeat 0%Z 256) 0%Z 0%Q) 0
              Hps eq_refl eq_refl (conj (Z.le_refl 0) (Z.le_refl 0)) H0) as (_ & H1 & H2 & H3).
  cbv zeta in *. rewrite Z.add_0_l in H1, H2, H3. auto.
Qed.

Lemma opaque_pixels_count (d : list Z) :
  (length (Histogram.opaque_pixels d) <= length d / 4)%nat.
Proof.
  unfold Histogram.opaque_pixels. rewrite <- pixels_of_length. apply length_filter.
Qed.

(** Discharges [byte_list] on a literal list. *)
Ltac byte_list_tac := unfold byte_list; repeat (apply List.Forall_cons; [lia|]); apply List.Forall_nil.

(** On a byte image, the luminance histogram of analyzeImageHistogram
    counts each pixel whose alpha byte is not 0 exactly once. *)
Theorem histogram_counts_nontransparent_pixels (img : ImageData) :
  byte_list (data img) ->
  fold_left Z.add (Histogram.lumHist (Histogram.build_histogram (data img))) 0
  = Z.of_nat (length (Histogram.opaque_pixels (data img))).
Proof. intros Hd. apply (build_histogram_stats _ Hd). Qed.

(** On a byte image with [data.length = width * height * 4] and at least
    one pixel, the average luminance lies in [0, 255] and the saturation
    level in [0, 1]. *)
Theorem histogram_averages_in_range (img : ImageData) :
  byte_list (data img) ->
  Z.of_nat (length (data img)) = width img * height img * 4 ->
  0 < width img * height img ->
  let res := Histogram.analyzeImageHistogram img in
  (0 <= Histogram.averageLuminance res <= 255)%Q /\ (0 <= Histogram.saturationLevel res <= 1)%Q.
Proof.
  intros Hd Hlen Hpos res. unfold res, Histogram.analyzeImageHistogram. simpl.
  destruct (build_histogram_stats _ Hd) as (_ & Hlum & Hsat).
  set (c := Z.of_nat (length (Histogram.opaque_pixels (data img)))) in *.
  set (n := width img * height img) in *.
  assert (Hc : c <= n).
  { unfold c. pose proof (opaque_pixels_count (data img)) as Hk.
    apply inj_le in Hk. rewrite Nat2Z.inj_div in Hk. change (Z.of_nat 4) with 4 in Hk.
    rewrite Hlen in Hk. rewrite Z.div_mul in Hk by lia. lia. }
  assert (Hn : (0 < inject_Z n)%Q) by (change 0%Q with (inject_Z 0); rewrite <- Zlt_Qlt; lia).
  assert (HcQ : (inject_Z c <= inject_Z n)%Q) by (rewrite <- Zle_Qle; lia).
  set (L := Histogram.totalLuminance _) in *. set (S := Histogram.totalSaturation _) in *.
  assert (HL : (0 <= inject_Z L <= 255 * inject_Z n)%Q).
  { split; [change 0%Q with (inject_Z 0); rewrite <- Zle_Qle; lia|].
    change 255%Q with (inject_Z 255). rewrite <- inject_Z_mult, <- Zle_Qle. lia. }
  split; split.
  - apply Qle_shift_div_l; [exact Hn|]. rewrite Qmult_0_l. qlra.
  - apply Qle_shift_div_r; [exact Hn|]. qlra.
  - apply Qle_shift_div_l; [exact Hn|]. rewrite Qmult_0_l. qlra.
  - apply Qle_shift_div_r; [exact Hn|]. qlra.
Qed.

Lemma histogram_averages_in_range_witness :
  let img := mkImageData 2 1 [255; 0; 0; 255; 0; 0; 0; 0] in
  byte_list (data img) /\ Z.of_nat (length (data img)) = width img * height img * 4 /\
  0 < width img * height img /\
  let res := Histogram.analyzeImageHistogram img in
  (0 <= Histogram.averageLuminance res <= 255)%Q /\ (0 <= Histogram.saturationLevel res <= 1)%Q.
Proof.
  intros img. assert (Hd : byte_list (data img)) by (simpl; byte_list_tac).
  split; [exact Hd|]. split; [reflexivity|]. split; [simpl; lia|].
  apply (histogram_averages_in_range img Hd); [reflexivity | simpl; lia].
Defined.

Lemma histogram_counts_nontransparent_pixels_witness :
  let img := mkImageData 2 1 [255; 0; 0; 255; 0; 0; 0; 0] in
  byte_list (data img) /\
  fold_left Z.add (Histogram.lumHist (Histogram.build_histogram (data img))) 0
  = Z.of_nat (length (Histogram.opaque_pixels (data img))).
Proof.
  intros img. assert (Hd : byte_list (data img)) by (simpl; byte_list_tac).
  split; [exact Hd | apply (histogram_counts_nontransparent_pixels img Hd)].
Defined.

Lemma contrast_level_unit (img : ImageData) :
  (0 <= Histogram.contrastLevel (Histogram.analyzeImageHistogram img) <= 1)%Q.
Proof.
  unfold Histogram.analyzeImageHistogram. simpl.
  destruct (build_histogram_shape (data img)) as [Hl Hf].
  pose proof (significant_bins_ordered _ Hl Hf) as Hord. cbv zeta in Hord.
  unfold Histogram.calculateContrastLevel.
  set (lo := default 0 _) in *. set (hi := default 255 _) in *.
  destruct Hord as [Hlo Hhi].
  unfold Qdiv, Qle, Qmult, Qinv, inject_Z. simpl. split; lia.
Qed.

(** The recommended contrast of analyzeImageHistogram always lies in
    [-10, 50]. *)
Theorem recommendedContrast_range (img : ImageData) :
  (-10 <= Histogram.recommendedContrast (Histogram.analyzeImageHistogram img) <= 50)%Q.
Proof.
  pose proof (contrast_level_unit img) as Hc.
  unfold Histogram.analyzeImageHistogram in *. simpl in *.
  set (c := Histogram.calculateContrastLevel _) in *.
  unfold Histogram.calculateContrastAdjustment. cbv zeta.
  destruct (Histogram.qlt 0 ((8 # 10) - c)) eqn:E.
  - apply qlt_true in E.
    destruct (Qlt_le_dec (((8 # 10) - c) * 100) 50).
    + rewrite (Q.min_r 50 _) by qlra. qlra.
    + rewrite (Q.min_l 50 _) by qlra. qlra.
  - apply qlt_false in E.
    destruct (Qlt_le_dec (((8 # 10) - c) * 50) (-20)).
    + rewrite (Q.max_l (-20) _) by qlra. qlra.
    + rewrite (Q.max_r (-20) _) by qlra. qlra.
Qed.



Section BoundingBox.

Variables (seg : list Z) (W H : Z).

Lemma bbox_inv_mono (D D' : Z -> Z -> Prop) (s : AutoCrop.SubjectScan) :
  (forall x y, mask_hit seg W H x y -> (D x y <-> D' x y)) ->
  bbox_scan_inv seg W H D s -> bbox_scan_inv seg W H D' s.
Proof.
  intros Heq [(H1 & H2 & H3 & H4 & H5 & H6)|(H1 & H2 & (y1 & Hy1 & Hm1) & (y2 & Hy2 & Hm2)
                                                & (x3 & Hx3 & Hm3) & (x4 & Hx4 & Hm4))].
  - left. do 5 (split; [assumption|]). intros x y Hd Hm. apply (H6 x y); [|exact Hm].
    apply (Heq x y Hm). exact Hd.
  - right. split; [assumption|]. split.
    + intros x y Hd Hm. apply H2; [apply (Heq x y Hm); exact Hd | exact Hm].
    + split; [exists y1; split; [apply (Heq _ _ Hm1); exact Hy1 | exact Hm1]|].
      split; [exists y2; split; [apply (Heq _ _ Hm2); exact Hy2 | exact Hm2]|].
      split; [exists x3; split; [apply (Heq _ _ Hm3); exact Hx3 | exact Hm3]|].
      exists x4; split; [apply (Heq _ _ Hm4); exact Hx4 | exact Hm4].
Qed.

Lemma bbox_scan_step (D : Z -> Z -> Prop) (m k : Z) (s : AutoCrop.SubjectScan) :
  0 <= m < W -> 0 <= k < H -> bbox_scan_inv seg W H D s ->
  bbox_scan_inv seg W H (fun x y => D x y \/ (x = m /\ y = k)) (AutoCrop.scan_step seg W m k s).
Proof.
  intros Hm Hk Hinv. unfold AutoCrop.scan_step.
  case_bool_decide as Hhit.
  - assert (Hmk : mask_hit seg W H m k) by (repeat split; lia || exact Hhit).
    right. simpl.
    destruct Hinv as [(H1 & H2 & H3 & H4 & H5 & H6)|(H1 & H2 & (y1 & Hy1 & Hm1) & (y2 & Hy2 & Hm2)
                                                & (x3 & Hx3 & Hm3) & (x4 & Hx4 & Hm4))].
    + rewrite H1, H2, H3, H4, H5.
      rewrite Z.min_r, Z.max_r, Z.min_r, Z.max_r by lia.
      split; [lia|]. split.
      * intros x y [Hd|[-> ->]] Hxy; [exfalso; exact (H6 x y Hd Hxy)| lia].
      * repeat split; eexists; (split; [right; split; reflexivity | exact Hmk]).
    + split; [lia|]. split.
      * intros x y [Hd|[-> ->]] Hxy; [|lia].
        destruct (H2 x y Hd Hxy). lia.
      * split; [|split; [|split]].
        -- destruct (Z.min_spec (AutoCrop.minX s) m) as [[_ ->]|[_ ->]];
             [exists y1; split; [left; exact Hy1 | exact Hm1] | exists k; split; [right; auto | exact Hmk]].
        -- destruct (Z.max_spec (AutoCrop.maxX s) m) as [[_ ->]|[_ ->]];
             [exists k; split; [right; auto | exact Hmk] | exists y2; split; [left; exact Hy2 | exact Hm2]].
        -- destruct (Z.min_spec (AutoCrop.minY s) k) as [[_ ->]|[_ ->]];
             [exists x3; split; [left; exact Hx3 | exact Hm3] | exists m; split; [right; auto | exact Hmk]].
        -- destruct (Z.max_spec (AutoCrop.maxY s) k) as [[_ ->]|[_ ->]];
             [exists m; split; [right; auto | exact Hmk] | exists x4; split; [left; exact Hx4 | exact Hm4]].
  - assert (Hmk : ~ mask_hit seg W H m k) by (intros (_ & _ & Hr); exact (Hhit Hr)).
    apply (bbox_inv_mono D); [|exact Hinv].
    intros x y Hxy. split; [intros Hd; left; exact Hd|].
    intros [Hd|[-> ->]]; [exact Hd | contradiction].
Qed.

Lemma subject_scan_bbox :
  bbox_scan_inv seg W H (fun x y => True) (AutoCrop.subject_scan seg W H).
Proof.
  apply (bbox_inv_mono (fun x y => y < Z.max 0 H)).
  { intros x y (Hx & Hy & _). split; [auto | lia]. }
  unfold AutoCrop.subject_scan.
  apply (for_range_ind (fun k s => bbox_scan_inv seg W H (fun x y => y < k) s)).
  - left. simpl. do 5 (split; [reflexivity|]). intros x y Hd (_ & Hy & _). lia.
  - intros k s' Hk Hs'.
    assert (HQ : bbox_scan_inv seg W H (fun x y => y < k \/ (y = k /\ x < Z.max 0 W))
        (for_range 0 W (fun x s0 => AutoCrop.scan_step seg W x k s0) s')).
    { apply (for_range_ind (fun m s => bbox_scan_inv seg W H (fun x y => y < k \/ (y = k /\ x < m)) s)).
      - apply (bbox_inv_mono (fun x y => y < k)); [|exact Hs'].
        intros x y (Hx & _ & _). lia.
      - intros m s0 Hm Hs0.
        apply (bbox_inv_mono (fun x y => (y < k \/ (y = k /\ x < m)) \/ (x = m /\ y = k))).
        + intros x y _. lia.
        + apply bbox_scan_step; [lia | lia | exact Hs0]. }
    apply (bbox_inv_mono (fun x y => y < k \/ (y = k /\ x < Z.max 0 W))); [|exact HQ].
    intros x y (Hx & Hy & _). lia.
Qed.

End BoundingBox.

(** findSubjectBounds returns null exactly when the mask has no value 1
    inside the image; otherwise it returns the smallest integer rectangle
    [x0, x1] x [y0, y1] holding all those positions: every hit lies in it
    and each of its four sides is reached by a hit. *)
Theorem findSubjectBounds_bounding_box (seg : list Z) (W H : Z) :
  (AutoCrop.findSubjectBounds seg W H = None <->
   forall x y, ~ mask_hit seg W H x y) /\
  (forall bnd, AutoCrop.findSubjectBounds seg W H = Some bnd ->
   exists x0 y0 x1 y1,
     bnd = AutoCrop.mkCropBounds (inject_Z x0) (inject_Z y0)
             (inject_Z (x1 - x0 + 1)) (inject_Z (y1 - y0 + 1)) /\
     (forall x y, mask_hit seg W H x y -> x0 <= x <= x1 /\ y0 <= y <= y1) /\
     (exists y, mask_hit seg W H x0 y) /\ (exists y, mask_hit seg W H x1 y) /\
     (exists x, mask_hit seg W H x y0) /\ (exists x, mask_hit seg W H x y1)).
Proof.
  unfold AutoCrop.findSubjectBounds.
  destruct (subject_scan_bbox seg W H) as [(H1 & H2 & H3 & H4 & H5 & H6)|(H1 & H2 & (y1 & _ & Hm1) & (y2 & _ & Hm2)
                                                & (x3 & _ & Hm3) & (x4 & _ & Hm4))].
  - rewrite H1. simpl. split; [split; [intros _ x y; apply H6; exact I | reflexivity]|].
    intros bnd Hb. discriminate.
  - replace (AutoCrop.subjectPixelCount _ =? 0) with false by (symmetry; apply Z.eqb_neq; lia).
    split.
    + split; [discriminate|]. intros Hno. exfalso. exact (Hno _ _ Hm1).
    + intros bnd Hb. injection Hb as <-.
      eexists _, _, _, _. split; [reflexivity|].
      split; [intros x y Hxy; apply H2; [exact I | exact Hxy]|].
      split; [eauto|]. split; [eauto|]. split; eauto.
Qed.

Lemma js_round_mono (p q : Q) : (p <= q)%Q -> js_round p <= js_round q.
Proof. intros H. unfold js_round. apply Qfloor_resp_le. qlra. Qed.

Lemma scaled_side_ge (w t : Q) (m : Z) :
  (0 < w)%Q -> (inject_Z m / w <= t)%Q -> m <= js_round (w * t).
Proof.
  intros Hw Ht. rewrite <- (js_round_inject_Z m) at 1. apply js_round_mono.
  assert (Heq : (w * (inject_Z m / w) == inject_Z m)%Q)
    by (field; intros E; rewrite E in Hw; qlra).
  rewrite <- Heq at 1. apply Qmult_le_l; assumption.
Qed.

(** The minimum-size step of findOptimalCropBounds, on a box of positive
    width and height and an integer minimum m, gives a box whose width
    and height are both at least m. *)
Theorem ensure_min_size_reaches_min (b : AutoCrop.CropBounds) (m : Z) :
  (0 < AutoCrop.cb_width b)%Q -> (0 < AutoCrop.cb_height b)%Q ->
  (inject_Z m <= AutoCrop.cb_width (AutoCrop.ensure_min_size b (inject_Z m)))%Q /\
  (inject_Z m <= AutoCrop.cb_height (AutoCrop.ensure_min_size b (inject_Z m)))%Q.
Proof.
  intros Hw Hh. unfold AutoCrop.ensure_min_size.
  destruct (AutoCrop.qlt (AutoCrop.cb_width b) (inject_Z m)
            || AutoCrop.qlt (AutoCrop.cb_height b) (inject_Z m)) eqn:E.
  - cbv zeta. simpl. rewrite <- !Zle_Qle.
    split; apply scaled_side_ge; try assumption; [apply Q.le_max_l | apply Q.le_max_r].
  - apply orb_false_iff in E as [E1 E2].
    split; apply crop_qlt_false_inv; assumption.
Qed.

Lemma ensure_min_size_reaches_min_witness :
  let b := AutoCrop.mkCropBounds 5 5 40 120 in
  (0 < AutoCrop.cb_width b)%Q /\ (0 < AutoCrop.cb_height b)%Q /\
  (inject_Z 100 <= AutoCrop.cb_width (AutoCrop.ensure_min_size b (inject_Z 100)))%Q /\
  (inject_Z 100 <= AutoCrop.cb_height (AutoCrop.ensure_min_size b (inject_Z 100)))%Q.
Proof.
  intros b. assert (Hw : (0 < AutoCrop.cb_width b)%Q) by (simpl; qlra).
  assert (Hh : (0 < AutoCrop.cb_height b)%Q) by (simpl; qlra).
  split; [exact Hw|]. split; [exact Hh|].
  apply (ensure_min_size_reaches_min b 100 Hw Hh).
Defined.






Lemma pal_qlt_true (a b : Q) : Palette.qlt a b = true <-> (a < b)%Q.
Proof.
  unfold Palette.qlt. rewrite negb_true_iff. split.
  - intros E. apply Qnot_le_lt. intros Hle. apply Qle_bool_iff in Hle. congruence.
  - intros H. destruct (Qle_bool b a) eqn:E; [|reflexivity].
    apply Qle_bool_iff in E. qlra.
Qed.

Lemma pal_qlt_false (a b : Q) : Palette.qlt a b = false <-> (b <= a)%Q.
Proof.
  unfold Palette.qlt. rewrite negb_false_iff. apply Qle_bool_iff.
Qed.

Lemma hdrel_insert (a c : Palette.ColorRGB) (l : list Palette.ColorRGB) :
  HdRel vib_ge a l -> vib_ge a c -> HdRel vib_ge a (KMeans.insert_by_vibrancy c l).
Proof.
  intros Hh Hac. destruct l as [|c' l]; simpl.
  - constructor. exact Hac.
  - destruct (Palette.qlt _ _); constructor; [exact Hac|].
    inversion Hh; assumption.
Qed.

Lemma insert_sorted (c : Palette.ColorRGB) (l : list Palette.ColorRGB) :
  Sorted vib_ge l -> Sorted vib_ge (KMeans.insert_by_vibrancy c l).
Proof.
  induction l as [|c' l IH]; simpl; intros Hs.
  - repeat constructor.
  - destruct (Palette.qlt (KMeans.vibrancy c') (KMeans.vibrancy c)) eqn:E.
    + apply pal_qlt_true in E. constructor; [exact Hs|]. constructor.
      unfold vib_ge. qlra.
    + apply pal_qlt_false in E. apply Sorted_inv in Hs as [Hs Hh].
      constructor; [apply IH, Hs|]. apply hdrel_insert; [exact Hh | exact E].
Qed.

Lemma insert_perm (c : Palette.ColorRGB) (l : list Palette.ColorRGB) :
  KMeans.insert_by_vibrancy c l ≡ₚ c :: l.
Proof.
  induction l as [|c' l IH]; simpl; [reflexivity|].
  destruct (Palette.qlt _ _); [reflexivity|].
  rewrite IH. constructor.
Qed.

Lemma sort_fold_spec (l acc : list Palette.ColorRGB) :
  Sorted vib_ge acc ->
  Sorted vib_ge (fold_left (fun acc c => KMeans.insert_by_vibrancy c acc) l acc) /\
  fold_left (fun acc c => KMeans.insert_by_vibrancy c acc) l acc ≡ₚ l ++ acc.
Proof.
  revert acc. induction l as [|c l IH]; intros acc Hs; simpl; [split; [exact Hs | reflexivity]|].
  destruct (IH (KMeans.insert_by_vibrancy c acc)) as [H1 H2]; [apply insert_sorted, Hs|].
  split; [exact H1|]. rewrite H2, insert_perm. symmetry. apply Permutation_middle.
Qed.

Lemma sort_by_vibrancy_sorted (l : list Palette.ColorRGB) :
  Sorted vib_ge (KMeans.sort_by_vibrancy l).
Proof. apply sort_fold_spec. constructor. Qed.

Lemma sort_by_vibrancy_perm (l : list Palette.ColorRGB) :
  KMeans.sort_by_vibrancy l ≡ₚ l.
Proof.
  unfold KMeans.sort_by_vibrancy. rewrite (proj2 (sort_fold_spec l [] ltac:(constructor))).
  rewrite app_nil_r. reflexivity.
Qed.

Lemma split_defined_perm (colors : list (option Palette.ColorRGB)) :
  colors ≡ₚ map Some (omap (fun c => c) colors) ++ filter (fun c => c = None) colors.
Proof.
  induction colors as [|[c|] cs IH]; simpl; [reflexivity| |].
  - rewrite filter_cons_False by discriminate. simpl. constructor. exact IH.
  - rewrite filter_cons_True by reflexivity.
    rewrite <- Permutation_middle. constructor. exact IH.
Qed.

Lemma filter_none_replicate (colors : list (option Palette.ColorRGB)) :
  filter (fun c => c = None) colors =
  replicate (length (filter (fun c => c = None) colors)) None.
Proof.
  induction colors as [|[c|] cs IH]; [reflexivity| |].
  - rewrite filter_cons_False by discriminate. exact IH.
  - rewrite filter_cons_True by reflexivity. simpl. f_equal. exact IH.
Qed.

(** sortColorsByVibrancy returns a permutation of its input: the defined
    colours first, in non-increasing order of vibrancy, then the
    undefined entries. *)
Theorem sortColorsByVibrancy_sorted_perm (colors : list (option Palette.ColorRGB)) :
  KMeans.sortColorsByVibrancy colors ≡ₚ colors /\
  exists s, KMeans.sortColorsByVibrancy colors =
            map Some s ++ replicate (length (filter (fun c => c = None) colors)) None /\
            Sorted vib_ge s.
Proof.
  unfold KMeans.sortColorsByVibrancy. split.
  - etransitivity; [|symmetry; apply split_defined_perm].
    apply Permutation_app_tail. apply Permutation_map, sort_by_vibrancy_perm.
  - eexists. split; [rewrite <- filter_none_replicate; reflexivity|].
    apply sort_by_vibrancy_sorted.
Qed.

Lemma mapM_total {A B : Type} (f : A -> option B) (R : A -> B -> Prop) (l : list A) :
  (forall x, In x l -> exists y, f x = Some y /\ R x y) ->
  exists k, mapM f l = Some k /\ Forall2 R l k.
Proof.
  induction l as [|x l IH]; intros Hall.
  - exists []. split; [reflexivity | constructor].
  - destruct (Hall x (or_introl eq_refl)) as (y & Hy & Ry).
    destruct IH as (k & Hk & Rk); [intros z Hz; apply Hall; right; exact Hz|].
    exists (y :: k). split; [simpl; rewrite Hy, Hk; reflexivity | constructor; assumption].
Qed.

Lemma assign_loop_spec (p : Palette.ColorRGB) (cs : list Palette.ColorRGB) (idx m ci : Z) :
  exists j, KMeans.assign_loop p (map Some cs) idx (Some m) ci = Some j /\
  ((j = ci /\ forall i c', cs !! i = Some c' -> m <= KMeans.sq_distance p c') \/
   (idx <= j < idx + Z.of_nat (length cs) /\
    exists c, cs !! Z.to_nat (j - idx) = Some c /\ KMeans.sq_distance p c < m /\
      forall i c', cs !! i = Some c' ->
        KMeans.sq_distance p c <= KMeans.sq_distance p c' /\
        (Z.of_nat i < j - idx -> KMeans.sq_distance p c < KMeans.sq_distance p c'))).
Proof.
  revert idx m ci. induction cs as [|c cs IH]; intros idx m ci; simpl.
  - exists ci. split; [reflexivity|]. left. split; [reflexivity|].
    intros i c' Hi. rewrite lookup_nil in Hi. discriminate.
  - destruct (Z.ltb_spec (KMeans.sq_distance p c) m) as [Hlt|Hge].
    + destruct (IH (idx + 1) (KMeans.sq_distance p c) idx)
        as (j & Hj & [[-> Hall] | (Hr & c2 & Hc2 & Hlt2 & Hall)]).
      * exists idx. split; [exact Hj|]. right. split; [lia|].
        exists c. replace (idx - idx) with 0 by lia. split; [reflexivity|]. split; [lia|].
        intros [|i] c' Hi; simpl in Hi.
        -- injection Hi as <-. lia.
        -- apply Hall in Hi. lia.
      * exists j. split; [exact Hj|]. right. split; [lia|].
        exists c2. replace (Z.to_nat (j - idx)) with (S (Z.to_nat (j - (idx + 1)))) by lia.
        split; [exact Hc2|]. split; [lia|].
        intros [|i] c' Hi; simpl in Hi.
        -- injection Hi as <-. lia.
        -- destruct (Hall i c' Hi) as [H1 H2]. split; [exact H1|]. intros Hij. apply H2. lia.
    + destruct (IH (idx + 1) m ci)
        as (j & Hj & [[-> Hall] | (Hr & c2 & Hc2 & Hlt2 & Hall)]).
      * exists ci. split; [exact Hj|]. left. split; [reflexivity|].
        intros [|i] c' Hi; simpl in Hi; [injection Hi as <-; lia | apply Hall in Hi; lia].
      * exists j. split; [exact Hj|]. right. split; [lia|].
        exists c2. replace (Z.to_nat (j - idx)) with (S (Z.to_nat (j - (idx + 1)))) by lia.
        split; [exact Hc2|]. split; [exact Hlt2|].
        intros [|i] c' Hi; simpl in Hi.
        -- injection Hi as <-. lia.
        -- destruct (Hall i c' Hi) as [H1 H2]. split; [exact H1|]. intros Hij. apply H2. lia.
Qed.


Lemma assign_loop_nearest (p c0 : Palette.ColorRGB) (cs : list Palette.ColorRGB) :
  exists j, KMeans.assign_loop p (map Some (c0 :: cs)) 0 None 0 = Some j /\
            nearest_index (c0 :: cs) p j.
Proof.
  simpl. destruct (assign_loop_spec p cs 1 (KMeans.sq_distance p c0) 0)
    as (j & Hj & [[-> Hall] | (Hr & c2 & Hc2 & Hlt2 & Hall)]).
  - exists 0. split; [exact Hj|]. split; [lia|]. exists c0. split; [reflexivity|].
    intros [|i] c' Hi; simpl in Hi; [injection Hi as <-; lia | apply Hall in Hi; lia].
  - exists j. split; [exact Hj|]. split; [lia|]. exists c2.
    replace (Z.to_nat j) with (S (Z.to_nat (j - 1))) by lia. split; [exact Hc2|].
    intros [|i] c' Hi; simpl in Hi.
    + injection Hi as <-. lia.
    + destruct (Hall i c' Hi) as [H1 H2]. split; [exact H1|]. intros Hij. apply H2. lia.
Qed.

(** With a non-empty list of centroids, assignPixelsToClusters never
    raises and assigns to each pixel the smallest index of a centroid at
    minimal distance from it. *)
Theorem assignPixelsToClusters_nearest (pixels cs : list Palette.ColorRGB) :
  cs <> [] ->
  exists a, KMeans.assignPixelsToClusters pixels (map Some cs) = Some a /\
            Forall2 (nearest_index cs) pixels a.
Proof.
  intros Hne. destruct cs as [|c0 cs]; [congruence|].
  apply mapM_total. intros p _. apply assign_loop_nearest.
Qed.

Lemma assignPixelsToClusters_nearest_witness :
  let cs := [Palette.mkColorRGB 0 0 0; Palette.mkColorRGB 250 250 250] in
  let pixels := [Palette.mkColorRGB 10 20 30; Palette.mkColorRGB 200 210 220] in
  cs <> [] /\
  exists a, KMeans.assignPixelsToClusters pixels (map Some cs) = Some a /\
            Forall2 (nearest_index cs) pixels a.
Proof.
  intros cs pixels. assert (Hne : cs <> []) by discriminate.
  split; [exact Hne | apply (assignPixelsToClusters_nearest pixels cs Hne)].
Defined.

Lemma converged_total (old new : list Palette.ColorRGB) :
  (length old <= length new)%nat ->
  exists bo, KMeans.centroidsConverged (map Some old) (map Some new) = Some bo.
Proof.
  revert new. induction old as [|o old IH]; intros new Hlen; simpl; [eauto|].
  destruct new as [|n new]; simpl in Hlen; [lia|]. simpl.
  destruct (1 <? KMeans.sq_distance o n); [eauto|]. apply IH. lia.
Qed.

(** When the new centroids are at least as many as the old ones,
    centroidsConverged never raises and answers true exactly when each old
    centroid is at distance at most 1 from the new centroid of the same
    index. *)
Theorem centroidsConverged_iff (old new : list Palette.ColorRGB) :
  (length old <= length new)%nat ->
  exists bo, KMeans.centroidsConverged (map Some old) (map Some new) = Some bo /\
    (bo = true <-> forall i o n, old !! i = Some o -> new !! i = Some n ->
                               KMeans.sq_distance o n <= 1).
Proof.
  revert new. induction old as [|o old IH]; intros new Hlen; simpl.
  - exists true. split; [reflexivity|]. split; [|reflexivity].
    intros _ i o n Hi. rewrite lookup_nil in Hi. discriminate.
  - destruct new as [|n new]; simpl in Hlen; [lia|]. simpl.
    destruct (Z.ltb_spec 1 (KMeans.sq_distance o n)) as [Hgt|Hle].
    + exists false. split; [reflexivity|]. split; [discriminate|].
      intros Hall. specialize (Hall 0%nat o n eq_refl eq_refl). lia.
    + destruct (IH new ltac:(lia)) as (bo & Hbo & Hiff).
      exists bo. split; [exact Hbo|]. rewrite Hiff. split.
      * intros Hall [|i] o' n' Ho Hn; simpl in Ho, Hn.
        -- injection Ho as <-. injection Hn as <-. exact Hle.
        -- exact (Hall i o' n' Ho Hn).
      * intros Hall i o' n' Ho Hn. exact (Hall (S i) o' n' Ho Hn).
Qed.

Lemma centroidsConverged_iff_witness :
  let old := [Palette.mkColorRGB 10 20 30; Palette.mkColorRGB 100 100 100] in
  let new := [Palette.mkColorRGB 10 20 31; Palette.mkColorRGB 100 100 100] in
  (length old <= length new)%nat /\
  exists bo, KMeans.centroidsConverged (map Some old) (map Some new) = Some bo /\
    (bo = true <-> forall i o n, old !! i = Some o -> new !! i = Some n ->
                               KMeans.sq_distance o n <= 1).
Proof.
  intros old new. assert (Hl : (length old <= length new)%nat) by (simpl; lia).
  split; [exact Hl | apply (centroidsConverged_iff old new Hl)].
Defined.


Lemma sq_distance_nonneg (p c : Palette.ColorRGB) : 0 <= KMeans.sq_distance p c.
Proof.
  unfold KMeans.sq_distance. cbv zeta.
  repeat apply Z.add_nonneg_nonneg; apply Z.square_nonneg.
Qed.

Lemma nearest_fold_some (p : Palette.ColorRGB) (ys : list Palette.ColorRGB) (v0 : Z) :
  0 <= v0 ->
  exists v, fold_left (fun acc c =>
      match acc, KMeans.colorDistance (Some p) c with
      | Some m, Some d => Some (Z.min m d)
      | _, _ => None
      end) (map Some ys) (Some v0) = Some v /\ 0 <= v.
Proof.
  revert v0. induction ys as [|y ys IH]; intros v0 Hv0; simpl; [eauto|].
  apply IH. pose proof (sq_distance_nonneg p y). lia.
Qed.

Lemma nearest_sq_some (p x : Palette.ColorRGB) (ys : list Palette.ColorRGB) :
  exists v, KMeans.nearest_sq p (Some x) (map Some ys) = Some v /\ 0 <= v.
Proof. apply nearest_fold_some, sq_distance_nonneg. Qed.

Lemma fold_add_ge (l : list Z) (acc : Z) :
  Forall (fun v => 0 <= v) l -> acc <= fold_left Z.add l acc.
Proof.
  revert acc. induction l as [|v l IH]; intros acc Hl; simpl; [lia|].
  apply Forall_cons in Hl as [Hv Hl]. specialize (IH (acc + v) Hl). lia.
Qed.

Lemma Forall2_snd {A B : Type} (P : B -> Prop) (l : list A) (k : list B) :
  Forall2 (fun _ y => P y) l k -> Forall P k.
Proof. induction 1; constructor; assumption. Qed.

Lemma choose_weighted_some (pixels : list Palette.ColorRGB) (ds : list Z) (rv : Q) (cum : Z) :
  length ds = length pixels -> pixels <> [] ->
  (rv <= inject_Z (fold_left Z.add ds cum))%Q ->
  exists p, KMeans.choose_weighted pixels ds rv cum = Some p /\ In p pixels.
Proof.
  revert ds cum. induction pixels as [|p ps IH]; intros ds cum Hlen Hne Hrv; [congruence|].
  destruct ds as [|d ds]; simpl in Hlen; [discriminate|]. simpl in Hrv |- *.
  destruct (Qle_bool rv (inject_Z (cum + d))) eqn:E; [exists p; split; [reflexivity | left; reflexivity]|].
  destruct ps as [|p' ps'].
  - destruct ds; [|simpl in Hlen; discriminate]. simpl in Hrv.
    apply Qle_bool_iff in Hrv. congruence.
  - destruct (IH ds (cum + d)) as (q & Hq & Hin); [simpl in *; lia | discriminate | exact Hrv|].
    exists q. split; [exact Hq | right; exact Hin].
Qed.

Lemma random_pixel_some (pixels : list Palette.ColorRGB) (u : Q) :
  (0 <= u < 1)%Q -> pixels <> [] ->
  exists p, KMeans.random_pixel pixels u = Some p /\ In p pixels.
Proof.
  intros [Hu0 Hu1] Hne. unfold KMeans.random_pixel.
  set (L := Z.of_nat (length pixels)).
  assert (HL : 0 < L) by (unfold L; destruct pixels; [congruence | simpl; lia]).
  assert (HLq : (0 < inject_Z L)%Q) by (change 0%Q with (inject_Z 0); rewrite <- Zlt_Qlt; exact HL).
  set (i := Qfloor (u * inject_Z L)).
  assert (Hi0 : 0 <= i).
  { unfold i. change 0 with (Qfloor 0). apply Qfloor_resp_le.
    apply Qmult_le_0_compat; qlra. }
  assert (Hi1 : i < L).
  { assert (Hf : (inject_Z i <= u * inject_Z L)%Q) by apply Qfloor_le.
    assert (Hlt : (u * inject_Z L < inject_Z L)%Q).
    { assert (H1 : (u * inject_Z L < 1 * inject_Z L)%Q) by (apply Qmult_lt_r; qlra).
      qlra. }
    rewrite Zlt_Qlt. qlra. }
  replace (i <? 0) with false by (symmetry; apply Z.ltb_ge; lia).
  destruct (nth_error pixels (Z.to_nat i)) as [p|] eqn:E.
  - exists p. split; [reflexivity|]. eapply nth_error_In. exact E.
  - apply nth_error_None in E. unfold L in Hi1. lia.
Qed.

Lemma init_step_ok (rnd : nat -> Q) (pixels : list Palette.ColorRGB)
    (x : Palette.ColorRGB) (ys : list Palette.ColorRGB) (n : nat) :
  (0 <= rnd n < 1)%Q -> pixels <> [] ->
  exists p, KMeans.init_step rnd pixels (Some x, map Some ys, n) =
            Some (Some x, map Some (ys ++ [p]), S n) /\ In p pixels.
Proof.
  intros Hr Hne. unfold KMeans.init_step.
  destruct (mapM_total (fun p => KMeans.nearest_sq p (Some x) (map Some ys))
              (fun _ v => 0 <= v) pixels) as (ds & Hds & HR).
  { intros p _. apply nearest_sq_some. }
  rewrite Hds.
  set (T := fold_left Z.add ds 0).
  assert (HT : 0 <= T) by (apply (fold_add_ge ds 0), (Forall2_snd _ _ _ HR)).
  assert (HTq : (0 <= inject_Z T)%Q) by (change 0%Q with (inject_Z 0); rewrite <- Zle_Qle; exact HT).
  destruct (choose_weighted_some pixels ds (rnd n * inject_Z T) 0) as (p & Hp & Hin).
  - symmetry. apply (Forall2_length _ _ _ HR).
  - exact Hne.
  - fold T. assert (H1 : (rnd n * inject_Z T <= 1 * inject_Z T)%Q)
      by (apply Qmult_le_compat_r; qlra).
    qlra.
  - rewrite Hp. exists p. split; [rewrite map_app; reflexivity | exact Hin].
Qed.

Lemma initializeCentroids_ok (rnd : nat -> Q) (pixels : list Palette.ColorRGB) (k : Z) (n : nat) :
  (forall m, 0 <= rnd m < 1)%Q -> pixels <> [] -> 1 <= k ->
  exists cs n', KMeans.initializeCentroids rnd pixels k n = Some (map Some cs, n') /\
    length cs = Z.to_nat k /\ Forall (fun c => In c pixels) cs.
Proof.
  intros Hr Hne Hk. unfold KMeans.initializeCentroids.
  destruct (random_pixel_some pixels (rnd n) (Hr n) Hne) as (x & Hx & Hxin). rewrite Hx.
  pose proof (for_range_ind
    (fun j st => exists ys m, st = Some (Some x, map Some ys, m) /\
                 length ys = Z.to_nat (j - 1) /\ Forall (fun c => In c pixels) ys)
    1 k (fun _ st => match st with
                     | Some st => KMeans.init_step rnd pixels st
                     | None => None
                     end) (Some (Some x, [], S n))) as Hind.
  destruct Hind as (ys & m & Hst & Hlen & Hys).
  - exists [], (S n). split; [reflexivity|]. split; [reflexivity | constructor].
  - intros i st' Hi (ys & m & -> & Hlen & Hys).
    destruct (init_step_ok rnd pixels x ys m (Hr m) Hne) as (p & Hp & Hpin).
    rewrite Hp. exists (ys ++ [p]), (S m). split; [reflexivity|].
    split; [rewrite length_app; simpl; lia|].
    apply Forall_app. split; [exact Hys | constructor; [exact Hpin | constructor]].
  - rewrite Hst. exists (x :: ys), m. split; [reflexivity|].
    split; [simpl; lia | constructor; assumption].
Qed.

Lemma cluster_of_incl (pixels : list Palette.ColorRGB) (a : list Z) (i : Z) (c : Palette.ColorRGB) :
  In c (KMeans.cluster_of pixels a i) -> In c pixels.
Proof.
  revert a. induction pixels as [|p ps IH]; intros a; simpl; [tauto|].
  destruct (head a) as [x|]; [destruct (x =? i)|]; simpl;
    [intros [->|H]; [left; reflexivity | right; exact (IH _ H)]
    | intros H; right; exact (IH _ H) | intros H; right; exact (IH _ H)].
Qed.

Lemma channel_sum_bounds (f : Palette.ColorRGB -> Z) (cl : list Palette.ColorRGB) (acc : Z) :
  Forall (fun p => 0 <= f p <= 255) cl ->
  acc <= fold_left (fun s p => s + f p) cl acc <= acc + 255 * Z.of_nat (length cl).
Proof.
  revert acc. induction cl as [|p cl IH]; intros acc Hcl; simpl; [lia|].
  apply Forall_cons in Hcl as [Hp Hcl]. specialize (IH (acc + f p) Hcl). lia.
Qed.

Lemma channel_mean_byte (f : Palette.ColorRGB -> Z) (cl : list Palette.ColorRGB) :
  cl <> [] -> Forall (fun p => 0 <= f p <= 255) cl ->
  0 <= KMeans.channel_mean f cl <= 255.
Proof.
  intros Hne Hcl. unfold KMeans.channel_mean. apply js_round_byte.
  pose proof (channel_sum_bounds f cl 0 Hcl) as Hs.
  set (S := fold_left (fun s p => s + f p) cl 0) in *.
  set (L := Z.of_nat (length cl)) in *.
  assert (HL : 0 < L) by (unfold L; destruct cl; [congruence | simpl; lia]).
  assert (HLq : (0 < inject_Z L)%Q) by (change 0%Q with (inject_Z 0); rewrite <- Zlt_Qlt; exact HL).
  split.
  - apply Qle_shift_div_l; [exact HLq|]. unfold Qle; simpl; lia.
  - apply Qle_shift_div_r; [exact HLq|]. unfold Qle; simpl; lia.
Qed.

Lemma byte_color_of_bytes (pixels : list Palette.ColorRGB) (cl : list Palette.ColorRGB) :
  Forall byte_color pixels -> (forall c, In c cl -> In c pixels) -> cl <> [] ->
  byte_color (Palette.mkColorRGB (KMeans.channel_mean Palette.r cl)
                                 (KMeans.channel_mean Palette.g cl)
                                 (KMeans.channel_mean Palette.b cl)).
Proof.
  intros Hpx Hincl Hne.
  assert (Hcl : Forall byte_color cl).
  { apply List.Forall_forall. intros c Hc. eapply List.Forall_forall; [exact Hpx | apply Hincl, Hc]. }
  unfold byte_color; simpl.
  split; [|split]; apply channel_mean_byte; try exact Hne;
    eapply Forall_impl; try exact Hcl; intros c (H1 & H2 & H3); assumption.
Qed.

Lemma updateCentroids_ok (rnd : nat -> Q) (pixels : list Palette.ColorRGB) (a : list Z)
    (k : Z) (n : nat) :
  (forall m, 0 <= rnd m < 1)%Q -> pixels <> [] -> Forall byte_color pixels -> 0 <= k ->
  exists cs n', KMeans.updateCentroids rnd pixels a k n = (map Some cs, n') /\
    length cs = Z.to_nat k /\ Forall byte_color cs.
Proof.
  intros Hr Hne Hpx Hk. unfold KMeans.updateCentroids.
  pose proof (for_range_ind
    (fun j st => exists cs m, st = (map Some cs, m) /\
                 length cs = Z.to_nat j /\ Forall byte_color cs)
    0 k (KMeans.update_step rnd pixels a) ([], n)) as Hind.
  destruct Hind as (cs & m & Hst & Hlen & Hcs).
  - exists [], n. split; [reflexivity|]. split; [reflexivity | constructor].
  - intros i st' Hi (cs & m & -> & Hlen & Hcs). unfold KMeans.update_step.
    destruct (KMeans.cluster_of pixels a i) as [|c cl] eqn:Ecl.
    + destruct (random_pixel_some pixels (rnd m) (Hr m) Hne) as (p & Hp & Hin).
      rewrite Hp. exists (cs ++ [p]), (S m). split; [rewrite map_app; reflexivity|].
      split; [rewrite length_app; simpl; lia|].
      apply Forall_app. split; [exact Hcs|]. constructor; [|constructor].
      eapply List.Forall_forall; [exact Hpx | exact Hin].
    + eexists (cs ++ [_]), m. split; [rewrite map_app; reflexivity|].
      split; [rewrite length_app; simpl; lia|].
      apply Forall_app. split; [exact Hcs|]. constructor; [|constructor].
      apply (byte_color_of_bytes pixels); [exact Hpx | | discriminate].
      intros c' Hc'. apply (cluster_of_incl pixels a i). rewrite Ecl. exact Hc'.
  - exists cs, m. rewrite Hst. split; [reflexivity|]. split; [rewrite Hlen; f_equal; lia | exact Hcs].
Qed.

Lemma assign_loop_total (p : Palette.ColorRGB) (cs : list Palette.ColorRGB) (idx : Z)
    (md : option Z) (ci : Z) :
  exists j, KMeans.assign_loop p (map Some cs) idx md ci = Some j.
Proof.
  revert idx md ci. induction cs as [|c cs IH]; intros idx md ci; simpl; [eauto|].
  destruct (KMeans.lt_min _ _); apply IH.
Qed.

Lemma kmeans_loop_ok (rnd : nat -> Q) (pixels : list Palette.ColorRGB) (k : Z) (fuel : nat) :
  (forall m, 0 <= rnd m < 1)%Q -> pixels <> [] -> Forall byte_color pixels -> 0 <= k ->
  forall cs n, length cs = Z.to_nat k -> Forall byte_color cs ->
  exists cs' n', KMeans.kmeans_loop rnd pixels k fuel (map Some cs) n = Some (map Some cs', n') /\
    length cs' = Z.to_nat k /\ Forall byte_color cs'.
Proof.
  intros Hr Hne Hpx Hk. induction fuel as [|f IH]; intros cs n Hlen Hcs; simpl; [eauto|].
  destruct (mapM_total (fun p => KMeans.assign_loop p (map Some cs) 0 None 0)
              (fun _ _ => True) pixels) as (a & Ha & _).
  { intros p _. destruct (assign_loop_total p cs 0 None 0) as [j Hj]. eauto. }
  unfold KMeans.assignPixelsToClusters. rewrite Ha.
  destruct (updateCentroids_ok rnd pixels a k n Hr Hne Hpx Hk) as (cs2 & n2 & Hu & Hlen2 & Hcs2).
  rewrite Hu.
  destruct (converged_total cs cs2 ltac:(lia)) as [[|] Hc]; rewrite Hc; eauto.
Qed.

Lemma rd_byte (d : list Z) (i : Z) : byte_list d -> 0 <= rd d i <= 255.
Proof.
  intros Hd. unfold rd, read. destruct (i <? 0); [simpl; lia|].
  destruct (d !! Z.to_nat i) as [v|] eqn:E; simpl; [|lia].
  exact (Forall_lookup_1 _ _ _ _ Hd E).
Qed.

Lemma sample_loop_bytes (d : list Z) (iv : option Z) (fuel : nat) (i : Z) :
  byte_list d -> Forall byte_color (Palette.sample_loop d iv fuel i).
Proof.
  intros Hd. revert i. induction fuel as [|f IH]; intros i; simpl; [constructor|].
  assert (Hrest : Forall byte_color
            match iv with Some s => Palette.sample_loop d iv f (i + s * 4) | None => [] end)
    by (destruct iv; [apply IH | constructor]).
  destruct (i <? Z.of_nat (length d)); [|constructor].
  destruct (rd d (i + 3) <? 128); [exact Hrest|].
  destruct (_ || _); [exact Hrest|].
  constructor; [|exact Hrest].
  unfold byte_color; simpl. split; [|split]; apply rd_byte, Hd.
Qed.

Lemma omap_map_Some (l : list Palette.ColorRGB) : omap (fun c => c) (map Some l) = l.
Proof. induction l as [|c l IH]; simpl; [reflexivity | f_equal; exact IH]. Qed.

Lemma filter_none_map_Some (l : list Palette.ColorRGB) :
  filter (fun c : option Palette.ColorRGB => c = None) (map Some l) = [].
Proof.
  induction l as [|c l IH]; [reflexivity|]. simpl map.
  rewrite filter_cons_False by discriminate. exact IH.
Qed.

Lemma mapM_id_map_Some (l : list Palette.ColorRGB) : mapM (fun c => c) (map Some l) = Some l.
Proof. induction l as [|c l IH]; simpl; [reflexivity | rewrite IH; reflexivity]. Qed.

Lemma kmeans_phase_ok (rnd : nat -> Q) (pixels : list Palette.ColorRGB) (k mi : Z) :
  (forall m, 0 <= rnd m < 1)%Q -> pixels <> [] -> Forall byte_color pixels -> 1 <= k ->
  exists cols, KMeans.kmeans_phase rnd pixels k mi = Some cols /\
    length cols = Z.to_nat k /\ Forall byte_color cols /\ Sorted vib_ge cols.
Proof.
  intros Hr Hne Hpx Hk. unfold KMeans.kmeans_phase.
  destruct (initializeCentroids_ok rnd pixels k 0 Hr Hne Hk) as (cs & n & Hi & Hlen & Hin).
  rewrite Hi.
  assert (Hcs : Forall byte_color cs).
  { apply List.Forall_forall. intros c Hc. apply (proj1 (List.Forall_forall _ _) Hpx).
    exact (proj1 (List.Forall_forall _ _) Hin c Hc). }
  destruct (kmeans_loop_ok rnd pixels k (Z.to_nat mi) Hr Hne Hpx ltac:(lia) cs n Hlen Hcs)
    as (cs2 & n2 & Hl & Hlen2 & Hcs2).
  rewrite Hl. unfold KMeans.sortColorsByVibrancy.
  rewrite omap_map_Some, filter_none_map_Some, app_nil_r, mapM_id_map_Some.
  eexists. split; [reflexivity|].
  pose proof (sort_by_vibrancy_perm cs2) as Hp.
  split; [rewrite (Permutation_length Hp); exact Hlen2|].
  split; [|apply sort_by_vibrancy_sorted].
  apply List.Forall_forall. intros c Hc. eapply List.Forall_forall; [exact Hcs2|].
  eapply Permutation_in; [exact Hp | exact Hc].
Qed.

(** With Math.random in [0, 1), a byte image and k >= 1,
    extractColorPalette raises no error other than the "Not enough valid
    pixels" one, which it raises with fewer than k samples; otherwise it
    returns exactly k byte colours, sorted by non-increasing vibrancy. *)
Theorem extractColorPalette_kmeans_ok (rnd : nat -> Q) (img : ImageData) (k mi ms : Z) :
  (forall m, 0 <= rnd m < 1)%Q -> byte_list (data img) -> 1 <= k ->
  match Palette.extractColorPalette (KMeans.kmeans_phase rnd) img k mi ms with
  | Palette.Palette colors _ =>
      length colors = Z.to_nat k /\ Forall byte_color colors /\ Sorted vib_ge colors
  | Palette.InsufficientSamples found _ => found < k
  | Palette.OtherError => False
  end.
Proof.
  intros Hr Hd Hk. unfold Palette.extractColorPalette.
  set (pixels := Palette.samplePixels img ms).
  destruct (Z.ltb_spec (Z.of_nat (length pixels)) k) as [Hlt|Hge]; [exact Hlt|].
  assert (Hne : pixels <> []) by (intros E; rewrite E in Hge; simpl in Hge; lia).
  assert (Hpx : Forall byte_color pixels) by apply sample_loop_bytes, Hd.
  destruct (kmeans_phase_ok rnd pixels k mi Hr Hne Hpx Hk) as (cols & Hc & H).
  rewrite Hc. exact H.
Qed.

Lemma extractColorPalette_kmeans_ok_witness :
  let img := mkImageData 2 1 [200; 30; 30; 255; 30; 30; 200; 255] in
  (forall m : nat, 0 <= (fun _ : nat => 0%Q) m < 1)%Q /\ byte_list (data img) /\ 1 <= 2 /\
  match Palette.extractColorPalette (KMeans.kmeans_phase (fun _ => 0%Q)) img 2 50 5000 with
  | Palette.Palette colors _ =>
      length colors = Z.to_nat 2 /\ Forall byte_color colors /\ Sorted vib_ge colors
  | Palette.InsufficientSamples found _ => found < 2
  | Palette.OtherError => False
  end.
Proof.
  intros img.
  assert (Hr : (forall m : nat, 0 <= (fun _ : nat => 0%Q) m < 1)%Q) by (intros m; simpl; qlra).
  assert (Hd : byte_list (data img)) by (simpl; byte_list_tac).
  split; [exact Hr|]. split; [exact Hd|]. split; [lia|].
  apply (extractColorPalette_kmeans_ok (fun _ => 0%Q) img 2 50 5000 Hr Hd). lia.
Defined.

(** With k <= 0 and at least one iteration, extractColorPalette raises an
    error other than the "Not enough valid pixels" one. *)
Theorem extractColorPalette_nonpositive_k (rnd : nat -> Q) (img : ImageData) (k mi ms : Z) :
  k <= 0 -> 1 <= mi ->
  Palette.extractColorPalette (KMeans.kmeans_phase rnd) img k mi ms = Palette.OtherError.
Proof.
  intros Hk Hmi. unfold Palette.extractColorPalette.
  replace (Z.of_nat _ <? k) with false by (symmetry; apply Z.ltb_ge; lia).
  unfold KMeans.kmeans_phase, KMeans.initializeCentroids.
  rewrite for_range_empty by lia.
  destruct (Z.to_nat mi) as [|f] eqn:Ef; [lia|]. simpl KMeans.kmeans_loop.
  destruct (KMeans.assignPixelsToClusters _ _); [|reflexivity].
  unfold KMeans.updateCentroids. rewrite for_range_empty by lia. simpl.
  destruct (KMeans.random_pixel _ _); reflexivity.
Qed.

Lemma extractColorPalette_nonpositive_k_witness :
  let img := mkImageData 2 1 [200; 30; 30; 255; 30; 30; 200; 255] in
  0 <= 0 /\ 1 <= 50 /\
  Palette.extractColorPalette (KMeans.kmeans_phase (fun _ => 0%Q)) img 0 50 5000
  = Palette.OtherError.
Proof.
  intros img. split; [lia|]. split; [lia|].
  apply (extractColorPalette_nonpositive_k (fun _ => 0%Q) img 0 50 5000); lia.
Defined.


Lemma qmax_self (x : Q) : Qmax x x = x.
Proof. unfold Qmax, GenericMinMax.gmax. destruct (x ?= x)%Q; reflexivity. Qed.

Lemma qmin_self (x : Q) : Qmin x x = x.
Proof. unfold Qmin, GenericMinMax.gmin. destruct (x ?= x)%Q; reflexivity. Qed.

Lemma qlt_lightness_gray (v t : Z) :
  Palette.qlt ((inject_Z v / 255 + inject_Z v / 255) / 2 * 100) (t # 1) =
  (v * 20 <? t * 51).
Proof.
  destruct (Palette.qlt _ _) eqn:E; symmetry.
  - apply pal_qlt_true in E. apply Z.ltb_lt.
    assert (Hl : ((inject_Z v / 255 + inject_Z v / 255) / 2 * 100 == inject_Z v * (20 # 51))%Q)
      by field.
    rewrite Hl in E. unfold Qlt in E. simpl in E. lia.
  - apply pal_qlt_false in E. apply Z.ltb_ge.
    assert (Hl : ((inject_Z v / 255 + inject_Z v / 255) / 2 * 100 == inject_Z v * (20 # 51))%Q)
      by field.
    rewrite Hl in E. unfold Qle in E. simpl in E. lia.
Qed.

Module ColorNamesProofs.
Import String Ascii.

(** For a grey colour (r = g = b = v), getColorName gives Dark Gray below
    51, Gray below 102, Light Gray below 153, Silver below 204 and White
    from 204 on. *)
Theorem getColorName_gray (v : Z) :
  ColorNames.getColorName v v v =
  if (v <? 51)%Z then "Dark Gray"%string else if (v <? 102)%Z then "Gray"%string
  else if (v <? 153)%Z then "Light Gray"%string else if (v <? 204)%Z then "Silver"%string
  else "White"%string.
Proof.
  unfold ColorNames.getColorName, Palette.rgbToHsl. cbv zeta.
  rewrite !qmax_self, !qmin_self, Qeq_bool_refl.
  change (Palette.qlt (0 * 100) 10) with true. cbv iota.
  rewrite !(qlt_lightness_gray v 20), !(qlt_lightness_gray v 40),
    !(qlt_lightness_gray v 60), !(qlt_lightness_gray v 80).
  destruct (Z.ltb_spec v 51); [rewrite (proj2 (Z.ltb_lt _ _)) by lia; reflexivity|].
  rewrite (proj2 (Z.ltb_ge (v * 20) (20 * 51))) by lia.
  destruct (Z.ltb_spec v 102); [rewrite (proj2 (Z.ltb_lt _ _)) by lia; reflexivity|].
  rewrite (proj2 (Z.ltb_ge (v * 20) (40 * 51))) by lia.
  destruct (Z.ltb_spec v 153); [rewrite (proj2 (Z.ltb_lt _ _)) by lia; reflexivity|].
  rewrite (proj2 (Z.ltb_ge (v * 20) (60 * 51))) by lia.
  destruct (Z.ltb_spec v 204); [rewrite (proj2 (Z.ltb_lt _ _)) by lia; reflexivity|].
  rewrite (proj2 (Z.ltb_ge (v * 20) (80 * 51))) by lia. reflexivity.
Qed.


Lemma byte_cases (P : Z -> bool) :
  forallb P (map Z.of_nat (seq 0 256)) = true -> forall m, 0 <= m <= 255 -> P m = true.
Proof.
  intros Hall m Hm. rewrite forallb_forall in Hall. apply Hall.
  apply in_map_iff. exists (Z.to_nat m). split; [lia|]. apply in_seq. lia.
Qed.

Lemma hex_pad_byte (m : Z) :
  0 <= m <= 255 ->
  (if (String.length (ColorNames.to_string16 m) =? 1)%nat
   then String "0" (ColorNames.to_string16 m) else ColorNames.to_string16 m) =
  String (ColorNames.hex_char (m / 16)) (String (ColorNames.hex_char (m mod 16)) EmptyString).
Proof.
  intros Hm. apply String.eqb_eq. revert m Hm.
  apply (byte_cases (fun m => String.eqb _ _)). vm_compute. reflexivity.
Qed.

Lemma hex_char_inj (d d' : Z) :
  0 <= d < 16 -> 0 <= d' < 16 -> ColorNames.hex_char d = ColorNames.hex_char d' -> d = d'.
Proof.
  intros Hd Hd' E.
  assert (Hall : forallb (fun d => forallb (fun d' =>
            implb (Ascii.eqb (ColorNames.hex_char d) (ColorNames.hex_char d')) (Z.eqb d d'))
            (map Z.of_nat (seq 0 16))) (map Z.of_nat (seq 0 16)) = true)
    by (vm_compute; reflexivity).
  rewrite forallb_forall in Hall.
  assert (Hd0 : In d (map Z.of_nat (seq 0 16)))
    by (apply in_map_iff; exists (Z.to_nat d); split; [lia | apply in_seq; lia]).
  assert (Hd1 : In d' (map Z.of_nat (seq 0 16)))
    by (apply in_map_iff; exists (Z.to_nat d'); split; [lia | apply in_seq; lia]).
  specialize (Hall d Hd0). rewrite forallb_forall in Hall. specialize (Hall d' Hd1).
  rewrite E, Ascii.eqb_refl in Hall. simpl in Hall. apply Z.eqb_eq, Hall.
Qed.

(** When the three rounded channels are bytes, rgbToHex gives "#" and two
    lowercase hexadecimal digits per channel (high digit first). *)
Theorem rgbToHex_byte_channels (r g b : Q) :
  0 <= js_round r <= 255 -> 0 <= js_round g <= 255 -> 0 <= js_round b <= 255 ->
  ColorNames.rgbToHex r g b =
  String "#"
   (String (ColorNames.hex_char (js_round r / 16)) (String (ColorNames.hex_char (js_round r mod 16))
   (String (ColorNames.hex_char (js_round g / 16)) (String (ColorNames.hex_char (js_round g mod 16))
   (String (ColorNames.hex_char (js_round b / 16)) (String (ColorNames.hex_char (js_round b mod 16))
    EmptyString)))))).
Proof.
  intros Hr Hg Hb. unfold ColorNames.rgbToHex, ColorNames.toHex. cbv zeta.
  rewrite (hex_pad_byte _ Hr), (hex_pad_byte _ Hg), (hex_pad_byte _ Hb). reflexivity.
Qed.

Lemma rgbToHex_byte_channels_witness :
  (0 <= js_round (2546 # 10) <= 255 /\ 0 <= js_round 128 <= 255 /\ 0 <= js_round (3 # 10) <= 255) /\
  ColorNames.rgbToHex (2546 # 10) 128 (3 # 10) =
  String "#"
   (String (ColorNames.hex_char (js_round (2546 # 10) / 16))
   (String (ColorNames.hex_char (js_round (2546 # 10) mod 16))
   (String (ColorNames.hex_char (js_round 128 / 16)) (String (ColorNames.hex_char (js_round 128 mod 16))
   (String (ColorNames.hex_char (js_round (3 # 10) / 16))
   (String (ColorNames.hex_char (js_round (3 # 10) mod 16))
    EmptyString)))))).
Proof.
  assert (H1 : 0 <= js_round (2546 # 10) <= 255) by (vm_compute; split; discriminate).
  assert (H2 : 0 <= js_round 128 <= 255) by (vm_compute; split; discriminate).
  assert (H3 : 0 <= js_round (3 # 10) <= 255) by (vm_compute; split; discriminate).
  split; [tauto|]. apply (ColorNamesProofs.rgbToHex_byte_channels _ _ _ H1 H2 H3).
Defined.


Lemma hex_byte_inj (m m' : Z) :
  0 <= m <= 255 -> 0 <= m' <= 255 ->
  ColorNames.hex_char (m / 16) = ColorNames.hex_char (m' / 16) ->
  ColorNames.hex_char (m mod 16) = ColorNames.hex_char (m' mod 16) -> m = m'.
Proof.
  intros Hm Hm' E1 E2.
  apply hex_char_inj in E1; [|split; [apply Z.div_pos; lia | apply Z.div_lt_upper_bound; lia]
                              |split; [apply Z.div_pos; lia | apply Z.div_lt_upper_bound; lia]].
  apply hex_char_inj in E2; [|apply Z.mod_pos_bound; lia | apply Z.mod_pos_bound; lia].
  rewrite (Z.div_mod m 16), (Z.div_mod m' 16) by lia. rewrite E1, E2. reflexivity.
Qed.

(** On channels that round to bytes, rgbToHex is injective on the
    rounded channels: equal codes mean equal rounded channels. *)
Theorem rgbToHex_injective (r g b r' g' b' : Q) :
  0 <= js_round r <= 255 -> 0 <= js_round g <= 255 -> 0 <= js_round b <= 255 ->
  0 <= js_round r' <= 255 -> 0 <= js_round g' <= 255 -> 0 <= js_round b' <= 255 ->
  ColorNames.rgbToHex r g b = ColorNames.rgbToHex r' g' b' ->
  js_round r = js_round r' /\ js_round g = js_round g' /\ js_round b = js_round b'.
Proof.
  intros Hr Hg Hb Hr' Hg' Hb' E.
  unfold ColorNames.rgbToHex, ColorNames.toHex in E. cbv zeta in E.
  rewrite (hex_pad_byte _ Hr), (hex_pad_byte _ Hg), (hex_pad_byte _ Hb),
    (hex_pad_byte _ Hr'), (hex_pad_byte _ Hg'), (hex_pad_byte _ Hb') in E.
  simpl in E. injection E as E1 E2 E3 E4 E5 E6.
  split; [|split]; apply hex_byte_inj; assumption.
Qed.

Lemma rgbToHex_injective_witness :
  (0 <= js_round (2546 # 10) <= 255 /\ 0 <= js_round 128 <= 255 /\ 0 <= js_round 0 <= 255 /\
   0 <= js_round 255 <= 255 /\ 0 <= js_round (1276 # 10) <= 255 /\ 0 <= js_round (4 # 10) <= 255) /\
  ColorNames.rgbToHex (2546 # 10) 128 0 = ColorNames.rgbToHex 255 (1276 # 10) (4 # 10) /\
  js_round (2546 # 10) = js_round 255 /\ js_round 128 = js_round (1276 # 10) /\
  js_round 0 = js_round (4 # 10).
Proof.
  assert (H1 : 0 <= js_round (2546 # 10) <= 255) by (vm_compute; split; discriminate).
  assert (H2 : 0 <= js_round 128 <= 255) by (vm_compute; split; discriminate).
  assert (H3 : 0 <= js_round 0 <= 255) by (vm_compute; split; discriminate).
  assert (H4 : 0 <= js_round 255 <= 255) by (vm_compute; split; discriminate).
  assert (H5 : 0 <= js_round (1276 # 10) <= 255) by (vm_compute; split; discriminate).
  assert (H6 : 0 <= js_round (4 # 10) <= 255) by (vm_compute; split; discriminate).
  assert (He : ColorNames.rgbToHex (2546 # 10) 128 0 = ColorNames.rgbToHex 255 (1276 # 10) (4 # 10))
    by (vm_compute; reflexivity).
  split; [tauto|]. split; [exact He|].
  apply (ColorNamesProofs.rgbToHex_injective _ _ _ _ _ _ H1 H2 H3 H4 H5 H6 He).
Defined.

End ColorNamesProofs.


Lemma to_uint8_clamp_range (v : R) : 0 <= Sharpen.to_uint8_clamp v <= 255.
Proof.
  unfold Sharpen.to_uint8_clamp.
  destruct (Rle_dec v 0) as [H0|H0]; [lia|].
  destruct (Rle_dec 255 v) as [H1|H1]; [lia|]. cbv zeta.
  pose proof (base_Int_part v) as [Hb1 Hb2].
  assert (Hlo : -1 < Int_part v) by (apply lt_IZR; lra).
  assert (Hhi : Int_part v < 255) by (apply lt_IZR; lra).
  destruct (Rlt_dec _ _); [lia|]. destruct (Rlt_dec _ _); [lia|].
  destruct (Z.even _); lia.
Qed.

Lemma to_uint8_clamp_byte (z : Z) : 0 <= z <= 255 -> Sharpen.to_uint8_clamp (IZR z) = z.
Proof.
  intros Hz. unfold Sharpen.to_uint8_clamp.
  destruct (Rle_dec (IZR z) 0) as [H0|H0].
  { apply le_IZR in H0. lia. }
  destruct (Rle_dec 255 (IZR z)) as [H1|H1].
  { apply le_IZR in H1. lia. }
  cbv zeta.
  replace (Int_part (IZR z)) with z by (apply Int_part_spec; lra).
  destruct (Rlt_dec (IZR z + / 2) (IZR z)) as [H2|H2]; [lra|].
  destruct (Rlt_dec (IZR z) (IZR z + / 2)) as [H3|H3]; [reflexivity | lra].
Qed.

Lemma clamp255_byte (z : Z) : 0 <= z <= 255 -> Sharpen.clamp255 (IZR z) = IZR z.
Proof.
  intros Hz. unfold Sharpen.clamp255.
  assert (H0 : (0 <= IZR z)%R) by (apply IZR_le; lia).
  assert (H1 : (IZR z <= 255)%R) by (apply IZR_le; lia).
  rewrite Rmin_right by exact H1. rewrite Rmax_right by exact H0. reflexivity.
Qed.

Lemma write_rd_self (d : list Z) (j : Z) : write d j (rd d j) = d.
Proof.
  unfold write, rd, read. destruct (j <? 0); [reflexivity|].
  destruct (d !! Z.to_nat j) as [v|] eqn:E; simpl.
  - apply list_insert_id. exact E.
  - apply list_insert_ge. apply lookup_ge_None in E. exact E.
Qed.

Lemma interior_pass_id (original : list Z) (w h : Z) (value : Z -> Z -> Z -> Z) :
  (forall x y c, 1 <= x < w - 1 -> 1 <= y < h - 1 -> 0 <= c < 3 ->
     value x y c = rd original (pix_idx w x y c)) ->
  Sharpen.interior_pass original w h value original = original.
Proof.
  intros Hv. unfold Sharpen.interior_pass.
  apply (for_range_preserve (fun r => r = original)); [reflexivity|].
  intros y r Hy ->.
  apply (for_range_preserve (fun r => r = original)); [reflexivity|].
  intros x r Hx ->. cbv zeta.
  rewrite (for_range_preserve (fun r => r = original)); [apply write_rd_self | reflexivity |].
  intros c r Hc ->. rewrite Hv by lia. apply write_rd_self.
Qed.

Lemma write_bytes (d : list Z) (j v : Z) :
  byte_list d -> 0 <= v <= 255 -> byte_list (write d j v).
Proof.
  intros Hd Hv. unfold write. destruct (j <? 0); [exact Hd|].
  apply Forall_insert; assumption.
Qed.

Lemma interior_pass_bytes (original : list Z) (w h : Z) (value : Z -> Z -> Z -> Z)
    (r0 : list Z) :
  byte_list original -> byte_list r0 ->
  (forall x y c, 0 <= value x y c <= 255) ->
  byte_list (Sharpen.interior_pass original w h value r0).
Proof.
  intros Ho Hr Hv. unfold Sharpen.interior_pass.
  apply for_range_preserve; [exact Hr|]. intros y r Hy Hr1.
  apply for_range_preserve; [exact Hr1|]. intros x r2 Hx Hr2. cbv zeta.
  apply write_bytes; [|apply rd_byte, Ho].
  apply for_range_preserve; [exact Hr2|]. intros c r3 Hc Hr3.
  apply write_bytes; [exact Hr3 | apply Hv].
Qed.

(** On a byte image with [data.length = width * height * 4], sharpening
    with intensity 0 returns the image unchanged, for every method. *)
Theorem sharpen_zero_intensity (img : ImageData) (method : Sharpen.SharpenMethod) :
  Z.of_nat (length (data img)) = width img * height img * 4 -> byte_list (data img) ->
  Sharpen.sharpenImage img 0%R method = img.
Proof.
  intros Hlen Hd.
  destruct method; unfold Sharpen.sharpenImage; cbv zeta; rewrite (sharpen_copy_is_source img Hlen);
    [unfold Sharpen.applyUnsharpMask | unfold Sharpen.applyLaplacianSharpening
    | unfold Sharpen.applyEdgeEnhancement]; cbv zeta;
    rewrite interior_pass_id; try (destruct img; reflexivity);
    intros x y c Hx Hy Hc;
    rewrite ?Rmult_0_r, ?Rmult_0_l, ?Rplus_0_r;
    rewrite clamp255_byte by (apply rd_byte, Hd);
    apply to_uint8_clamp_byte, rd_byte, Hd.
Qed.

Lemma sharpen_zero_intensity_witness :
  let img := mkImageData 3 3 (concat (repeat [10; 200; 30; 255] 4) ++ [250; 0; 5; 128] ++
                              concat (repeat [10; 200; 30; 255] 4)) in
  Z.of_nat (length (data img)) = width img * height img * 4 /\ byte_list (data img) /\
  Sharpen.sharpenImage img 0%R Sharpen.Laplacian = img.
Proof.
  intros img. assert (Hd : byte_list (data img)) by (simpl; byte_list_tac).
  split; [reflexivity|]. split; [exact Hd|].
  apply (sharpen_zero_intensity img Sharpen.Laplacian); [reflexivity | exact Hd].
Defined.

Lemma nth_concat_repeat (q : list Z) (n k : nat) :
  length q = 4%nat -> (k < 4 * n)%nat -> nth k (concat (repeat q n)) 0 = nth (k mod 4) q 0.
Proof.
  intros Hq. revert k. induction n as [|n IH]; intros k Hk; [lia|].
  cbn [repeat concat]. destruct (Nat.lt_ge_cases k 4) as [Hlt|Hge].
  - rewrite app_nth1 by lia. rewrite Nat.mod_small by lia. reflexivity.
  - rewrite app_nth2 by lia. rewrite Hq, IH by lia. f_equal.
    replace k with ((k - 4) + 1 * 4)%nat at 2 by lia. rewrite Nat.Div0.mod_add. reflexivity.
Qed.

Lemma rd_uniform (q : list Z) (n : nat) (i : Z) :
  length q = 4%nat -> 0 <= i < 4 * Z.of_nat n ->
  rd (concat (repeat q n)) i = nth (Z.to_nat (i mod 4)) q 0.
Proof.
  intros Hq Hi. rewrite <- (Z2Nat.id i) at 1 by lia. rewrite rd_nth.
  rewrite nth_concat_repeat by lia. f_equal.
  rewrite Z2Nat.inj_mod by lia. reflexivity.
Qed.

Lemma conv3_const (d : list Z) (w x y c : Z) (kernel : list Z) (v : Z) :
  (forall kx ky, -1 <= kx <= 1 -> -1 <= ky <= 1 -> rd d (pix_idx w (x + kx) (y + ky) c) = v) ->
  Sharpen.conv3 d w x y c kernel =
  v * (nth 0 kernel 0 + nth 1 kernel 0 + nth 2 kernel 0 + nth 3 kernel 0 + nth 4 kernel 0
       + nth 5 kernel 0 + nth 6 kernel 0 + nth 7 kernel 0 + nth 8 kernel 0).
Proof.
  intros H. unfold Sharpen.conv3, for_range. simpl.
  rewrite !H by lia.
  repeat match goal with
         | |- context [Z.to_nat ?e] =>
             let t := eval vm_compute in (Z.to_nat e) in change (Z.to_nat e) with t
         end.
  ring.
Qed.

Lemma rd_write_same (b : list Z) (j v : Z) :
  0 <= j < Z.of_nat (length b) -> rd (write b j v) j = v.
Proof. intros Hj. unfold rd. rewrite read_write_eq by exact Hj. reflexivity. Qed.

Lemma rd_write_other (b : list Z) (j j' v : Z) : j <> j' -> rd (write b j v) j' = rd b j'.
Proof. intros Hne. unfold rd. rewrite read_write_ne by congruence. reflexivity. Qed.

Lemma pix_idx_range (w h x y c : Z) :
  0 <= x < w -> 0 <= y < h -> 0 <= c < 4 -> 0 <= pix_idx w x y c < w * h * 4.
Proof. unfold pix_idx. intros. nia. Qed.

(** The three nested loops that write [f x y c] at every colour byte of an
    interior pixel leave exactly that value there. *)
Lemma interior_writes_at (b0 : list Z) (w h : Z) (f : Z -> Z -> Z -> Z) (x y c : Z) :
  Z.of_nat (length b0) = w * h * 4 ->
  1 <= x < w - 1 -> 1 <= y < h - 1 -> 0 <= c < 3 ->
  rd (for_range 1 (h - 1) (fun y b =>
        for_range 1 (w - 1) (fun x b =>
          for_range 0 3 (fun c b => write b (pix_idx w x y c) (f x y c)) b) b) b0)
     (pix_idx w x y c) = f x y c.
Proof.
  intros Hlen Hx Hy Hc.
  set (L := length b0) in *.
  set (T := fun b x' y' c' => rd b (pix_idx w x' y' c') = f x' y' c').
  assert (Hstep : forall b m k n, length b = L -> 1 <= m < w - 1 -> 1 <= k < h - 1 -> 0 <= n < 3 ->
            forall (D : Z -> Z -> Z -> Prop),
            (forall x' y' c', 1 <= x' < w - 1 -> 1 <= y' < h - 1 -> 0 <= c' < 3 -> D x' y' c' -> T b x' y' c') ->
            forall x' y' c', 1 <= x' < w - 1 -> 1 <= y' < h - 1 -> 0 <= c' < 3 ->
              D x' y' c' \/ (x' = m /\ y' = k /\ c' = n) ->
              T (write b (pix_idx w m k n) (f m k n)) x' y' c').
  { intros b m k n Hb Hm Hk Hn D HD x' y' c' Hx' Hy' Hc' Hor. unfold T.
    destruct (decide (x' = m /\ y' = k /\ c' = n)) as [(-> & -> & ->)|Hne].
    - apply rd_write_same. pose proof (pix_idx_range w h m k n). lia.
    - rewrite rd_write_other.
      + destruct Hor as [Hd|Heq]; [exact (HD x' y' c' Hx' Hy' Hc' Hd) | contradiction].
      + intros Heq. apply pix_idx_inj in Heq; [|lia|lia|lia|lia]. apply Hne. lia. }
  pose proof (for_range_ind
    (fun k b => length b = L /\ forall x' y' c', 1 <= x' < w - 1 -> 1 <= y' < h - 1 -> 0 <= c' < 3 ->
                 y' < k -> T b x' y' c')
    1 (h - 1) (fun y b =>
        for_range 1 (w - 1) (fun x b =>
          for_range 0 3 (fun c b => write b (pix_idx w x y c) (f x y c)) b) b) b0) as Hout.
  destruct Hout as [_ Hfin]; [split; [reflexivity | intros; lia] | | apply Hfin; lia].
  intros k b Hk [Hb Hprev].
  pose proof (for_range_ind
    (fun m b => length b = L /\ forall x' y' c', 1 <= x' < w - 1 -> 1 <= y' < h - 1 -> 0 <= c' < 3 ->
                 y' < k \/ (y' = k /\ x' < m) -> T b x' y' c')
    1 (w - 1) (fun x b => for_range 0 3 (fun c b => write b (pix_idx w x k c) (f x k c)) b) b) as Hmid.
  destruct Hmid as [Hb2 Hfin2].
  - split; [exact Hb|]. intros x' y' c' Hx' Hy' Hc' [Hlt|[Heq Hlt]]; [apply Hprev; lia | lia].
  - intros m b1 Hm [Hb1 Hprev1].
    pose proof (for_range_ind
      (fun n b => length b = L /\ forall x' y' c', 1 <= x' < w - 1 -> 1 <= y' < h - 1 -> 0 <= c' < 3 ->
                   y' < k \/ (y' = k /\ x' < m) \/ (y' = k /\ x' = m /\ c' < n) -> T b x' y' c')
      0 3 (fun c b => write b (pix_idx w m k c) (f m k c)) b1) as Hin.
    destruct Hin as [Hb3 Hfin3].
    + split; [exact Hb1|]. intros x' y' c' Hx' Hy' Hc' Hd.
      apply Hprev1; [exact Hx' | exact Hy' | exact Hc' | lia].
    + intros n b2 Hn [Hb2 Hprev2]. split; [rewrite length_write; exact Hb2|].
      intros x' y' c' Hx' Hy' Hc' Hd.
      apply (Hstep b2 m k n Hb2 Hm Hk Hn
               (fun x' y' c' => y' < k \/ (y' = k /\ x' < m) \/ (y' = k /\ x' = m /\ c' < n)));
        [exact Hprev2 | exact Hx' | exact Hy' | exact Hc' |].
      destruct (decide (x' = m /\ y' = k /\ c' = n)); [right; exact a | left; lia].
    + split; [exact Hb3|]. intros x' y' c' Hx' Hy' Hc' Hd. apply Hfin3; [exact Hx' | exact Hy' | exact Hc' | lia].
  - split; [exact Hb2|]. intros x' y' c' Hx' Hy' Hc' Hd. apply Hfin2; [exact Hx' | exact Hy' | exact Hc' | lia].
Qed.

Lemma length_concat_repeat (q : list Z) (n : nat) :
  length (concat (repeat q n)) = (length q * n)%nat.
Proof. induction n as [|n IH]; simpl; [lia|]. rewrite length_app, IH. lia. Qed.

Lemma concat_repeat_bytes (q : list Z) (n : nat) :
  byte_list q -> byte_list (concat (repeat q n)).
Proof.
  intros Hq. induction n as [|n IH]; simpl; [constructor|].
  apply Forall_app. split; assumption.
Qed.

Lemma pix_idx_mod4 (w x y c : Z) : 0 <= c < 4 -> pix_idx w x y c mod 4 = c.
Proof.
  intros Hc. unfold pix_idx. rewrite Z.add_comm, Z.mod_add by lia.
  apply Z.mod_small, Hc.
Qed.

(** A uniform image (every pixel the same byte RGBA value) is left
    unchanged by sharpenImage, for every intensity and method. *)
Theorem sharpen_uniform_unchanged (w h r g b a : Z) (intensity : R)
    (method : Sharpen.SharpenMethod) :
  0 <= w -> 0 <= h -> byte_list [r; g; b; a] ->
  Sharpen.sharpenImage (mkImageData w h (concat (repeat [r; g; b; a] (Z.to_nat (w * h)))))
    intensity method =
  mkImageData w h (concat (repeat [r; g; b; a] (Z.to_nat (w * h)))).
Proof.
  intros Hw Hh Hq.
  set (q := [r; g; b; a]) in *.
  set (d := concat (repeat q (Z.to_nat (w * h)))).
  assert (Hlen : length d = Z.to_nat (w * h * 4)).
  { unfold d. rewrite length_concat_repeat. simpl length. nia. }
  assert (Hd : byte_list d) by (apply concat_repeat_bytes, Hq).
  set (col := fun c => nth (Z.to_nat c) q 0).
  assert (Hcol : forall x y c, 0 <= x < w -> 0 <= y < h -> 0 <= c < 4 ->
                   rd d (pix_idx w x y c) = col c).
  { intros x y c Hx Hy Hc. unfold d. rewrite rd_uniform; [|reflexivity|].
    - rewrite pix_idx_mod4 by exact Hc. reflexivity.
    - pose proof (pix_idx_range w h x y c Hx Hy Hc). nia. }
  assert (Hnb : forall x y c, 1 <= x < w - 1 -> 1 <= y < h - 1 -> 0 <= c < 3 ->
                  forall kx ky, -1 <= kx <= 1 -> -1 <= ky <= 1 ->
                  rd d (pix_idx w (x + kx) (y + ky) c) = col c).
  { intros x y c Hx Hy Hc kx ky Hkx Hky. apply Hcol; lia. }
  assert (Hcolb : forall c, 0 <= c < 3 -> 0 <= col c <= 255).
  { intros c Hc. unfold col. apply (Forall_nth (fun v => 0 <= v <= 255)); [exact Hq | simpl; lia]. }
  unfold Sharpen.sharpenImage. cbn [data width height]. cbv zeta.
  rewrite (copy_loop_eq d (Z.to_nat (w * h * 4)) Hlen).
  f_equal. destruct method.
  - unfold Sharpen.applyUnsharpMask. cbv zeta.
    apply interior_pass_id. intros x y c Hx Hy Hc.
    rewrite interior_writes_at by (try rewrite repeat_length; lia).
    rewrite (conv3_const d w x y c _ (col c) (Hnb x y c Hx Hy Hc)).
    replace (col c * _) with (col c * 16) by reflexivity.
    rewrite (Hcol x y c) by lia.
    replace (IZR (col c * 16) / 16)%R with (IZR (col c)) by (rewrite mult_IZR; field).
    rewrite to_uint8_clamp_byte by (apply Hcolb; exact Hc).
    rewrite Z.sub_diag, Rmult_0_l, Rplus_0_r.
    rewrite clamp255_byte by (apply Hcolb; exact Hc).
    apply to_uint8_clamp_byte, Hcolb, Hc.
  - unfold Sharpen.applyLaplacianSharpening. cbv zeta.
    apply interior_pass_id. intros x y c Hx Hy Hc.
    rewrite (conv3_const d w x y c _ (col c) (Hnb x y c Hx Hy Hc)). simpl nth.
    rewrite (Hcol x y c) by lia.
    replace (col c * (0 + -1 + 0 + -1 + 5 + -1 + 0 + -1 + 0) - col c) with 0 by ring.
    rewrite !Rmult_0_l, Rplus_0_r.
    rewrite clamp255_byte by (apply Hcolb; exact Hc).
    apply to_uint8_clamp_byte, Hcolb, Hc.
  - unfold Sharpen.applyEdgeEnhancement. cbv zeta.
    apply interior_pass_id. intros x y c Hx Hy Hc.
    rewrite !(conv3_const d w x y c _ (col c) (Hnb x y c Hx Hy Hc)). simpl nth.
    rewrite (Hcol x y c) by lia.
    replace (col c * (-1 + 0 + 1 + -2 + 0 + 2 + -1 + 0 + 1) * (col c * (-1 + 0 + 1 + -2 + 0 + 2 + -1 + 0 + 1))
             + col c * (-1 + -2 + -1 + 0 + 0 + 0 + 1 + 2 + 1) * (col c * (-1 + -2 + -1 + 0 + 0 + 0 + 1 + 2 + 1)))
      with 0 by ring.
    rewrite sqrt_0, !Rmult_0_l, Rplus_0_r.
    rewrite clamp255_byte by (apply Hcolb; exact Hc).
    apply to_uint8_clamp_byte, Hcolb, Hc.
Qed.

Lemma sharpen_uniform_unchanged_witness :
  0 <= 4 /\ 0 <= 3 /\ byte_list [90; 140; 220; 255] /\
  Sharpen.sharpenImage (mkImageData 4 3 (concat (repeat [90; 140; 220; 255] (Z.to_nat (4 * 3)))))
    2%R Sharpen.EdgeEnhance =
  mkImageData 4 3 (concat (repeat [90; 140; 220; 255] (Z.to_nat (4 * 3)))).
Proof.
  assert (Hd : byte_list [90; 140; 220; 255]) by byte_list_tac.
  split; [lia|]. split; [lia|]. split; [exact Hd|].
  apply (sharpen_uniform_unchanged 4 3 90 140 220 255 2%R Sharpen.EdgeEnhance); [lia | lia | exact Hd].
Defined.


(** For a box inside the image and a padding percentage >= 0,
    applyCropPadding returns a box that contains the original one. *)
Lemma applyCropPadding_contains (b : AutoCrop.CropBounds) (W H : Z) (pp : Q) :
  (0 <= pp)%Q ->
  (0 <= AutoCrop.cb_x b)%Q -> (0 <= AutoCrop.cb_y b)%Q ->
  (0 <= AutoCrop.cb_width b)%Q -> (0 <= AutoCrop.cb_height b)%Q ->
  (AutoCrop.cb_x b + AutoCrop.cb_width b <= inject_Z W)%Q ->
  (AutoCrop.cb_y b + AutoCrop.cb_height b <= inject_Z H)%Q ->
  let p := AutoCrop.applyCropPadding b W H pp in
  (AutoCrop.cb_x p <= AutoCrop.cb_x b)%Q /\ (AutoCrop.cb_y p <= AutoCrop.cb_y b)%Q /\
  (AutoCrop.cb_x b + AutoCrop.cb_width b <= AutoCrop.cb_x p + AutoCrop.cb_width p)%Q /\
  (AutoCrop.cb_y b + AutoCrop.cb_height b <= AutoCrop.cb_y p + AutoCrop.cb_height p)%Q.
Proof.
  intros Hpp Hx Hy Hw Hh HW HH p. unfold p, AutoCrop.applyCropPadding. simpl.
  destruct b as [x y w h]; simpl in *.
  assert (HpX : (0 <= inject_Z (js_round (w * pp)))%Q).
  { change 0%Q with (inject_Z 0). rewrite <- Zle_Qle. apply js_round_nonneg.
    apply Qmult_le_0_compat; assumption. }
  assert (HpY : (0 <= inject_Z (js_round (h * pp)))%Q).
  { change 0%Q with (inject_Z 0). rewrite <- Zle_Qle. apply js_round_nonneg.
    apply Qmult_le_0_compat; assumption. }
  set (px := inject_Z (js_round (w * pp))) in *.
  set (py := inject_Z (js_round (h * pp))) in *.
  clearbody px py.
  assert (Mx1 := Q.le_max_l 0 (x - px)). assert (Mx2 := Q.le_max_r 0 (x - px)).
  assert (My1 := Q.le_max_l 0 (y - py)). assert (My2 := Q.le_max_r 0 (y - py)).
  assert (Mx : (Qmax 0 (x - px) <= x)%Q) by (apply Q.max_lub; qlra).
  assert (My : (Qmax 0 (y - py) <= y)%Q) by (apply Q.max_lub; qlra).
  split; [exact Mx|]. split; [exact My|].
  split.
  - destruct (AutoCrop.qlt _ _); qlra.
  - destruct (AutoCrop.qlt _ _); qlra.
Qed.

Lemma applyCropPadding_contains_witness :
  let b := AutoCrop.mkCropBounds 10 20 30 40 in
  (0 <= 15 # 100 /\ 0 <= AutoCrop.cb_x b /\ 0 <= AutoCrop.cb_y b /\
   0 <= AutoCrop.cb_width b /\ 0 <= AutoCrop.cb_height b /\
   AutoCrop.cb_x b + AutoCrop.cb_width b <= inject_Z 45 /\
   AutoCrop.cb_y b + AutoCrop.cb_height b <= inject_Z 100)%Q /\
  let p := AutoCrop.applyCropPadding b 45 100 (15 # 100) in
  (AutoCrop.cb_x p <= AutoCrop.cb_x b)%Q /\ (AutoCrop.cb_y p <= AutoCrop.cb_y b)%Q /\
  (AutoCrop.cb_x b + AutoCrop.cb_width b <= AutoCrop.cb_x p + AutoCrop.cb_width p)%Q /\
  (AutoCrop.cb_y b + AutoCrop.cb_height b <= AutoCrop.cb_y p + AutoCrop.cb_height p)%Q.
Proof.
  intros b. split; [vm_compute; repeat split; discriminate|].
  apply (applyCropPadding_contains b 45 100 (15 # 100)); vm_compute; discriminate.
Defined.


Section HslProofs.

Open Scope Q_scope.

Lemma qdiv_le1 (x d : Q) : 0 < d -> x <= d -> x / d <= 1.
Proof. intros Hd Hx. apply Qle_shift_div_r; [exact Hd | qlra]. Qed.

Lemma qdiv_ge_m1 (x d : Q) : 0 < d -> - d <= x -> -1 <= x / d.
Proof. intros Hd Hx. apply Qle_shift_div_l; [exact Hd | qlra]. Qed.

Lemma qdiv_nonneg (x d : Q) : 0 < d -> 0 <= x -> 0 <= x / d.
Proof. intros Hd Hx. apply Qle_shift_div_l; [exact Hd | qlra]. Qed.

Lemma qdiv_neg (x d : Q) : 0 < d -> x < 0 -> x / d < 0.
Proof. intros Hd Hx. apply Qlt_shift_div_r; [exact Hd | qlra]. Qed.

Lemma channel_unit (v : Z) : (0 <= v <= 255)%Z -> 0 <= inject_Z v / 255 <= 1.
Proof.
  intros Hv. split.
  - apply qdiv_nonneg; [reflexivity|]. change 0 with (inject_Z 0). rewrite <- Zle_Qle. lia.
  - apply qdiv_le1; [reflexivity|]. change 255 with (inject_Z 255). rewrite <- Zle_Qle. lia.
Qed.

(** On byte channels, rgbToHsl gives a hue in [0, 360), a saturation in
    [0, 100] and a lightness in [0, 100]. *)
Theorem rgbToHsl_ranges (r g b : Z) :
  (0 <= r <= 255)%Z -> (0 <= g <= 255)%Z -> (0 <= b <= 255)%Z ->
  let '(h, s, l) := Palette.rgbToHsl r g b in
  0 <= h < 360 /\ 0 <= s <= 100 /\ 0 <= l <= 100.
Proof.
  intros Hr Hg Hb. unfold Palette.rgbToHsl. cbv zeta.
  pose proof (channel_unit r Hr) as Ur. pose proof (channel_unit g Hg) as Ug.
  pose proof (channel_unit b Hb) as Ub.
  set (r' := inject_Z r / 255) in *. set (g' := inject_Z g / 255) in *.
  set (b' := inject_Z b / 255) in *.
  set (mx := Qmax r' (Qmax g' b')). set (mn := Qmin r' (Qmin g' b')).
  assert (Hmx : r' <= mx /\ g' <= mx /\ b' <= mx /\ mx <= 1).
  { unfold mx. repeat split.
    - apply Q.le_max_l.
    - eapply Qle_trans; [apply (Q.le_max_l g' b') | apply Q.le_max_r].
    - eapply Qle_trans; [apply (Q.le_max_r g' b') | apply Q.le_max_r].
    - apply Q.max_lub; [qlra | apply Q.max_lub; qlra]. }
  assert (Hmn : mn <= r' /\ mn <= g' /\ mn <= b' /\ 0 <= mn).
  { unfold mn. repeat split.
    - apply Q.le_min_l.
    - eapply Qle_trans; [apply Q.le_min_r | apply (Q.le_min_l g' b')].
    - eapply Qle_trans; [apply Q.le_min_r | apply (Q.le_min_r g' b')].
    - apply Q.min_glb; [qlra | apply Q.min_glb; qlra]. }
  assert (Hl : 0 <= (mx + mn) / 2 * 100 <= 100).
  { assert (E : (mx + mn) / 2 * 100 == (mx + mn) * 50) by field. rewrite E. qlra. }
  destruct (Qeq_bool mx mn) eqn:Emm.
  - cbv iota. split; [qlra|]. split; [qlra | exact Hl].
  - assert (Hd : 0 < mx - mn).
    { assert (Hne : ~ mx == mn) by (intros E; apply Qeq_bool_iff in E; congruence). qlra. }
    set (d := mx - mn) in *.
    cbv iota. split; [|split; [|exact Hl]].
    + set (h0 := if Qeq_bool mx r' then (g' - b') / d + (if Palette.qlt g' b' then 6 else 0)
                 else if Qeq_bool mx g' then (b' - r') / d + 2 else (r' - g') / d + 4).
      assert (Hh0 : 0 <= h0 < 6).
      { unfold h0. destruct (Qeq_bool mx r') eqn:E1; [|destruct (Qeq_bool mx g') eqn:E2].
        - destruct (Palette.qlt g' b') eqn:E3.
          + apply pal_qlt_true in E3.
            pose proof (qdiv_ge_m1 (g' - b') d Hd ltac:(unfold d; qlra)).
            pose proof (qdiv_neg (g' - b') d Hd ltac:(qlra)). qlra.
          + apply pal_qlt_false in E3.
            pose proof (qdiv_le1 (g' - b') d Hd ltac:(unfold d; qlra)).
            pose proof (qdiv_nonneg (g' - b') d Hd ltac:(qlra)). qlra.
        - pose proof (qdiv_le1 (b' - r') d Hd ltac:(unfold d; qlra)).
          pose proof (qdiv_ge_m1 (b' - r') d Hd ltac:(unfold d; qlra)). qlra.
        - pose proof (qdiv_le1 (r' - g') d Hd ltac:(unfold d; qlra)).
          pose proof (qdiv_ge_m1 (r' - g') d Hd ltac:(unfold d; qlra)). qlra. }
      assert (E : h0 / 6 * 360 == h0 * 60) by field. rewrite E. qlra.
    + destruct (Palette.qlt (1 # 2) ((mx + mn) / 2)) eqn:E4.
      * apply pal_qlt_true in E4.
        assert (Hden : 0 < 2 - mx - mn) by (unfold d in Hd; qlra).
        pose proof (qdiv_le1 d (2 - mx - mn) Hden ltac:(unfold d; qlra)).
        pose proof (qdiv_nonneg d (2 - mx - mn) Hden ltac:(qlra)). qlra.
      * assert (Hden : 0 < mx + mn) by (unfold d in Hd; qlra).
        pose proof (qdiv_le1 d (mx + mn) Hden ltac:(unfold d; qlra)).
        pose proof (qdiv_nonneg d (mx + mn) Hden ltac:(qlra)). qlra.
Qed.

End HslProofs.

Lemma rgbToHsl_ranges_witness :
  (0 <= 200 <= 255 /\ 0 <= 100 <= 255 /\ 0 <= 50 <= 255) /\
  let '(h, s, l) := Palette.rgbToHsl 200 100 50 in
  (0 <= h < 360 /\ 0 <= s <= 100 /\ 0 <= l <= 100)%Q.
Proof.
  split; [lia|]. apply (rgbToHsl_ranges 200 100 50); lia.
Defined.
